(** * Entropy-driven Wordle solver: feedback oracle, candidate filter,
      entropy evaluator, guess selector and game simulator.

    Shallow embedding of [ml/generate_optimal_trajectories.py], of the
    oracle, the filter and the game of [ml/generate_quick_trajectories.py],
    of the state encoders and the starter choice of [ml/unified_model.py]
    and [ml/train_policy.py], and of the word filter of
    [scripts/generate_comprehensive_wordlists.py].

    Conventions of the embedding.
    - A Python [str] is a [list ascii]; a tile is one of the three constants
      [CORRECT], [PRESENT], [ABSENT] of the source.
    - A Python exception is the [Raise] branch of [result]; [x ← e; k] is
      sequencing that propagates a raised exception.
    - [collections.Counter] is a [gmap ascii Z] (it is only read and written
      by key); the plain [dict] [pattern_counts], which the source iterates
      with [.values()], is an insertion-ordered association list.
    - Python [int] is [Z]; lengths, loop indices produced by [range] and the
      parameters [max_search] and [max_guesses] are [nat].
    - Python [float] is a parameter, [FloatOps]: a type with the operations
      the solver uses.  The facts about order and signs the solver relies on
      are [FloatLaws]; the real numbers, [real_arithmetic], satisfy them.
    - The entries of the encoders' feature vectors are [feature]s: quotients
      of small integers and integers taken as floats; a numpy array with two
      axes is the list of its rows, an index may be negative as in Python. *)

From Stdlib Require Import ZArith List Ascii String Reals Lra Lia.
From stdpp Require Import base gmap list strings.

(** * Part I: the program *)

(** ** Python run-time model *)

Inductive exn := IndexError | ZeroDivisionError | ValueError.

Inductive result (A : Type) : Type :=
| Ok (a : A)
| Raise (e : exn).
Arguments Ok {A} a.
Arguments Raise {A} e.

#[global] Instance exn_eq_dec : EqDecision exn.
Proof. solve_decision. Defined.

#[global] Instance result_eq_dec {A} `{EqDecision A} : EqDecision (result A).
Proof. solve_decision. Defined.

#[global] Instance result_ret : MRet result := λ A, Ok.

#[global] Instance result_bind : MBind result :=
  λ A B f m, match m with Ok a => f a | Raise e => Raise e end.

Abbreviation Word := (list ascii).

Definition str (s : string) : Word := list_ascii_of_string s.

(** [l[i]] for [0 <= i]: raises [IndexError] out of range. *)
Definition getitem {A} (l : list A) (i : nat) : result A :=
  match l !! i with
  | Some x => Ok x
  | None => Raise IndexError
  end.

(** [l[i] = x] for [0 <= i]: raises [IndexError] out of range. *)
Definition setitem {A} (l : list A) (i : nat) (x : A) : result (list A) :=
  if decide (i < length l) then Ok (<[i:=x]> l) else Raise IndexError.

(** [for x in l: body], threading the loop state. *)
Fixpoint for_each {A St} (l : list A) (body : A → St → result St) (st : St)
  : result St :=
  match l with
  | [] => Ok st
  | x :: l' => st' ← body x st; for_each l' body st'
  end.

(** [for x in l: body] where the body may [break]: the body returns the new
    state and whether it left the loop. *)
Fixpoint for_each_break {A St} (l : list A) (body : A → St → result (St * bool))
    (st : St) : result St :=
  match l with
  | [] => Ok st
  | x :: l' =>
      '(st', stop) ← body x st;
      if stop : bool then Ok st' else for_each_break l' body st'
  end.

Definition range (n : nat) : list nat := seq 0 n.

(** [max(l, key=key)]: the first element whose key is largest;
    [ValueError] on the empty list. *)
Definition max_by {A} (key : A → nat) (l : list A) : result A :=
  match l with
  | [] => Raise ValueError
  | x :: l' =>
      Ok (foldl (λ best y, if decide (key best < key y) then y else best) x l')
  end.

(** A [KeyError], the one exception the oracle, filter, evaluator and
    selector never meet, or the outcome of the rest of the call. *)
Inductive or_KeyError (A : Type) : Type :=
| KeyError
| NoKeyError (a : A).
Arguments KeyError {A}.
Arguments NoKeyError {A} a.

(** *** Plain [dict], in insertion order *)

(** [d.get(k)] *)
Fixpoint dict_get {K V} `{EqDecision K} (d : list (K * V)) (k : K) : option V :=
  match d with
  | [] => None
  | (k', v) :: d' => if decide (k' = k) then Some v else dict_get d' k
  end.

(** [d[k] = v]: an existing key keeps its place, a new one goes last. *)
Fixpoint dict_set {K V} `{EqDecision K} (d : list (K * V)) (k : K) (v : V)
  : list (K * V) :=
  match d with
  | [] => [(k, v)]
  | (k', v') :: d' =>
      if decide (k' = k) then (k', v) :: d' else (k', v') :: dict_set d' k v
  end.

(** [d.values()] *)
Definition dict_values {K V} (d : list (K * V)) : list V := d.*2.

(** *** [collections.Counter] *)

(** [c[k]]: a missing key reads as 0. *)
Definition counter_get (c : gmap ascii Z) (k : ascii) : Z :=
  default 0%Z (c !! k).

(** [c[k] -= 1] *)
Definition counter_dec (c : gmap ascii Z) (k : ascii) : gmap ascii Z :=
  <[k := (counter_get c k - 1)%Z]> c.

(** [k in c] *)
Definition counter_in (k : ascii) (c : gmap ascii Z) : bool :=
  bool_decide (is_Some (c !! k)).

(** [Counter(s)] *)
Definition Counter (s : Word) : gmap ascii Z :=
  foldl (λ c ch, <[ch := (counter_get c ch + 1)%Z]> c) ∅ s.

(** *** Floats

    The type of Python floats with the operations the solver applies to
    them. *)
Class FloatOps := {
  float : Type;
  (** the literals [0.0], [-1.0] and [0.1] *)
  float_zero : float;
  float_neg_one : float;
  float_bonus : float;
  (** [a / b] on ints, [b] not zero *)
  int_div : Z → Z → float;
  (** [math.log2(x)], [x] positive *)
  float_log2 : float → float;
  float_mul : float → float → float;
  float_sub : float → float → float;
  float_add : float → float → float;
  (** [x < y] *)
  float_lt : float → float → bool
}.

(** [a / b] on ints. *)
Definition truediv {FM : FloatOps} (a b : Z) : result float :=
  if decide (b = 0%Z) then Raise ZeroDivisionError else Ok (int_div a b).

(** [math.log2(x)]: a domain error unless [x] is positive. *)
Definition math_log2 {FM : FloatOps} (x : float) : result float :=
  if float_lt float_zero x then Ok (float_log2 x) else Raise ValueError.

(** *** Code points and indices *)

(** [ord(c)] *)
Definition ord (c : ascii) : Z := Z.of_nat (nat_of_ascii c).

(** [chr(n)] *)
Definition chr (n : Z) : ascii := ascii_of_nat (Z.to_nat n).

(** The position that an index [i], negative or not, denotes in a Python
    list or on a numpy axis of [size] entries. *)
Definition index (size : nat) (i : Z) : result nat :=
  if decide (0 ≤ i < Z.of_nat size)%Z then Ok (Z.to_nat i)
  else if decide (- Z.of_nat size ≤ i < 0)%Z
       then Ok (Z.to_nat (Z.of_nat size + i))
       else Raise IndexError.

(** [enumerate(l)] *)
Definition enumerate {A} (l : list A) : list (nat * A) := imap pair l.

(** *** Feature vectors

    An entry of a feature vector is a float: the quotient [n / d] of two
    small integers ([ratio]), or an integer taken as a float ([whole]). *)
Inductive feature :=
| ratio (n d : Z)
| whole (z : Z).

#[global] Instance feature_eq_dec : EqDecision feature.
Proof. solve_decision. Defined.

(** *** numpy arrays with two axes

    A float array of shape [(len(rows), ncols)].  The arrays of the encoder
    only ever hold [0], [1] and [-1], written here as integers. *)
Record ndarray := {
  ncols : nat;
  rows : list (list Z)
}.

(** [np.zeros((nrows, ncols))] *)
Definition np_zeros (nrows ncols : nat) : ndarray :=
  {| ncols := ncols; rows := replicate nrows (replicate ncols 0%Z) |}.

(** [a[:, j] = v] *)
Definition np_set_column (a : ndarray) (j : Z) (v : Z) : result ndarray :=
  j' ← index (ncols a) j;
  Ok {| ncols := ncols a; rows := (λ row, <[j':=v]> row) <$> rows a |}.

(** [a[i, :] = v] *)
Definition np_set_row (a : ndarray) (i : Z) (v : Z) : result ndarray :=
  i' ← index (length (rows a)) i;
  Ok {| ncols := ncols a; rows := <[i':=replicate (ncols a) v]> (rows a) |}.

(** [a[i, j] = v] *)
Definition np_set_cell (a : ndarray) (i j : Z) (v : Z) : result ndarray :=
  i' ← index (length (rows a)) i;
  j' ← index (ncols a) j;
  Ok {| ncols := ncols a; rows := alter (λ row, <[j':=v]> row) i' (rows a) |}.

(** [a.flatten()] *)
Definition np_flatten (a : ndarray) : list Z := concat (rows a).

(** ** Tile states *)

Inductive tile := CORRECT | PRESENT | ABSENT.

#[global] Instance tile_eq_dec : EqDecision tile.
Proof. solve_decision. Defined.

Abbreviation FeedbackPattern := (list tile).

(** State of the two loops of the oracle: [(feedback, secret_counts)]. *)
Abbreviation fb_state := (list tile * gmap ascii Z)%type.

(** ** ml/generate_optimal_trajectories.py *)

Module OptimalTrajectories.

(** Body of the loop "First pass: mark correct positions". *)
Definition first_pass (guess secret : Word) (i : nat) (st : fb_state)
  : result fb_state :=
  let '(feedback, secret_counts) := st in
  g ← getitem guess i;
  s ← getitem secret i;
  if decide (g = s) then
    feedback' ← setitem feedback i CORRECT;
    Ok (feedback', counter_dec secret_counts g)
  else Ok (feedback, secret_counts).

(** Body of the loop "Second pass: mark present letters". *)
Definition second_pass (guess : Word) (i : nat) (st : fb_state)
  : result fb_state :=
  let '(feedback, secret_counts) := st in
  f ← getitem feedback i;
  if decide (f ≠ CORRECT) then
    g ← getitem guess i;
    if counter_in g secret_counts then
      if decide (0 < counter_get secret_counts g)%Z then
        feedback' ← setitem feedback i PRESENT;
        Ok (feedback', counter_dec secret_counts g)
      else Ok (feedback, secret_counts)
    else Ok (feedback, secret_counts)
  else Ok (feedback, secret_counts).

Definition generate_feedback (guess secret : Word) : result FeedbackPattern :=
  let length := length secret in
  let feedback := replicate length ABSENT in
  let secret_counts := Counter secret in
  st ← for_each (range length) (first_pass guess secret)
         (feedback, secret_counts);
  st ← for_each (range length) (second_pass guess) st;
  Ok st.1.

(** Body of the loop of [apply_feedback_to_candidates]. *)
Definition keep_if_consistent (guess : Word) (feedback : FeedbackPattern)
    (word : Word) (new_candidates : list Word) : result (list Word) :=
  test_feedback ← generate_feedback guess word;
  if decide (test_feedback = feedback) then Ok (new_candidates ++ [word])
  else Ok new_candidates.

Definition apply_feedback_to_candidates (candidates : list Word)
    (guess : Word) (feedback : FeedbackPattern) : result (list Word) :=
  for_each candidates (keep_if_consistent guess feedback) [].

(** Body of the loop "Group candidates by the feedback pattern". *)
Definition count_pattern (guess candidate : Word)
    (pattern_counts : list (FeedbackPattern * Z))
  : result (list (FeedbackPattern * Z)) :=
  feedback ← generate_feedback guess candidate;
  let pattern := feedback in
  Ok (dict_set pattern_counts pattern
        (default 0%Z (dict_get pattern_counts pattern) + 1)%Z).

Definition common_starters : list (nat * list Word) :=
  [ (3, [str "are"; str "ate"; str "ear"]);
    (4, [str "tear"; str "rate"; str "late"]);
    (5, [str "arose"; str "slate"; str "crane"]);
    (6, [str "strain"; str "trains"; str "grains"]);
    (7, [str "stainer"; str "trained"; str "detains"]) ].

(** Body of the loop over [common_starters[length]]. *)
Definition add_starter (all_words : list Word)
    (words_to_evaluate : list Word) (word : Word) : list Word :=
  if bool_decide (word ∈ all_words) && bool_decide (word ∉ words_to_evaluate)
  then words_to_evaluate ++ [word]
  else words_to_evaluate.

(** The value of [words_to_evaluate] when the scoring loop starts (reached
    only when [len(candidates)] is neither 1 nor 2). *)
Definition words_to_evaluate (candidates all_words : list Word)
    (max_search : nat) : result (list Word) :=
  wte ←
    (if decide (length candidates ≤ 10) then Ok candidates
     else
       let wte := take 20 candidates in
       if decide (50 < length candidates) then
         c0 ← getitem candidates 0;
         let length := length c0 in
         match dict_get common_starters length with
         | Some starters => Ok (foldl (add_starter all_words) wte starters)
         | None => Ok wte
         end
       else Ok wte);
  if decide (max_search < length wte) then Ok (take max_search wte)
  else Ok wte.

(** Default of the parameter [max_search]. *)
Definition default_max_search : nat := 30.

(** Default of the parameter [max_guesses]. *)
Definition default_max_guesses : nat := 6.

(** Local variables of [play_optimal_game]. *)
Record game_state := {
  candidates : list Word;
  guesses : list Word;
  feedbacks : list FeedbackPattern;
  won : bool
}.

(** The dict returned by [play_optimal_game]. *)
Record trajectory := {
  t_secret : Word;
  t_guesses : list Word;
  t_feedbacks : list FeedbackPattern;
  t_won : bool;
  t_num_guesses : nat
}.

Definition initial_state (all_words : list Word) : game_state :=
  {| candidates := all_words; guesses := []; feedbacks := []; won := false |}.

Section floats.
Context {FM : FloatOps}.

(** Body of the loop "Calculate entropy: -sum(p * log2(p))". *)
Definition add_term (total count : Z) (entropy : float) : result float :=
  if decide (0 < count)%Z then
    p ← truediv count total;
    l ← math_log2 p;
    Ok (float_sub entropy (float_mul p l))
  else Ok entropy.

Definition calculate_entropy (guess : Word) (candidates : list Word)
  : result float :=
  match candidates with
  | [] => Ok float_zero
  | _ =>
      pattern_counts ← for_each candidates (count_pattern guess) [];
      let total := Z.of_nat (length candidates) in
      for_each (dict_values pattern_counts) (add_term total) float_zero
  end.

(** [score] of the scoring loop. *)
Definition score (candidates : list Word) (word : Word) : result float :=
  entropy ← calculate_entropy word candidates;
  let is_candidate := bool_decide (word ∈ candidates) in
  Ok (float_add entropy (if is_candidate then float_bonus else float_zero)).

(** Body of the loop "Calculate entropy for each word"; the state is
    [(best_word, best_score)]. *)
Definition consider (candidates : list Word) (word : Word)
    (best : Word * float) : result (Word * float) :=
  score ← score candidates word;
  if float_lt best.2 score then Ok (word, score) else Ok best.

Definition get_optimal_guess (candidates all_words : list Word)
    (max_search : nat) : result Word :=
  if decide (length candidates = 1) then getitem candidates 0
  else if decide (length candidates = 2) then getitem candidates 0
  else
    wte ← words_to_evaluate candidates all_words max_search;
    best_word ← getitem candidates 0;
    let best_score := float_neg_one in
    best ← for_each wte (consider candidates) (best_word, best_score);
    Ok best.1.

(** Body of the loop of [play_optimal_game]; the flag says whether the
    iteration ended in [break]. *)
Definition turn (secret : Word) (all_words : list Word) (guess_num : nat)
    (st : game_state) : result (game_state * bool) :=
  guess ← get_optimal_guess (candidates st) all_words default_max_search;
  feedback ← generate_feedback guess secret;
  let guesses' := guesses st ++ [guess] in
  let feedbacks' := feedbacks st ++ [feedback] in
  if decide (guess = secret) then
    Ok ({| candidates := candidates st; guesses := guesses';
           feedbacks := feedbacks'; won := true |}, true)
  else
    candidates' ← apply_feedback_to_candidates (candidates st) guess feedback;
    Ok ({| candidates := candidates'; guesses := guesses';
           feedbacks := feedbacks'; won := won st |},
        bool_decide (length candidates' = 0)).

(** The loop of [play_optimal_game], with the final local variables. *)
Definition play_loop (secret : Word) (all_words : list Word)
    (max_guesses : nat) : result game_state :=
  for_each_break (range max_guesses) (turn secret all_words)
    (initial_state all_words).

Definition play_optimal_game (secret : Word) (all_words : list Word)
    (max_guesses : nat) : result trajectory :=
  st ← play_loop secret all_words max_guesses;
  Ok {| t_secret := secret; t_guesses := guesses st;
        t_feedbacks := feedbacks st; t_won := won st;
        t_num_guesses := length (guesses st) |}.

End floats.

End OptimalTrajectories.

(** ** ml/generate_quick_trajectories.py *)

Module QuickTrajectories.

(** Body of the loop "First pass: correct positions". *)
Definition first_pass (guess secret : Word) (i : nat) (st : fb_state)
  : result fb_state :=
  let '(feedback, secret_counts) := st in
  g ← getitem guess i;
  s ← getitem secret i;
  if decide (g = s) then
    feedback' ← setitem feedback i CORRECT;
    Ok (feedback', counter_dec secret_counts g)
  else Ok (feedback, secret_counts).

(** Body of the loop "Second pass: present letters". *)
Definition second_pass (guess : Word) (i : nat) (st : fb_state)
  : result fb_state :=
  let '(feedback, secret_counts) := st in
  f ← getitem feedback i;
  if decide (f ≠ CORRECT) then
    g ← getitem guess i;
    if counter_in g secret_counts
       && bool_decide (0 < counter_get secret_counts g)%Z then
      feedback' ← setitem feedback i PRESENT;
      Ok (feedback', counter_dec secret_counts g)
    else Ok (feedback, secret_counts)
  else Ok (feedback, secret_counts).

Definition generate_feedback (guess secret : Word) : result FeedbackPattern :=
  let feedback := replicate (length secret) ABSENT in
  let secret_counts := Counter secret in
  st ← for_each (range (length guess)) (first_pass guess secret)
         (feedback, secret_counts);
  st ← for_each (range (length guess)) (second_pass guess) st;
  Ok st.1.

(** Body of the inner loop of [filter_candidates], over
    [zip(guesses, feedbacks)]; the state is [is_valid], a mismatch leaves the
    loop. *)
Definition check_pair (word : Word) (gf : Word * FeedbackPattern)
    (is_valid : bool) : result (bool * bool) :=
  test_feedback ← generate_feedback gf.1 word;
  if decide (test_feedback ≠ gf.2) then Ok (false, true)
  else Ok (is_valid, false).

(** Body of the outer loop of [filter_candidates]. *)
Definition keep_if_valid (guesses : list Word)
    (feedbacks : list FeedbackPattern) (word : Word) (valid : list Word)
  : result (list Word) :=
  is_valid ← for_each_break (zip guesses feedbacks) (check_pair word) true;
  if is_valid : bool then Ok (valid ++ [word]) else Ok valid.

Definition filter_candidates (candidates : list Word) (guesses : list Word)
    (feedbacks : list FeedbackPattern) : result (list Word) :=
  for_each candidates (keep_if_valid guesses feedbacks) [].

Definition get_optimal_first_guesses : list (nat * list Word) :=
  [ (3, [str "are"; str "ate"; str "ear"; str "era"; str "tea"; str "eta";
         str "art"; str "rat"; str "tar"; str "oar"]);
    (4, [str "tear"; str "rate"; str "late"; str "tale"; str "real";
         str "earl"; str "lean"; str "lane"; str "sane"; str "sale"]);
    (5, [str "arose"; str "stare"; str "slate"; str "crane"; str "crate";
         str "trace"; str "lance"; str "dance"; str "glare"; str "spare"]);
    (6, [str "strain"; str "trains"; str "grants"; str "plants";
         str "brains"; str "drains"; str "straps"; str "strand";
         str "trails"; str "grains"]);
    (7, [str "strange"; str "threads"; str "streaks"; str "strains";
         str "strange"; str "streams"; str "strands"; str "spreads";
         str "strides"; str "stripes"]) ].

(** [next((w for w in optimal_starters if w in candidates), candidates[0])]:
    the default [candidates[0]] is evaluated before [next] runs. *)
Definition first_guess (optimal_starters candidates : list Word)
  : result Word :=
  c0 ← getitem candidates 0;
  Ok (default c0 (head (filter (λ w, w ∈ candidates) optimal_starters))).

(** [len(set(w))] *)
Definition distinct_letters (w : Word) : nat := length (remove_dups w).

(** The guess of one iteration of [play_smart_game]. *)
Definition choose_guess (optimal_starters : list Word) (attempt : nat)
    (candidates : list Word) : result Word :=
  if decide (attempt = 0) then first_guess optimal_starters candidates
  else if decide (length candidates ≤ 2) then getitem candidates 0
  else max_by distinct_letters candidates.

(** Local variables of [play_smart_game]; [s_won] says that the loop was
    left by [return guesses, feedbacks, True]. *)
Record smart_state := {
  s_candidates : list Word;
  s_guesses : list Word;
  s_feedbacks : list FeedbackPattern;
  s_won : bool
}.

Definition smart_initial (all_words : list Word) : smart_state :=
  {| s_candidates := all_words; s_guesses := []; s_feedbacks := [];
     s_won := false |}.

(** Body of the loop of [play_smart_game]; the flag says whether the
    iteration left the loop ([return] or [break]). *)
Definition smart_turn (secret : Word) (optimal_starters : list Word)
    (attempt : nat) (st : smart_state) : result (smart_state * bool) :=
  guess ← choose_guess optimal_starters attempt (s_candidates st);
  feedback ← generate_feedback guess secret;
  let guesses := s_guesses st ++ [guess] in
  let feedbacks := s_feedbacks st ++ [feedback] in
  if decide (feedback = replicate (length secret) CORRECT) then
    Ok ({| s_candidates := s_candidates st; s_guesses := guesses;
           s_feedbacks := feedbacks; s_won := true |}, true)
  else
    candidates ← filter_candidates (s_candidates st) guesses feedbacks;
    Ok ({| s_candidates := candidates; s_guesses := guesses;
           s_feedbacks := feedbacks; s_won := false |},
        bool_decide (candidates = [])).

(** The loop of [play_smart_game], with the final local variables. *)
Definition smart_loop (secret : Word) (optimal_starters all_words : list Word)
    (max_guesses : nat) : result smart_state :=
  for_each_break (range max_guesses) (smart_turn secret optimal_starters)
    (smart_initial all_words).

Definition play_smart_game (secret : Word) (all_words : list Word)
    (max_guesses : nat)
  : or_KeyError (result (list Word * list FeedbackPattern * bool)) :=
  let length := length secret in
  match dict_get get_optimal_first_guesses length with
  | None => KeyError
  | Some optimal_starters =>
      NoKeyError
        (st ← smart_loop secret optimal_starters all_words max_guesses;
         Ok (s_guesses st, s_feedbacks st, s_won st))
  end.

End QuickTrajectories.

(** ** ml/unified_model.py *)

Module UnifiedModel.

Definition state_map (state : tile) : Z :=
  match state with
  | ABSENT => 1
  | PRESENT => 2
  | CORRECT => 3
  end.

(** Body of the loop over [zip(guess, feedback)] that fills
    [letter_states]; every tile is a key of [state_map]. *)
Definition mark_letter (ls : ascii * tile) (letter_states : ndarray)
  : result ndarray :=
  let '(letter, state) := ls in
  let letter_idx := (ord letter - ord "a")%Z in
  let state_idx := state_map state in
  letter_states ← np_set_row letter_states letter_idx 0;
  np_set_cell letter_states letter_idx state_idx 1.

(** Body of the loop over [enumerate(zip(guess, feedback))] that fills
    [position_info]. *)
Definition mark_position (max_length : nat) (pls : nat * (ascii * tile))
    (position_info : ndarray) : result ndarray :=
  let '(pos, (letter, state)) := pls in
  if decide (pos < max_length) then
    let letter_idx := (ord letter - ord "a")%Z in
    if decide (state = CORRECT) then
      position_info ← np_set_row position_info (Z.of_nat pos) 0;
      np_set_cell position_info (Z.of_nat pos) letter_idx 1
    else if decide (state = ABSENT) then
      np_set_cell position_info (Z.of_nat pos) letter_idx (-1)
    else Ok position_info
  else Ok position_info.

(** Default of the parameter [max_length]. *)
Definition default_max_length : nat := 7.

(** [feature_dim] of [UnifiedWordlePolicy.__init__]: the width of the input
    of the encoder network, a length embedding followed by the state
    features. *)
Definition feature_dim (embedding_dim max_length : nat) : nat :=
  embedding_dim + 1 + 26 * 4 + max_length * 27.

Definition encode_game_state (guesses : list Word)
    (feedbacks : list FeedbackPattern) (length max_length : nat)
  : result (list feature) :=
  let features := [ratio (Z.of_nat (Datatypes.length guesses)) 6] in
  letter_states ← np_set_column (np_zeros 26 4) 0 1;
  letter_states ←
    for_each (zip guesses feedbacks)
      (λ gf letter_states, for_each (zip gf.1 gf.2) mark_letter letter_states)
      letter_states;
  let features := features ++ (whole <$> np_flatten letter_states) in
  position_info ← np_set_column (np_zeros max_length 27) 26 1;
  position_info ←
    for_each (zip guesses feedbacks)
      (λ gf position_info,
         for_each (enumerate (zip gf.1 gf.2)) (mark_position max_length)
           position_info)
      position_info;
  let features := features ++ (whole <$> np_flatten position_info) in
  Ok features.

Definition OPTIMAL_STARTERS : list (nat * list Word) :=
  [ (3, [str "are"; str "ate"; str "one"; str "our"; str "out"]);
    (4, [str "tale"; str "late"; str "rate"; str "sane"; str "lean"]);
    (5, [str "arose"; str "slate"; str "least"; str "stale"; str "steal"]);
    (6, [str "strain"; str "trails"; str "learns"; str "master";
         str "realist"]);
    (7, [str "stainer"; str "eastern"; str "angriest"; str "strange";
         str "learnt"]) ].

(** [None] of the result is Python's [None]. *)
Definition get_smart_starter (length : nat) (available_words : list Word)
  : option Word :=
  let optimal := default [] (dict_get OPTIMAL_STARTERS length) in
  match list_find (λ word, word ∈ available_words) optimal with
  | Some (_, word) => Some word
  | None => head available_words
  end.

End UnifiedModel.

(** ** ml/train_policy.py *)

Module TrainPolicy.

(** Body of the loop over [zip(guess, feedback)] that fills the dict
    [letter_states]. *)
Definition update_letter (letter_states : gmap ascii Z) (ls : ascii * tile)
  : gmap ascii Z :=
  let '(letter, state) := ls in
  if decide (state = CORRECT) then <[letter:=3%Z]> letter_states
  else if bool_decide (state = PRESENT)
          && bool_decide (default 0 (letter_states !! letter) < 2)%Z
       then <[letter:=2%Z]> letter_states
  else if bool_decide (state = ABSENT)
          && bool_decide (letter_states !! letter = None)
       then <[letter:=1%Z]> letter_states
  else letter_states.

(** [position_constraints[pos][letter_idx] = v] *)
Definition set_constraint (position_constraints : list (list Z)) (pos : nat)
    (letter_idx : Z) (v : Z) : result (list (list Z)) :=
  row ← getitem position_constraints pos;
  j ← index (length row) letter_idx;
  Ok (<[pos:=<[j:=v]> row]> position_constraints).

(** Body of the loop over [enumerate(zip(guess, feedback))] that fills
    [position_constraints]. *)
Definition mark_constraint (pls : nat * (ascii * tile))
    (position_constraints : list (list Z)) : result (list (list Z)) :=
  let '(pos, (letter, state)) := pls in
  let letter_idx := (ord letter - ord "a")%Z in
  if decide (state = CORRECT) then
    set_constraint position_constraints pos letter_idx 1
  else if decide (state = ABSENT) then
    set_constraint position_constraints pos letter_idx (-1)
  else Ok position_constraints.

(** [WordleDataset.encode_state]; [self_length] is [self.length]. *)
Definition encode_state (self_length : nat) (guess_history : list Word)
    (feedback_history : list FeedbackPattern) : result (list feature) :=
  let features := [ratio (Z.of_nat (length guess_history)) 6] in
  let letter_states :=
    foldl (λ letter_states gf, foldl update_letter letter_states (zip gf.1 gf.2))
      ∅ (zip guess_history feedback_history) in
  let features :=
    features
    ++ ((λ i : nat,
           let letter := chr (ord "a" + Z.of_nat i) in
           ratio (default 0%Z (letter_states !! letter)) 3)
          <$> range 26) in
  let position_constraints := replicate self_length (replicate 26 0%Z) in
  position_constraints ←
    for_each (zip guess_history feedback_history)
      (λ gf position_constraints,
         for_each (enumerate (zip gf.1 gf.2)) mark_constraint
           position_constraints)
      position_constraints;
  let features := features ++ (whole <$> concat position_constraints) in
  Ok features.

(** [input_size] of [train], for [args.length]. *)
Definition input_size (args_length : nat) : nat := 1 + 26 + args_length * 26.

End TrainPolicy.

(** ** scripts/generate_comprehensive_wordlists.py *)

Module ComprehensiveWordlists.

(** [c.isalpha()] for a character [c] of code point below 256. *)
Definition char_isalpha (c : ascii) : bool :=
  let n := nat_of_ascii c in
  (65 <=? n) && (n <=? 90) || (97 <=? n) && (n <=? 122)
  || (n =? 170) || (n =? 181) || (n =? 186)
  || (192 <=? n) && (n <=? 214) || (216 <=? n) && (n <=? 246)
  || (248 <=? n).

(** [w.isalpha()]: there is at least one character and all are
    alphabetic. *)
Definition isalpha (w : Word) : bool :=
  negb (bool_decide (w = [])) && forallb char_isalpha w.

Definition filter_words_by_length (words : list Word) (length : nat)
  : list Word :=
  filter (λ w, Datatypes.length w = length ∧ isalpha w = true) words.

End ComprehensiveWordlists.

Import OptimalTrajectories.

(** * Part II: the vocabulary of the properties *)

(** ** Counting letters and tiles *)

(** Number of occurrences of the letter [L] in a word. *)
Definition occurrences (L : ascii) (s : Word) : nat :=
  length (filter (λ c, c = L) s).

(** Number of positions of [guess] that hold the letter [L] and whose tile
    in [feedback] is [t]. *)
Definition tiles (L : ascii) (t : tile) (guess : Word)
    (feedback : FeedbackPattern) : nat :=
  length (filter (λ p : ascii * tile, p.1 = L ∧ p.2 = t) (zip guess feedback)).

(** Number of positions of [guess] that hold [L] and are not [ABSENT]. *)
Definition marked (L : ascii) (guess : Word) (feedback : FeedbackPattern)
  : nat :=
  length (filter (λ p : ascii * tile, p.1 = L ∧ p.2 ≠ ABSENT)
            (zip guess feedback)).

(** Number of tiles [t] in a pattern. *)
Definition count_tile (t : tile) (feedback : FeedbackPattern) : nat :=
  length (filter (λ x, x = t) feedback).

(** Number of positions where the two words hold the same letter. *)
Definition matching_positions (guess secret : Word) : nat :=
  length (filter (λ p : ascii * ascii, p.1 = p.2) (zip guess secret)).

(** Number of occurrences of [k] in a list. *)
Definition count {A} `{EqDecision A} (k : A) (l : list A) : nat :=
  length (filter (λ x, x = k) l).

Definition sumZ (l : list Z) : Z := foldr Z.add 0%Z l.

(** ** Invariants of the two passes of the oracle *)

(** After [k] iterations of the first pass. *)
Definition first_pass_inv (guess secret : Word) (k : nat) (st : fb_state)
  : Prop :=
  length st.1 = length secret
  ∧ (∀ i, i < k → st.1 !! i = Some CORRECT ↔ guess !! i = secret !! i)
  ∧ (∀ i, k ≤ i → i < length secret → st.1 !! i = Some ABSENT)
  ∧ (∀ i, st.1 !! i ≠ Some PRESENT)
  ∧ (∀ L, (counter_get st.2 L + Z.of_nat (marked L guess st.1)
           = Z.of_nat (occurrences L secret))%Z)
  ∧ (∀ L, (Z.of_nat (occurrences L (drop k secret)) ≤ counter_get st.2 L)%Z).

(** After [k] iterations of the second pass. *)
Definition second_pass_inv (guess secret : Word) (k : nat) (st : fb_state)
  : Prop :=
  length st.1 = length secret
  ∧ (∀ i, i < length secret →
       st.1 !! i = Some CORRECT ↔ guess !! i = secret !! i)
  ∧ (∀ i, k ≤ i → st.1 !! i ≠ Some PRESENT)
  ∧ (∀ L, (counter_get st.2 L + Z.of_nat (marked L guess st.1)
           = Z.of_nat (occurrences L secret))%Z)
  ∧ (∀ L, (0 ≤ counter_get st.2 L)%Z).

(** ** Pools *)

(** [w] is consistent with the observation [(guess, feedback)]. *)
Definition consistent (guess : Word) (feedback : FeedbackPattern) (w : Word)
  : Prop :=
  generate_feedback guess w = Ok feedback.

#[global] Instance consistent_dec guess feedback w :
  Decision (consistent guess feedback w).
Proof. unfold consistent. apply _. Defined.

(** No word of the pool is longer than the guess. *)
Definition fits (guess : Word) (pool : list Word) : Prop :=
  Forall (λ w : Word, length w ≤ length guess) pool.

#[global] Instance fits_dec guess pool : Decision (fits guess pool).
Proof. unfold fits. apply _. Defined.

(** All words of the list have length [n]. *)
Definition uniform (n : nat) (l : list Word) : Prop :=
  Forall (λ w : Word, length w = n) l.

(** Every word of the pool has the length of the guess. *)
Definition same_length (guess : Word) (pool : list Word) : Prop :=
  uniform (length guess) pool.

(** ** Tallying the patterns of a pool *)

(** The loop "Group candidates by the feedback pattern" over a list of
    patterns. *)
Definition tally (pats : list FeedbackPattern) : list (FeedbackPattern * Z) :=
  foldl (λ d p, dict_set d p (default 0 (dict_get d p) + 1)%Z) [] pats.

(** The pattern the oracle returns for [w] (the empty pattern if it raises). *)
Definition pattern_of (guess w : Word) : FeedbackPattern :=
  match generate_feedback guess w with
  | Ok fb => fb
  | Raise _ => []
  end.

(** What the tally of a list of patterns holds. *)
Definition tallied (pats : list FeedbackPattern)
    (d : list (FeedbackPattern * Z)) : Prop :=
  NoDup d.*1
  ∧ (∀ k, dict_get d k
          = if decide (count k pats = 0) then None
            else Some (Z.of_nat (count k pats)))
  ∧ sumZ (dict_values d) = Z.of_nat (length pats).

(** ** Floats *)

(** What the solver relies on about the floats: [<] is a strict order in
    which any two values compare (no NaN), [-1.0 < 0.0 <= 0.1], the ratio of
    two positive ints is positive, [log2] of such a ratio that is at most 1
    is not positive, and products, differences and sums have the expected
    signs.  IEEE 754 doubles satisfy this once NaN and the infinities are
    left out. *)
Class FloatLaws (FM : FloatOps) : Prop := {
  float_lt_asym x y : float_lt x y = true → float_lt y x = false;
  float_lt_cotrans x y z :
    float_lt x y = true → float_lt x z = true ∨ float_lt z y = true;
  neg_one_lt_zero : float_lt float_neg_one float_zero = true;
  bonus_nonneg : float_lt float_bonus float_zero = false;
  int_div_pos a b :
    (0 < a)%Z → (0 < b)%Z → float_lt float_zero (int_div a b) = true;
  log2_ratio_nonpos a b :
    (0 < a ≤ b)%Z → float_lt float_zero (float_log2 (int_div a b)) = false;
  float_mul_pos_nonpos x y :
    float_lt float_zero x = true → float_lt float_zero y = false →
    float_lt float_zero (float_mul x y) = false;
  float_sub_nonneg x y :
    float_lt x float_zero = false → float_lt float_zero y = false →
    float_lt (float_sub x y) float_zero = false;
  float_add_nonneg x y :
    float_lt x float_zero = false → float_lt y float_zero = false →
    float_lt (float_add x y) float_zero = false
}.

(** ** Scores and the selector *)

(** [0 <= x] on floats. *)
Definition nonneg {FM : FloatOps} (x : float) : Prop :=
  float_lt x float_zero = false.

(** [best] is the first word of [E] whose score is maximal: no word of [E]
    scores more, and every word before it scores less. *)
Definition first_argmax {FM : FloatOps} (pool E : list Word) (best : Word)
  : Prop :=
  ∃ i sc, E !! i = Some best ∧ score pool best = Ok sc
    ∧ ∀ j w, E !! j = Some w →
        ∃ sc', score pool w = Ok sc'
          ∧ float_lt sc sc' = false ∧ (j < i → float_lt sc' sc = true).

(** The value [score] returns ([-1.0] if it raises). *)
Definition score_value {FM : FloatOps} (pool : list Word) (w : Word) : float :=
  match score pool w with
  | Ok sc => sc
  | Raise _ => float_neg_one
  end.

(** After the scoring loop has consumed [pre]: nothing chosen yet, or the
    first maximum of [pre]. *)
Definition scoring_inv {FM : FloatOps} (pool : list Word) (c0 : Word)
    (pre : list Word) (best : Word * float) : Prop :=
  (pre = [] ∧ best = (c0, float_neg_one))
  ∨ (∃ i, pre !! i = Some best.1 ∧ best.2 = score_value pool best.1
       ∧ ∀ j w, pre !! j = Some w →
           float_lt best.2 (score_value pool w) = false
           ∧ (j < i → float_lt (score_value pool w) best.2 = true)).

(** ** The game *)

(** The states the loop of [play_optimal_game] passes through: [reached k st
    stop] holds when [st] are the local variables after [k] iterations, the
    last of which ended in [break] iff [stop]. *)
Inductive reached {FM : FloatOps} (secret : Word) (all_words : list Word)
  : nat → game_state → bool → Prop :=
| reached_start : reached secret all_words 0 (initial_state all_words) false
| reached_turn k st st' stop :
    reached secret all_words k st false →
    turn secret all_words k st = Ok (st', stop) →
    reached secret all_words (S k) st' stop.

(** The state a winning iteration leaves. *)
Definition after_win (st : game_state) (guess : Word) (fb : FeedbackPattern)
  : game_state :=
  {| candidates := candidates st; guesses := guesses st ++ [guess];
     feedbacks := feedbacks st ++ [fb]; won := true |}.

(** The state a non-winning iteration leaves. *)
Definition after_miss (st : game_state) (guess : Word) (fb : FeedbackPattern)
  : game_state :=
  {| candidates := filter (consistent guess fb) (candidates st);
     guesses := guesses st ++ [guess];
     feedbacks := feedbacks st ++ [fb]; won := won st |}.

(** What holds of the local variables while the loop runs. *)
Definition playing (secret : Word) (k : nat) (st : game_state) : Prop :=
  uniform (length secret) (candidates st)
  ∧ candidates st ≠ []
  ∧ won st = false
  ∧ (secret ∉ guesses st)
  ∧ length (guesses st) = k
  ∧ length (feedbacks st) = k.

(** What holds of the local variables when the loop is left, after at most
    [m] iterations. *)
Definition finished (secret : Word) (m : nat) (st : game_state) : Prop :=
  length (guesses st) ≤ m
  ∧ length (feedbacks st) = length (guesses st)
  ∧ (won st = true ↔ secret ∈ guesses st)
  ∧ (won st = true → last (guesses st) = Some secret)
  ∧ (won st = false → length (guesses st) = m ∨ candidates st = []).

(** ** Exact arithmetic *)

Definition log2 (x : R) : R := (ln x / ln 2)%R.

(** The summand [- p * log2 p] for a bucket of [c] among [n] candidates. *)
Definition entropy_term (n c : Z) : R :=
  (- (IZR c / IZR n * log2 (IZR c / IZR n)))%R.

(** [c * log2 c] *)
Definition xlog2x (c : Z) : R := (IZR c * log2 (IZR c))%R.

Definition sumR (l : list R) : R := foldr Rplus 0%R l.

(** The entropy of the partition of the pool by feedback pattern. *)
Definition entropy_value (guess : Word) (pool : list Word) : R :=
  sumR (entropy_term (Z.of_nat (length pool))
          <$> dict_values (tally (pattern_of guess <$> pool))).

#[global] Instance Rlt_decision (x y : R) : Decision (x < y)%R := Rlt_dec x y.

Definition Rltb (x y : R) : bool := bool_decide (x < y)%R.

(** Exact arithmetic: floats are real numbers, nothing is rounded. *)
Definition real_arithmetic : FloatOps := {|
  float := R;
  float_zero := 0%R;
  float_neg_one := (-1)%R;
  float_bonus := 0.1%R;
  int_div a b := (IZR a / IZR b)%R;
  float_log2 := log2;
  float_mul := Rmult;
  float_sub := Rminus;
  float_add := Rplus;
  float_lt := Rltb
|}.

(** ** Vocabulary of the further properties *)

(** After [k] iterations of the second pass: a tile left [ABSENT] had no
    occurrence of its letter left in the counter. *)
Definition absent_inv (guess : Word) (k : nat) (st : fb_state) : Prop :=
  ∀ i x, i < k → guess !! i = Some x → st.1 !! i = Some ABSENT →
         (counter_get st.2 x ≤ 0)%Z.

(** What both passes keep of the tiles beyond the first [m] positions. *)
Definition padded (m n : nat) (st : fb_state) : Prop :=
  length st.1 = n ∧ ∀ j, m ≤ j → j < n → st.1 !! j = Some ABSENT.

(** [w] agrees, under the quick oracle, with the observation. *)
Definition quick_consistent (guess : Word) (feedback : FeedbackPattern)
    (w : Word) : Prop :=
  QuickTrajectories.generate_feedback guess w = Ok feedback.

#[global] Instance quick_consistent_dec guess feedback w :
  Decision (quick_consistent guess feedback w).
Proof. unfold quick_consistent. apply _. Defined.

(** [w] agrees with every observation of the history. *)
Definition quick_survives (history : list (Word * FeedbackPattern)) (w : Word)
  : Prop :=
  Forall (λ gf, quick_consistent gf.1 gf.2 w) history.

(** No guess of the history is longer than [w]. *)
Definition history_fits (history : list (Word * FeedbackPattern)) (w : Word)
  : Prop :=
  Forall (λ gf : Word * FeedbackPattern, length gf.1 ≤ length w) history.

(** The filter of [generate_optimal_trajectories.py], one observation after
    the other. *)
Definition filter_turn_by_turn (pool : list Word)
    (history : list (Word * FeedbackPattern)) : result (list Word) :=
  for_each history (λ gf p, apply_feedback_to_candidates p gf.1 gf.2) pool.

(** What holds of the local variables of [play_smart_game] while the loop
    runs, after [k] iterations. *)
Definition smart_playing (secret : Word) (all_words : list Word) (k : nat)
    (st : QuickTrajectories.smart_state) : Prop :=
  let cands := QuickTrajectories.s_candidates st in
  let gs := QuickTrajectories.s_guesses st in
  let fs := QuickTrajectories.s_feedbacks st in
  uniform (length secret) cands
  ∧ cands ≠ []
  ∧ cands ⊆ all_words
  ∧ QuickTrajectories.s_won st = false
  ∧ length gs = k
  ∧ Forall2 (λ g f, generate_feedback g secret = Ok f) gs fs
  ∧ uniform (length secret) gs
  ∧ (secret ∉ gs)
  ∧ (∀ g, g ∈ gs → g ∉ cands)
  ∧ gs ⊆ all_words
  ∧ NoDup gs
  ∧ length cands + k ≤ length all_words
  ∧ (secret ∈ all_words → secret ∈ cands).

(** What holds of them when the loop is left, after at most [m] iterations. *)
Definition smart_finished (secret : Word) (all_words : list Word) (m : nat)
    (st : QuickTrajectories.smart_state) : Prop :=
  let cands := QuickTrajectories.s_candidates st in
  let gs := QuickTrajectories.s_guesses st in
  let fs := QuickTrajectories.s_feedbacks st in
  let won := QuickTrajectories.s_won st in
  length gs ≤ m
  ∧ Forall2 (λ g f, generate_feedback g secret = Ok f) gs fs
  ∧ (won = true ↔ last gs = Some secret)
  ∧ (won = true ↔ secret ∈ gs)
  ∧ gs ⊆ all_words
  ∧ NoDup gs
  ∧ (won = false → length gs = m ∨ cands = [])
  ∧ length gs + (if won then 0 else length cands) ≤ length all_words
  ∧ (secret ∈ all_words → secret ∈ cands).

(** The state a winning iteration of [play_smart_game] leaves. *)
Definition smart_win (st : QuickTrajectories.smart_state) (guess : Word)
    (fb : FeedbackPattern) : QuickTrajectories.smart_state :=
  {| QuickTrajectories.s_candidates := QuickTrajectories.s_candidates st;
     QuickTrajectories.s_guesses := QuickTrajectories.s_guesses st ++ [guess];
     QuickTrajectories.s_feedbacks := QuickTrajectories.s_feedbacks st ++ [fb];
     QuickTrajectories.s_won := true |}.

(** The state a non-winning iteration of [play_smart_game] leaves. *)
Definition smart_miss (st : QuickTrajectories.smart_state) (guess : Word)
    (fb : FeedbackPattern) : QuickTrajectories.smart_state :=
  {| QuickTrajectories.s_candidates :=
       filter (quick_survives
                 (zip (QuickTrajectories.s_guesses st ++ [guess])
                      (QuickTrajectories.s_feedbacks st ++ [fb])))
         (QuickTrajectories.s_candidates st);
     QuickTrajectories.s_guesses := QuickTrajectories.s_guesses st ++ [guess];
     QuickTrajectories.s_feedbacks := QuickTrajectories.s_feedbacks st ++ [fb];
     QuickTrajectories.s_won := false |}.

(** What holds of the local variables of [play_optimal_game] while the loop
    runs, beyond [playing]: the record of the game so far. *)
Definition tracking (secret : Word) (all_words : list Word) (st : game_state)
  : Prop :=
  candidates st ⊆ all_words
  ∧ Forall2 (λ g f, generate_feedback g secret = Ok f)
      (guesses st) (feedbacks st)
  ∧ uniform (length secret) (guesses st)
  ∧ guesses st ⊆ all_words
  ∧ (length all_words ≤ 50 →
       length (candidates st) ≤ 50
       ∧ NoDup (guesses st)
       ∧ (∀ g, g ∈ guesses st → g ∉ candidates st)
       ∧ length (candidates st) + length (guesses st) ≤ length all_words).

(** The record of the game when the loop is left. *)
Definition tracked (secret : Word) (all_words : list Word) (st : game_state)
  : Prop :=
  Forall2 (λ g f, generate_feedback g secret = Ok f)
    (guesses st) (feedbacks st)
  ∧ uniform (length secret) (guesses st)
  ∧ guesses st ⊆ all_words
  ∧ (length all_words ≤ 50 →
       NoDup (guesses st)
       ∧ length (guesses st)
         + (if won st then 0 else length (candidates st))
         ≤ length all_words).

(** ** The encoders *)

(** The tiles of a history with their letters, in the order in which the
    encoders visit them. *)
Definition recorded (guesses : list Word) (feedbacks : list FeedbackPattern)
  : list (ascii * tile) :=
  concat ((λ gf : Word * FeedbackPattern, zip gf.1 gf.2)
            <$> zip guesses feedbacks).

(** The same with the position of each tile in its guess. *)
Definition placed (guesses : list Word) (feedbacks : list FeedbackPattern)
  : list (nat * (ascii * tile)) :=
  concat ((λ gf : Word * FeedbackPattern, enumerate (zip gf.1 gf.2))
            <$> zip guesses feedbacks).

(** The letters whose offset from ['a'] is an index of an axis of 26
    entries: code points 71 to 122. *)
Definition in_window (c : ascii) : Prop :=
  (-26 ≤ ord c - ord "a" < 26)%Z.

#[global] Instance in_window_dec c : Decision (in_window c).
Proof. unfold in_window. apply _. Defined.

(** The row of a letter of the window in an array of 26 rows. *)
Definition row_of (c : ascii) : nat :=
  Z.to_nat ((ord c - ord "a") `mod` 26).

(** The state of the last tile whose letter has row [r], [0] when there is
    none. *)
Definition last_state (r : nat) (tiles : list (ascii * tile)) : Z :=
  foldl (λ acc (lt : ascii * tile),
           if decide (row_of lt.1 = r) then UnifiedModel.state_map lt.2
           else acc) 0%Z tiles.

(** The row of [n] entries with [1] at column [k] and [0] elsewhere. *)
Definition one_hot (n : nat) (k : Z) : list Z :=
  (λ j : nat, if decide (Z.of_nat j = k) then 1%Z else 0%Z) <$> seq 0 n.

(** [letter_states] after the tiles [tiles]. *)
Definition letter_table (tiles : list (ascii * tile)) : list (list Z) :=
  (λ r, one_hot 4 (last_state r tiles)) <$> seq 0 26.

(** An array of [n] rows of [w] entries. *)
Definition shaped (n w : nat) (a : ndarray) : Prop :=
  ncols a = w ∧ length (rows a) = n ∧ Forall (λ row, length row = w) (rows a).

(** The rank of a tile state: 1 for absent, 2 for present, 3 for
    correct. *)
Definition rank (state : tile) : Z :=
  match state with
  | ABSENT => 1
  | PRESENT => 2
  | CORRECT => 3
  end.

(** The greatest rank among the tiles of letter [L], [0] when there is
    none. *)
Definition best_state (L : ascii) (tiles : list (ascii * tile)) : Z :=
  foldr (λ (lt : ascii * tile) acc,
           if decide (lt.1 = L) then Z.max (rank lt.2) acc else acc)
    0%Z tiles.

(** The dict [letter_states] of [encode_state] holds the best state of
    every letter seen in [tiles]. *)
Definition holds_best (tiles : list (ascii * tile))
    (letter_states : gmap ascii Z) : Prop :=
  ∀ L, letter_states !! L
       = if decide (best_state L tiles = 0%Z) then None
         else Some (best_state L tiles).

(** The tiles that [encode_state] can write into a table of [n] rows of 26
    entries: a present tile is not written at all. *)
Definition writable (n : nat) (pls : nat * (ascii * tile)) : Prop :=
  pls.2.2 = PRESENT ∨ (pls.1 < n ∧ in_window pls.2.1).

#[global] Instance writable_dec n pls : Decision (writable n pls).
Proof. unfold writable. apply _. Defined.

(** * Part III: lemmas *)

(** ** The error monad and the loop combinators *)

Lemma bind_Ok {A B} (m : result A) (f : A → result B) (b : B) :
  (m ≫= f) = Ok b ↔ ∃ a, m = Ok a ∧ f a = Ok b.
Proof.
  destruct m as [a|e]; simpl; split.
  - intros H. exists a. auto.
  - intros (a' & Ha & Hf). congruence.
  - discriminate.
  - intros (a' & Ha & _). discriminate.
Qed.

Lemma bind_Ok_l {A B} (a : A) (f : A → result B) : (Ok a ≫= f) = f a.
Proof. reflexivity. Qed.

Lemma bind_Raise_l {A B} (e : exn) (f : A → result B) :
  (Raise e ≫= f) = Raise e.
Proof. reflexivity. Qed.

Lemma for_each_app {A St} (l1 l2 : list A) (body : A → St → result St) st :
  for_each (l1 ++ l2) body st = (for_each l1 body st ≫= for_each l2 body).
Proof.
  revert st. induction l1 as [|x l1 IH]; intros st; simpl; [done|].
  destruct (body x st) as [st'|e]; simpl; [apply IH|done].
Qed.

Lemma for_each_ext {A St} (l : list A) (body1 body2 : A → St → result St) st :
  (∀ x st, x ∈ l → body1 x st = body2 x st) →
  for_each l body1 st = for_each l body2 st.
Proof.
  revert st. induction l as [|x l IH]; intros st Hext; simpl; [done|].
  rewrite Hext by left.
  destruct (body2 x st) as [st'|e]; simpl; [|done].
  apply IH. intros y st'' Hy. apply Hext. by right.
Qed.

(** Invariant rule: [P pre st] holds when the loop has consumed [pre]. *)
Lemma for_each_inv {A St} (P : list A → St → Prop) (l : list A)
    (body : A → St → result St) (st0 : St) :
  P [] st0 →
  (∀ pre x suf st, l = pre ++ x :: suf → P pre st →
     ∃ st', body x st = Ok st' ∧ P (pre ++ [x]) st') →
  ∃ st', for_each l body st0 = Ok st' ∧ P l st'.
Proof.
  intros H0 Hstep.
  assert (∀ suf pre st, l = pre ++ suf → P pre st →
            ∃ st', for_each suf body st = Ok st' ∧ P l st') as Haux.
  { induction suf as [|x suf IH]; intros pre st Hl HP; simpl.
    - exists st. rewrite app_nil_r in Hl. by subst.
    - destruct (Hstep pre x suf st Hl HP) as (st' & Hb & HP').
      rewrite Hb. simpl. apply (IH (pre ++ [x])); [|done].
      by rewrite <- app_assoc. }
  by apply (Haux l []).
Qed.

Lemma range_split n pre x suf :
  range n = pre ++ x :: suf → x = length pre ∧ x < n.
Proof.
  unfold range. intros Hr.
  assert (length (seq 0 n) = length pre + S (length suf)) as Hlen.
  { rewrite Hr, length_app. simpl. lia. }
  rewrite length_seq in Hlen.
  assert (seq 0 n !! length pre = Some x) as Hx.
  { rewrite Hr. by rewrite list_lookup_middle. }
  apply lookup_seq in Hx. lia.
Qed.

(** Invariant rule for [for i in range(n)]. *)
Lemma for_range_inv {St} (P : nat → St → Prop) (n : nat)
    (body : nat → St → result St) (st0 : St) :
  P 0 st0 →
  (∀ i st, i < n → P i st → ∃ st', body i st = Ok st' ∧ P (S i) st') →
  ∃ st', for_each (range n) body st0 = Ok st' ∧ P n st'.
Proof.
  intros H0 Hstep.
  destruct (for_each_inv (λ pre st, P (length pre) st) (range n) body st0)
    as (st' & Hrun & HP); [done| |].
  - intros pre x suf st Hsplit HP.
    apply range_split in Hsplit as [-> Hlt].
    destruct (Hstep _ _ Hlt HP) as (st' & Hb & HP').
    exists st'. split; [done|]. rewrite length_app. simpl.
    by replace (length pre + 1) with (S (length pre)) by lia.
  - exists st'. split; [done|]. unfold range in HP. by rewrite length_seq in HP.
Qed.

Lemma getitem_Ok {A} (l : list A) i x : l !! i = Some x → getitem l i = Ok x.
Proof. unfold getitem. by intros ->. Qed.

Lemma getitem_Raise {A} (l : list A) i :
  length l ≤ i → getitem l i = Raise IndexError.
Proof. unfold getitem. intros H. by rewrite lookup_ge_None_2. Qed.

Lemma setitem_Ok {A} (l : list A) i x :
  i < length l → setitem l i x = Ok (<[i:=x]> l).
Proof. unfold setitem. intros H. by rewrite decide_True. Qed.

(** ** [collections.Counter] *)

Lemma counter_get_insert (c : gmap ascii Z) k v L :
  counter_get (<[k:=v]> c) L = if decide (k = L) then v else counter_get c L.
Proof.
  unfold counter_get. rewrite lookup_insert.
  destruct (decide (k = L)); done.
Qed.

Lemma counter_get_dec (c : gmap ascii Z) k L :
  counter_get (counter_dec c k) L
  = (counter_get c L - if decide (k = L) then 1 else 0)%Z.
Proof.
  unfold counter_dec. rewrite counter_get_insert.
  destruct (decide (k = L)) as [->|]; lia.
Qed.

Lemma occurrences_cons L x s :
  occurrences L (x :: s) = (if decide (x = L) then 1 else 0) + occurrences L s.
Proof.
  unfold occurrences. rewrite filter_cons.
  destruct (decide (x = L)); done.
Qed.

Lemma counter_get_Counter (s : Word) L :
  counter_get (Counter s) L = Z.of_nat (occurrences L s).
Proof.
  unfold Counter.
  assert (∀ c : gmap ascii Z,
    counter_get (foldl (λ c ch, <[ch := (counter_get c ch + 1)%Z]> c) c s) L
    = (counter_get c L + Z.of_nat (occurrences L s))%Z) as Haux.
  { induction s as [|x s IH]; intros c; simpl.
    - unfold occurrences. simpl. lia.
    - rewrite IH, counter_get_insert, occurrences_cons.
      destruct (decide (x = L)) as [->|]; lia. }
  rewrite Haux. unfold counter_get. rewrite lookup_empty. simpl. lia.
Qed.

(** ** Counting marked tiles under an in-place update *)

Lemma marked_nil_r L g : marked L g [] = 0.
Proof. unfold marked. by destruct g. Qed.

Lemma marked_cons L x g t fb :
  marked L (x :: g) (t :: fb)
  = (if decide (x = L ∧ t ≠ ABSENT) then 1 else 0) + marked L g fb.
Proof.
  unfold marked. simpl. rewrite filter_cons. simpl.
  destruct (decide (x = L ∧ t ≠ ABSENT)); done.
Qed.

Lemma marked_insert L (g : Word) (fb : FeedbackPattern) i x t :
  g !! i = Some x → fb !! i = Some ABSENT → t ≠ ABSENT →
  marked L g (<[i:=t]> fb)
  = marked L g fb + (if decide (x = L) then 1 else 0).
Proof.
  revert fb i. induction g as [|y g IH]; intros fb i Hg Hfb Ht; [done|].
  destruct fb as [|u fb]; [done|].
  destruct i as [|i]; simpl in *.
  - injection Hg as ->. injection Hfb as ->.
    rewrite !marked_cons.
    destruct (decide (x = L)) as [->|Hne].
    + rewrite decide_True by done. rewrite decide_False by tauto. lia.
    + rewrite !decide_False by tauto. lia.
  - rewrite !marked_cons, (IH fb i Hg Hfb Ht). lia.
Qed.

Lemma tiles_split L g fb :
  tiles L CORRECT g fb + tiles L PRESENT g fb = marked L g fb.
Proof.
  unfold tiles, marked.
  induction (zip g fb) as [|[x t] l IH]; [done|].
  rewrite !filter_cons. simpl.
  destruct (decide (x = L)) as [->|Hne].
  - destruct t.
    + rewrite decide_True by done. rewrite decide_False by (intros [_ ?]; done).
      rewrite decide_True by done. simpl. lia.
    + rewrite decide_False by (intros [_ ?]; done). rewrite decide_True by done.
      rewrite decide_True by done. simpl. lia.
    + rewrite !decide_False by (intros [_ ?]; done). done.
  - rewrite !decide_False by tauto. done.
Qed.

Lemma marked_replicate_ABSENT L (g : Word) m :
  marked L g (replicate m ABSENT) = 0.
Proof.
  revert m. induction g as [|x g IH]; intros m; [done|].
  destruct m as [|m]; [done|]. simpl.
  rewrite marked_cons, IH. rewrite decide_False by tauto. done.
Qed.

(** ** The two passes of the oracle *)

Section oracle_invariants.
Variables guess secret : Word.
Hypothesis Hlen : length secret ≤ length guess.

Lemma first_pass_inv_init :
  first_pass_inv guess secret 0
    (replicate (length secret) ABSENT, Counter secret).
Proof.
  unfold first_pass_inv. simpl. split_and!.
  - apply length_replicate.
  - intros i Hi. lia.
  - intros i _ Hi. by apply lookup_replicate_2.
  - intros i Hi. apply lookup_replicate in Hi as [? _]. done.
  - intros L. rewrite marked_replicate_ABSENT, counter_get_Counter. lia.
  - intros L. rewrite counter_get_Counter, drop_0. lia.
Qed.

Lemma first_pass_step i st :
  i < (length secret) → first_pass_inv guess secret i st →
  ∃ st', first_pass guess secret i st = Ok st'
    ∧ first_pass_inv guess secret (S i) st'.
Proof.
  intros Hi (Hl & Hc & Ha & Hp & Hm & Hd). destruct st as [fb c]. simpl in *.
  destruct (lookup_lt_is_Some_2 guess i) as [x Hx]; [lia|].
  destruct (lookup_lt_is_Some_2 secret i) as [y Hy]; [done|].
  unfold first_pass. rewrite (getitem_Ok _ _ _ Hx), (getitem_Ok _ _ _ Hy).
  simpl. rewrite (drop_S _ _ _ Hy) in Hd.
  destruct (decide (x = y)) as [->|Hne].
  - rewrite setitem_Ok by lia. simpl. eexists. split; [done|].
    unfold first_pass_inv. simpl. split_and!.
    + by rewrite length_insert.
    + intros j Hj. destruct (decide (j = i)) as [->|Hji].
      * rewrite list_lookup_insert_eq by lia. split; congruence.
      * rewrite list_lookup_insert_ne by done. apply Hc. lia.
    + intros j Hj Hjn. rewrite list_lookup_insert_ne by lia. apply Ha; lia.
    + intros j. destruct (decide (j = i)) as [->|Hji].
      * rewrite list_lookup_insert_eq by lia. done.
      * rewrite list_lookup_insert_ne by done. apply Hp.
    + intros L. rewrite counter_get_dec.
      rewrite (marked_insert L guess fb i y CORRECT Hx); [|apply Ha; lia|done].
      specialize (Hm L). destruct (decide (y = L)); lia.
    + intros L. rewrite counter_get_dec. specialize (Hd L).
      rewrite occurrences_cons in Hd. destruct (decide (y = L)); lia.
  - eexists. split; [done|].
    unfold first_pass_inv. simpl. split_and!; auto.
    + intros j Hj. destruct (decide (j = i)) as [->|Hji].
      * rewrite Ha by lia. split; [done|congruence].
      * apply Hc. lia.
    + intros j Hj Hjn. apply Ha; lia.
    + intros L. specialize (Hd L). rewrite occurrences_cons in Hd. lia.
Qed.

Lemma first_to_second st : first_pass_inv guess secret (length secret) st →
  second_pass_inv guess secret 0 st.
Proof.
  intros (Hl & Hc & Ha & Hp & Hm & Hd).
  unfold second_pass_inv. split_and!; auto.
  intros L. specialize (Hd L). lia.
Qed.

Lemma second_pass_inv_weaken i st :
  second_pass_inv guess secret i st → second_pass_inv guess secret (S i) st.
Proof.
  intros (Hl & Hc & Hp & Hm & Hd).
  unfold second_pass_inv. split_and!; auto.
  intros j Hj. apply Hp. lia.
Qed.

Lemma second_pass_step i st :
  i < (length secret) → second_pass_inv guess secret i st →
  ∃ st', second_pass guess i st = Ok st'
    ∧ second_pass_inv guess secret (S i) st'.
Proof.
  intros Hi Hinv. pose proof Hinv as (Hl & Hc & Hp & Hm & Hd).
  destruct st as [fb c]. simpl in *.
  destruct (lookup_lt_is_Some_2 guess i) as [x Hx]; [lia|].
  destruct (lookup_lt_is_Some_2 fb i) as [f Hf]; [lia|].
  unfold second_pass. rewrite (getitem_Ok _ _ _ Hf). simpl.
  destruct (decide (f ≠ CORRECT)) as [Hnc|_];
    [|eexists; split; [done|by apply second_pass_inv_weaken]].
  rewrite (getitem_Ok _ _ _ Hx). simpl.
  destruct (counter_in x c);
    [|eexists; split; [done|by apply second_pass_inv_weaken]].
  destruct (decide (0 < counter_get c x)%Z) as [Hpos|_];
    [|eexists; split; [done|by apply second_pass_inv_weaken]].
  assert (f = ABSENT) as ->.
  { destruct f; [done| |done]. exfalso. by apply (Hp i). }
  rewrite setitem_Ok by lia. simpl. eexists. split; [done|].
  unfold second_pass_inv. simpl. split_and!.
  - by rewrite length_insert.
  - intros j Hj. destruct (decide (j = i)) as [->|Hji].
    + rewrite list_lookup_insert_eq by lia. rewrite <- (Hc i Hj), Hf.
      split; congruence.
    + rewrite list_lookup_insert_ne by done. by apply Hc.
  - intros j Hj. rewrite list_lookup_insert_ne by lia. apply Hp. lia.
  - intros L. rewrite counter_get_dec.
    rewrite (marked_insert L guess fb i x PRESENT Hx Hf); [|done].
    specialize (Hm L). destruct (decide (x = L)); lia.
  - intros L. rewrite counter_get_dec. specialize (Hd L).
    destruct (decide (x = L)) as [->|]; lia.
Qed.

(** The oracle returns whenever the guess is at least as long as the
    secret, and its result satisfies the invariant of the second pass. *)
Lemma generate_feedback_inv :
  ∃ fb c, generate_feedback guess secret = Ok fb
    ∧ second_pass_inv guess secret (length secret) (fb, c).
Proof.
  unfold generate_feedback.
  destruct (for_range_inv (first_pass_inv guess secret) (length secret)
              (first_pass guess secret)
              (replicate (length secret) ABSENT, Counter secret))
    as (st1 & -> & H1).
  { apply first_pass_inv_init. }
  { apply first_pass_step. }
  simpl.
  destruct (for_range_inv (second_pass_inv guess secret) (length secret)
              (second_pass guess) st1)
    as ([fb c] & -> & H2).
  { by apply first_to_second. }
  { apply second_pass_step. }
  simpl. by exists fb, c.
Qed.

End oracle_invariants.

(** ** What the oracle returns, and when it raises *)

Lemma generate_feedback_Ok (guess secret : Word) :
  length secret ≤ length guess →
  ∃ fb, generate_feedback guess secret = Ok fb
    ∧ length fb = length secret
    ∧ (∀ i, i < length secret →
         fb !! i = Some CORRECT ↔ guess !! i = secret !! i)
    ∧ (∀ L, marked L guess fb ≤ occurrences L secret).
Proof.
  intros Hlen.
  destruct (generate_feedback_inv guess secret Hlen)
    as (fb & c & Hrun & Hl & Hc & _ & Hm & Hd).
  exists fb. simpl in *. split_and!; [done..|].
  intros L. specialize (Hm L). specialize (Hd L). lia.
Qed.

Lemma first_pass_length guess secret i st st' :
  first_pass guess secret i st = Ok st' → length st'.1 = length st.1.
Proof.
  destruct st as [fb c]. unfold first_pass, getitem, setitem. simpl.
  destruct (guess !! i); simpl; [|done].
  destruct (secret !! i); simpl; [|done].
  destruct (decide (a = a0)); [|by intros [= <-]].
  destruct (decide (i < length fb)); simpl; [|done].
  intros [= <-]. simpl. by rewrite length_insert.
Qed.

Lemma first_pass_short_guess guess secret st :
  getitem guess (length guess) = Raise IndexError →
  first_pass guess secret (length guess) st = Raise IndexError.
Proof. destruct st as [fb c]. unfold first_pass. by intros ->. Qed.

Lemma generate_feedback_Raise (guess secret : Word) :
  length guess < length secret →
  generate_feedback guess secret = Raise IndexError.
Proof.
  intros Hlen. unfold generate_feedback.
  set (k := length guess). set (n := length secret).
  assert (range n = range k ++ k :: seq (S k) (n - S k)) as ->.
  { unfold range. replace n with (k + S (n - S k)) at 1 by (unfold k, n; lia).
    rewrite seq_app. simpl. done. }
  rewrite for_each_app.
  destruct (for_range_inv (λ _ st, length st.1 = n) k (first_pass guess secret)
              (replicate n ABSENT, Counter secret)) as (st1 & -> & _).
  { simpl. apply length_replicate. }
  { intros i [fb c] Hi Hl. simpl in Hl.
    destruct (lookup_lt_is_Some_2 guess i) as [x Hx]; [done|].
    destruct (lookup_lt_is_Some_2 secret i) as [y Hy]; [unfold k, n in *; lia|].
    assert (∃ st', first_pass guess secret i (fb, c) = Ok st') as [st' Hst'].
    { unfold first_pass.
      rewrite (getitem_Ok _ _ _ Hx), (getitem_Ok _ _ _ Hy). simpl.
      destruct (decide (x = y)); [|by eexists].
      rewrite setitem_Ok by (unfold k, n in *; lia). by eexists. }
    exists st'. split; [done|].
    rewrite (first_pass_length _ _ _ _ _ Hst'). done. }
  simpl. unfold k. rewrite first_pass_short_guess; [done|].
  by apply getitem_Raise.
Qed.

(** Letters of the guess beyond the length of the secret are never read. *)
Lemma generate_feedback_take (guess secret : Word) :
  generate_feedback (take (length secret) guess) secret
  = generate_feedback guess secret.
Proof.
  unfold generate_feedback.
  assert (∀ i, i ∈ range (length secret) →
            getitem (take (length secret) guess) i = getitem guess i) as Hget.
  { intros i Hi. unfold range in Hi. apply elem_of_seq in Hi.
    unfold getitem. rewrite lookup_take_lt by lia. done. }
  rewrite (for_each_ext _ (first_pass (take (length secret) guess) secret)
             (first_pass guess secret)).
  2:{ intros i [fb c] Hi. unfold first_pass. by rewrite Hget. }
  destruct (for_each _ (first_pass guess secret) _) as [st1|e]; simpl; [|done].
  rewrite (for_each_ext _ (second_pass (take (length secret) guess))
             (second_pass guess)); [done|].
  intros i [fb c] Hi. unfold second_pass. by rewrite Hget.
Qed.

(** ** Counting from a pointwise description *)

Lemma count_correct_pointwise (fb : FeedbackPattern) (guess secret : Word) :
  length fb = length secret → length secret ≤ length guess →
  (∀ i, i < length secret →
     fb !! i = Some CORRECT ↔ guess !! i = secret !! i) →
  count_tile CORRECT fb = matching_positions guess secret.
Proof.
  unfold count_tile, matching_positions.
  revert guess secret. induction fb as [|t fb IH]; intros guess secret Hl Hg Hp.
  - destruct secret; [|done]. by destruct guess.
  - destruct secret as [|y secret]; [done|].
    destruct guess as [|x guess]; [simpl in Hg; lia|].
    simpl in *. rewrite !filter_cons. simpl.
    assert (length (filter (λ x, x = CORRECT) fb)
            = length (filter (λ p : ascii * ascii, p.1 = p.2) (zip guess secret)))
      as Hrec.
    { apply IH; [lia|lia|]. intros i Hi. apply (Hp (S i)). lia. }
    pose proof (Hp 0 ltac:(lia)) as H0. simpl in H0.
    destruct (decide (t = CORRECT)) as [->|Hne].
    + rewrite decide_True; [simpl; by rewrite Hrec|].
      assert (Some x = Some y) as [= ->] by by apply H0. done.
    + rewrite decide_False; [done|].
      intros ->. apply Hne.
      assert (Some t = Some CORRECT) as [= ->] by by apply H0.
      done.
Qed.

(** ** The two oracles have the same loop bodies *)

Lemma quick_second_pass guess i st :
  QuickTrajectories.second_pass guess i st = second_pass guess i st.
Proof.
  destruct st as [fb c]. unfold QuickTrajectories.second_pass, second_pass.
  destruct (getitem fb i) as [f|e]; simpl; [|done].
  destruct (decide (f ≠ CORRECT)); [|done].
  destruct (getitem guess i) as [g|e]; simpl; [|done].
  destruct (counter_in g c); simpl; [|done].
  destruct (decide (0 < counter_get c g)%Z).
  - by rewrite bool_decide_eq_true_2.
  - by rewrite bool_decide_eq_false_2.
Qed.

Lemma quick_generate_feedback (guess secret : Word) :
  length guess = length secret →
  QuickTrajectories.generate_feedback guess secret
  = generate_feedback guess secret.
Proof.
  intros Hlen. unfold QuickTrajectories.generate_feedback, generate_feedback.
  rewrite Hlen.
  change (QuickTrajectories.first_pass guess secret)
    with (first_pass guess secret).
  destruct (for_each _ (first_pass guess secret) _) as [st1|e]; simpl; [|done].
  by rewrite (for_each_ext _ (QuickTrajectories.second_pass guess)
                (second_pass guess)) by (intros; apply quick_second_pass).
Qed.

(** ** The candidate filter as a list filter *)

Lemma fits_cons guess w pool :
  fits guess (w :: pool) ↔ length w ≤ length guess ∧ fits guess pool.
Proof.
  unfold fits. split.
  - intros H. by inversion H.
  - intros [Hw Hp]. by constructor.
Qed.

Lemma keep_if_consistent_fits guess feedback (w : Word) acc :
  length w ≤ length guess →
  keep_if_consistent guess feedback w acc
  = Ok (if decide (consistent guess feedback w) then acc ++ [w] else acc).
Proof.
  intros Hw. unfold keep_if_consistent.
  destruct (generate_feedback_Ok guess w Hw) as (fb & Hfb & _).
  rewrite Hfb. cbn.
  destruct (decide (fb = feedback)) as [->|Hne].
  - by rewrite decide_True.
  - rewrite decide_False; [done|]. unfold consistent. congruence.
Qed.

Lemma keep_if_consistent_long guess feedback (w : Word) acc :
  length guess < length w →
  keep_if_consistent guess feedback w acc = Raise IndexError.
Proof.
  intros Hw. unfold keep_if_consistent.
  by rewrite generate_feedback_Raise.
Qed.

Lemma keep_loop (pool : list Word) guess feedback acc :
  for_each pool (keep_if_consistent guess feedback) acc
  = if decide (fits guess pool)
    then Ok (acc ++ filter (consistent guess feedback) pool)
    else Raise IndexError.
Proof.
  revert acc. induction pool as [|w pool IH]; intros acc.
  - rewrite decide_True by constructor. cbn. by rewrite app_nil_r.
  - cbn [for_each].
    destruct (decide (length w ≤ length guess)) as [Hw|Hw].
    + rewrite keep_if_consistent_fits by done.
      rewrite bind_Ok_l, IH, filter_cons.
      destruct (decide (fits guess pool)) as [Hp|Hp].
      * rewrite (decide_True (P := fits guess (w :: pool)))
          by by apply fits_cons.
        destruct (decide (consistent guess feedback w)); [|done].
        by rewrite <- app_assoc.
      * rewrite (decide_False (P := fits guess (w :: pool)))
          by (rewrite fits_cons; tauto).
        done.
    + rewrite keep_if_consistent_long by lia. rewrite bind_Raise_l.
      rewrite decide_False; [done|]. rewrite fits_cons. tauto.
Qed.

Lemma apply_feedback_to_candidates_eq (pool : list Word) guess feedback :
  apply_feedback_to_candidates pool guess feedback
  = if decide (fits guess pool)
    then Ok (filter (consistent guess feedback) pool)
    else Raise IndexError.
Proof. unfold apply_feedback_to_candidates. by rewrite keep_loop. Qed.

Lemma fits_filter guess (P : Word → Prop) `{∀ w, Decision (P w)} pool :
  fits guess pool → fits guess (filter P pool).
Proof.
  unfold fits. rewrite !Forall_forall. intros Hp w Hw.
  apply Hp. by apply list_elem_of_filter in Hw as [_ ?].
Qed.

Lemma filter_twice {A} (P : A → Prop) `{∀ x, Decision (P x)} (l : list A) :
  filter P (filter P l) = filter P l.
Proof.
  induction l as [|x l IH]; [done|].
  rewrite filter_cons. destruct (decide (P x)) as [Hx|Hx]; [|done].
  rewrite filter_cons, decide_True by done. by rewrite IH.
Qed.

Lemma fits_elem_of guess pool (w : Word) :
  fits guess pool → w ∈ pool → length w ≤ length guess.
Proof. unfold fits. rewrite Forall_forall. auto. Qed.

Lemma secret_is_consistent guess secret fb :
  generate_feedback guess secret = Ok fb → consistent guess fb secret.
Proof. done. Qed.

(** ** Pools of words of one length *)

Lemma uniform_fits n (w : Word) pool :
  length w = n → uniform n pool → fits w pool.
Proof.
  unfold uniform, fits. rewrite !Forall_forall.
  intros Hw Hu x Hx. rewrite (Hu x Hx). lia.
Qed.

Lemma uniform_filter n (P : Word → Prop) `{∀ w, Decision (P w)} pool :
  uniform n pool → uniform n (filter P pool).
Proof.
  unfold uniform. rewrite !Forall_forall. intros Hp w Hw.
  apply Hp. by apply list_elem_of_filter in Hw as [_ ?].
Qed.

Lemma uniform_elem_of n pool (w : Word) :
  uniform n pool → w ∈ pool → length w = n.
Proof. unfold uniform. rewrite Forall_forall. auto. Qed.

(** ** Insertion-ordered dictionaries *)

Section dict_lemmas.
Context {K V : Type} `{EqDecision K}.
Implicit Types (d : list (K * V)) (k : K) (v : V).

Lemma dict_get_set d k v k' :
  dict_get (dict_set d k v) k'
  = if decide (k = k') then Some v else dict_get d k'.
Proof.
  induction d as [|[k0 v0] d IH]; simpl.
  - destruct (decide (k = k')); done.
  - destruct (decide (k0 = k)) as [->|Hne]; simpl.
    + destruct (decide (k = k')); done.
    + destruct (decide (k0 = k')) as [->|Hne'].
      * by rewrite decide_False by done.
      * apply IH.
Qed.

Lemma dict_get_None d k : dict_get d k = None ↔ k ∉ d.*1.
Proof.
  induction d as [|[k0 v0] d IH]; simpl.
  - split; [intros _; apply not_elem_of_nil|done].
  - rewrite not_elem_of_cons.
    destruct (decide (k0 = k)) as [->|Hne]; [split; [done|tauto]|].
    rewrite IH. split; [by split|tauto].
Qed.

Lemma dict_set_keys d k v :
  (dict_set d k v).*1 = if decide (k ∈ d.*1) then d.*1 else d.*1 ++ [k].
Proof.
  induction d as [|[k0 v0] d IH].
  - rewrite decide_False by apply not_elem_of_nil. done.
  - cbn [dict_set]. rewrite (fmap_cons fst (k0, v0) d). cbn [fst].
    destruct (decide (k0 = k)) as [->|Hne].
    + rewrite decide_True by left. by rewrite fmap_cons.
    + rewrite fmap_cons, IH. cbn [fst].
      destruct (decide (k ∈ d.*1)) as [Hin|Hin].
      * rewrite decide_True by by right. done.
      * rewrite decide_False; [done|]. rewrite not_elem_of_cons. split; auto.
Qed.

Lemma dict_get_elem_of d k v :
  NoDup d.*1 → (k, v) ∈ d ↔ dict_get d k = Some v.
Proof.
  induction d as [|[k0 v0] d IH]; simpl; intros Hnd.
  - split; [by intros ?%elem_of_nil|done].
  - apply NoDup_cons in Hnd as [Hk0 Hnd]. rewrite elem_of_cons.
    destruct (decide (k0 = k)) as [->|Hne].
    + split.
      * intros [[= ->]|Hin]; [done|].
        exfalso. apply Hk0. apply list_elem_of_fmap. by exists (k, v).
      * intros [= ->]. by left.
    + rewrite <- IH by done. split; [|tauto].
      intros [[= -> ->]|Hin]; done.
Qed.

Lemma dict_set_NoDup d k v : NoDup d.*1 → NoDup (dict_set d k v).*1.
Proof.
  intros Hnd. rewrite dict_set_keys.
  destruct (decide (k ∈ d.*1)) as [Hin|Hin]; [done|].
  apply NoDup_app. split_and!; [done| |apply NoDup_singleton].
  intros x Hx ->%list_elem_of_singleton. done.
Qed.

Lemma dict_get_Some_elem_of d k v : dict_get d k = Some v → (k, v) ∈ d.
Proof.
  induction d as [|[k0 v0] d IH]; [done|]. cbn.
  destruct (decide (k0 = k)) as [->|Hne].
  - intros [= ->]. left.
  - intros Hd. right. by apply IH.
Qed.

End dict_lemmas.

Lemma sumZ_cons x l : sumZ (x :: l) = (x + sumZ l)%Z.
Proof. reflexivity. Qed.

Lemma sumZ_dict_set {K} `{EqDecision K} (d : list (K * Z)) k v :
  sumZ (dict_values (dict_set d k v))
  = (sumZ (dict_values d) - default 0 (dict_get d k) + v)%Z.
Proof.
  unfold dict_values. induction d as [|[k0 v0] d IH]; [cbn; lia|].
  cbn [dict_set dict_get].
  destruct (decide (k0 = k)) as [->|Hne];
    rewrite !fmap_cons, !sumZ_cons; [cbn; lia|].
  rewrite IH. cbn [snd]. lia.
Qed.

(** ** Tallying the patterns of a pool *)

Lemma count_app {A} `{EqDecision A} (k : A) l1 l2 :
  count k (l1 ++ l2) = count k l1 + count k l2.
Proof. unfold count. by rewrite filter_app, length_app. Qed.

Lemma count_cons {A} `{EqDecision A} (k x : A) l :
  count k (x :: l) = (if decide (x = k) then 1 else 0) + count k l.
Proof. unfold count. rewrite filter_cons. destruct (decide (x = k)); done. Qed.

Lemma count_pos {A} `{EqDecision A} (k : A) l : 0 < count k l ↔ k ∈ l.
Proof.
  induction l as [|x l IH]; [split; [cbn; lia|by intros ?%elem_of_nil]|].
  rewrite count_cons, elem_of_cons.
  destruct (decide (x = k)) as [->|Hne]; [split; [auto|lia]|].
  rewrite <- IH. split; [intros; right; lia|intros [->|?]; [done|lia]].
Qed.

Lemma count_le_length {A} `{EqDecision A} (k : A) l : count k l ≤ length l.
Proof. unfold count. apply length_filter. Qed.

Lemma count_two {A} `{EqDecision A} (x y : A) l :
  x ≠ y → count x l + count y l ≤ length l.
Proof.
  intros Hne. induction l as [|z l IH]; [done|].
  rewrite !count_cons. simpl.
  destruct (decide (z = x)) as [Hx|Hx]; destruct (decide (z = y)) as [Hy|Hy];
    [congruence|lia..].
Qed.

Lemma NoDup_count {A} `{EqDecision A} (l : list A) :
  NoDup l ↔ ∀ k, count k l ≤ 1.
Proof.
  induction l as [|x l IH].
  - split; [intros _ k; cbn; lia|intros _; apply NoDup_nil_2].
  - rewrite NoDup_cons, IH. split.
    + intros [Hx Hl] k. rewrite count_cons.
      destruct (decide (x = k)) as [->|]; [|apply Hl].
      assert (¬ 0 < count k l) by by rewrite count_pos. lia.
    + intros Hc. split.
      * intros Hx%count_pos. specialize (Hc x). rewrite count_cons in Hc.
        rewrite decide_True in Hc by done. lia.
      * intros k. specialize (Hc k). rewrite count_cons in Hc. lia.
Qed.

Lemma count_all_equal {A} `{EqDecision A} (k : A) l :
  (∀ x, x ∈ l → x = k) → count k l = length l.
Proof.
  intros Hall. induction l as [|x l IH]; [done|].
  rewrite count_cons, decide_True by (apply Hall; left). simpl.
  rewrite IH; [done|]. intros y Hy. apply Hall. by right.
Qed.

Lemma tallied_snoc pats d p :
  tallied pats d →
  tallied (pats ++ [p]) (dict_set d p (default 0 (dict_get d p) + 1)%Z).
Proof.
  intros (Hnd & Hget & Hsum). split_and!.
  - by apply dict_set_NoDup.
  - intros k. rewrite dict_get_set, count_app, count_cons. cbn.
    destruct (decide (p = k)) as [->|Hne].
    + rewrite decide_False by lia. rewrite Hget.
      destruct (decide (count k pats = 0)) as [->|?]; cbn; f_equal; lia.
    + rewrite Hget. replace (count k pats + 0) with (count k pats) by lia. done.
  - rewrite sumZ_dict_set, Hsum, length_app. cbn. lia.
Qed.

Lemma tallied_tally pats : tallied pats (tally pats).
Proof.
  unfold tally.
  assert (∀ pre d, tallied pre d →
            tallied (pre ++ pats)
              (foldl (λ d p, dict_set d p (default 0 (dict_get d p) + 1)%Z)
                 d pats)) as Haux.
  { induction pats as [|p pats IH]; intros pre d Hd; simpl.
    - by rewrite app_nil_r.
    - replace (pre ++ p :: pats) with ((pre ++ [p]) ++ pats)
        by by rewrite <- app_assoc.
      apply IH. by apply tallied_snoc. }
  apply (Haux [] []). split_and!; [apply NoDup_nil_2|done|done].
Qed.

Lemma tallied_entry pats d k c :
  tallied pats d → (k, c) ∈ d → c = Z.of_nat (count k pats) ∧ k ∈ pats.
Proof.
  intros (Hnd & Hget & _) Hin. apply dict_get_elem_of in Hin; [|done].
  rewrite Hget in Hin.
  destruct (decide (count k pats = 0)) as [|Hne]; [done|].
  injection Hin as <-. split; [done|]. apply count_pos. lia.
Qed.

Lemma tallied_covers pats d k :
  tallied pats d → k ∈ pats → (k, Z.of_nat (count k pats)) ∈ d.
Proof.
  intros (Hnd & Hget & _) Hin. apply dict_get_elem_of; [done|].
  rewrite Hget. apply count_pos in Hin. rewrite decide_False by lia. done.
Qed.

Lemma tally_values_pos pats c :
  c ∈ dict_values (tally pats) →
  ∃ k, k ∈ pats ∧ c = Z.of_nat (count k pats)
    ∧ (0 < c ≤ Z.of_nat (length pats))%Z.
Proof.
  unfold dict_values. intros ([k c'] & -> & Hin)%list_elem_of_fmap.
  destruct (tallied_entry pats _ k c' (tallied_tally pats) Hin) as [-> Hk].
  exists k. split_and!; [done|done| |].
  - apply count_pos in Hk. cbn. lia.
  - pose proof (count_le_length k pats). cbn. lia.
Qed.

Lemma generate_feedback_pattern_of guess (w : Word) :
  length w ≤ length guess →
  generate_feedback guess w = Ok (pattern_of guess w).
Proof.
  intros Hw. unfold pattern_of.
  by destruct (generate_feedback_Ok guess w Hw) as (fb & -> & _).
Qed.

Lemma count_pattern_fits guess (w : Word) d :
  length w ≤ length guess →
  count_pattern guess w d
  = Ok (dict_set d (pattern_of guess w)
          (default 0 (dict_get d (pattern_of guess w)) + 1)%Z).
Proof.
  intros Hw. unfold count_pattern.
  by rewrite generate_feedback_pattern_of by done.
Qed.

Lemma count_loop guess (pool : list Word) d :
  fits guess pool →
  for_each pool (count_pattern guess) d
  = Ok (foldl (λ d p, dict_set d p (default 0 (dict_get d p) + 1)%Z) d
          (pattern_of guess <$> pool)).
Proof.
  revert d. induction pool as [|w pool IH]; intros d Hfit; [done|].
  apply fits_cons in Hfit as [Hw Hfit].
  cbn [for_each]. rewrite count_pattern_fits by done.
  rewrite bind_Ok_l, IH by done. by rewrite fmap_cons.
Qed.

(** ** Real-number facts behind the entropy *)

Section reals.
Local Open Scope R_scope.

Lemma ln2_pos : 0 < ln 2.
Proof. pose proof ln_lt_2. lra. Qed.

Lemma log2_1 : log2 1 = 0.
Proof. unfold log2. rewrite ln_1. lra. Qed.

Lemma log2_neg x : 0 < x → x < 1 → log2 x < 0.
Proof.
  intros H0 H1. unfold log2.
  pose proof (ln_increasing x 1 H0 H1) as Hln. rewrite ln_1 in Hln.
  pose proof ln2_pos.
  apply Rmult_lt_reg_r with (ln 2); [done|].
  unfold Rdiv. rewrite Rmult_assoc, Rinv_l by lra. lra.
Qed.

Lemma log2_pos x : 1 < x → 0 < log2 x.
Proof.
  intros H1. unfold log2.
  pose proof (ln_increasing 1 x ltac:(lra) H1) as Hln. rewrite ln_1 in Hln.
  apply Rdiv_lt_0_compat; [done|apply ln2_pos].
Qed.

Lemma log2_div x y : 0 < x → 0 < y → log2 (x / y) = log2 x - log2 y.
Proof.
  intros Hx Hy. unfold log2. change (x / y) with (x * / y).
  rewrite ln_mult by (try apply Rinv_0_lt_compat; done).
  rewrite ln_Rinv by done. pose proof ln2_pos. field. lra.
Qed.

Lemma ratio_pos (n c : Z) : (0 < c)%Z → (0 < n)%Z → 0 < IZR c / IZR n.
Proof. intros Hc Hn. apply Rdiv_lt_0_compat; by apply (IZR_lt 0). Qed.

Lemma ratio_lt_1 (n c : Z) : (0 < c)%Z → (c < n)%Z → IZR c / IZR n < 1.
Proof.
  intros Hc Hn.
  assert (0 < IZR n) by (apply (IZR_lt 0); lia).
  apply Rmult_lt_reg_r with (IZR n); [done|].
  unfold Rdiv. rewrite Rmult_assoc, Rinv_l by lra.
  apply IZR_lt in Hn. lra.
Qed.

Lemma entropy_term_full (n : Z) : (0 < n)%Z → entropy_term n n = 0.
Proof.
  intros Hn. unfold entropy_term.
  assert (0 < IZR n) by by apply (IZR_lt 0).
  replace (IZR n / IZR n) with 1 by (field; lra).
  rewrite log2_1. lra.
Qed.

Lemma entropy_term_pos (n c : Z) :
  (0 < c)%Z → (c < n)%Z → 0 < entropy_term n c.
Proof.
  intros Hc Hn. unfold entropy_term.
  pose proof (ratio_pos n c Hc ltac:(lia)) as Hp.
  pose proof (log2_neg _ Hp (ratio_lt_1 n c Hc Hn)) as Hl.
  assert (IZR c / IZR n * log2 (IZR c / IZR n) < 0); [|lra].
  rewrite <- (Rmult_0_r (IZR c / IZR n)).
  by apply Rmult_lt_compat_l.
Qed.

Lemma entropy_term_nonneg (n c : Z) :
  (0 < c)%Z → (c ≤ n)%Z → 0 <= entropy_term n c.
Proof.
  intros Hc Hn. destruct (decide (c = n)) as [->|Hne].
  - rewrite entropy_term_full by done. lra.
  - apply Rlt_le, entropy_term_pos; lia.
Qed.

Lemma entropy_term_zero (n c : Z) :
  (0 < c)%Z → (c ≤ n)%Z → entropy_term n c = 0 → c = n.
Proof.
  intros Hc Hn H0. destruct (decide (c = n)) as [|Hne]; [done|].
  pose proof (entropy_term_pos n c Hc ltac:(lia)). lra.
Qed.

Lemma entropy_term_split (n c : Z) :
  (0 < c)%Z → (0 < n)%Z →
  entropy_term n c = IZR c / IZR n * log2 (IZR n) - xlog2x c / IZR n.
Proof.
  intros Hc Hn. unfold entropy_term, xlog2x.
  assert (0 < IZR n) by by apply (IZR_lt 0).
  assert (0 < IZR c) by by apply (IZR_lt 0).
  rewrite log2_div by done. field. lra.
Qed.

Lemma xlog2x_1 : xlog2x 1 = 0.
Proof. unfold xlog2x. rewrite log2_1. lra. Qed.

Lemma xlog2x_pos (c : Z) : (1 < c)%Z → 0 < xlog2x c.
Proof.
  intros Hc. unfold xlog2x. apply IZR_lt in Hc.
  apply Rmult_lt_0_compat; [lra|]. by apply log2_pos.
Qed.

Lemma xlog2x_nonneg (c : Z) : (0 < c)%Z → 0 <= xlog2x c.
Proof.
  intros Hc. destruct (decide (c = 1%Z)) as [->|Hne].
  - rewrite xlog2x_1. lra.
  - apply Rlt_le, xlog2x_pos. lia.
Qed.

Lemma xlog2x_zero (c : Z) : (0 < c)%Z → xlog2x c = 0 → c = 1%Z.
Proof.
  intros Hc H0. destruct (decide (c = 1%Z)) as [|Hne]; [done|].
  pose proof (xlog2x_pos c ltac:(lia)). lra.
Qed.

Lemma sumR_cons x l : sumR (x :: l) = x + sumR l.
Proof. reflexivity. Qed.

Lemma sumR_nonneg {A} (f : A → R) (l : list A) :
  (∀ x, x ∈ l → 0 <= f x) → 0 <= sumR (f <$> l).
Proof.
  induction l as [|x l IH]; intros Hf; [cbn; lra|].
  rewrite fmap_cons, sumR_cons.
  pose proof (Hf x ltac:(left)).
  pose proof (IH (λ y Hy, Hf y ltac:(by right))). lra.
Qed.

Lemma sumR_zero {A} (f : A → R) (l : list A) :
  (∀ x, x ∈ l → 0 <= f x) → sumR (f <$> l) = 0 → ∀ x, x ∈ l → f x = 0.
Proof.
  induction l as [|x l IH]; intros Hf Hsum y Hy; [by apply elem_of_nil in Hy|].
  rewrite fmap_cons, sumR_cons in Hsum.
  pose proof (Hf x ltac:(left)).
  pose proof (sumR_nonneg f l (λ y Hy, Hf y ltac:(by right))).
  apply elem_of_cons in Hy as [->|Hy]; [lra|].
  apply IH; [|lra|done]. intros z Hz. apply Hf. by right.
Qed.

Lemma sumR_all_zero {A} (f : A → R) (l : list A) :
  (∀ x, x ∈ l → f x = 0) → sumR (f <$> l) = 0.
Proof.
  induction l as [|x l IH]; intros Hf; [done|].
  rewrite fmap_cons, sumR_cons, (Hf x) by left.
  rewrite IH; [lra|]. intros y Hy. apply Hf. by right.
Qed.

Lemma sumR_entropy_split (n : Z) (vals : list Z) :
  (0 < n)%Z → (∀ c, c ∈ vals → (0 < c)%Z) →
  sumR (entropy_term n <$> vals)
  = IZR (sumZ vals) / IZR n * log2 (IZR n) - sumR (xlog2x <$> vals) / IZR n.
Proof.
  intros Hn. assert (0 < IZR n) by by apply (IZR_lt 0).
  induction vals as [|c vals IH]; intros Hpos.
  - cbn. field. lra.
  - rewrite !fmap_cons, !sumR_cons, sumZ_cons, plus_IZR.
    rewrite IH by (intros; apply Hpos; by right).
    rewrite entropy_term_split; [|apply Hpos; left|done].
    field. lra.
Qed.

Lemma ratio_le_1 (a b : Z) : (0 < a ≤ b)%Z → IZR a / IZR b <= 1.
Proof.
  intros [Ha Hb]. destruct (decide (a = b)) as [->|Hne].
  - assert (0 < IZR b) by by apply (IZR_lt 0).
    replace (IZR b / IZR b) with 1 by (field; lra). lra.
  - apply Rlt_le, ratio_lt_1; lia.
Qed.

Lemma log2_nonpos x : 0 < x → x <= 1 → log2 x <= 0.
Proof.
  intros H0 [H1| ->].
  - apply Rlt_le. by apply log2_neg.
  - rewrite log2_1. lra.
Qed.

End reals.

(** ** The real numbers as a model of the floats *)

Section real_model.
Local Open Scope R_scope.

Lemma Rltb_true x y : Rltb x y = true ↔ x < y.
Proof. unfold Rltb. apply bool_decide_eq_true. Qed.

Lemma Rltb_false x y : Rltb x y = false ↔ y <= x.
Proof.
  unfold Rltb. rewrite bool_decide_eq_false. split; [apply Rnot_lt_le|].
  intros H1 H2. lra.
Qed.

Lemma Rltb_asym x y : Rltb x y = true → Rltb y x = false.
Proof. rewrite Rltb_true, Rltb_false. lra. Qed.

Lemma Rltb_cotrans x y z : Rltb x y = true → Rltb x z = true ∨ Rltb z y = true.
Proof.
  rewrite !Rltb_true. intros Hxy.
  destruct (Rlt_dec x z) as [?|Hn]; [by left|right]. lra.
Qed.

Lemma Rltb_neg_one : Rltb (-1) 0 = true.
Proof. apply Rltb_true. lra. Qed.

Lemma Rltb_bonus : Rltb 0.1 0 = false.
Proof. apply Rltb_false. lra. Qed.

Lemma Rltb_ratio (a b : Z) :
  (0 < a)%Z → (0 < b)%Z → Rltb 0 (IZR a / IZR b) = true.
Proof. intros Ha Hb. apply Rltb_true. by apply ratio_pos. Qed.

Lemma Rltb_log2_ratio (a b : Z) :
  (0 < a ≤ b)%Z → Rltb 0 (log2 (IZR a / IZR b)) = false.
Proof.
  intros Hab. apply Rltb_false.
  apply log2_nonpos; [apply ratio_pos; lia|by apply ratio_le_1].
Qed.

Lemma Rltb_mul x y :
  Rltb 0 x = true → Rltb 0 y = false → Rltb 0 (x * y) = false.
Proof.
  rewrite Rltb_true, !Rltb_false. intros Hx Hy.
  rewrite <- (Rmult_0_r x). apply Rmult_le_compat_l; lra.
Qed.

Lemma Rltb_sub x y :
  Rltb x 0 = false → Rltb 0 y = false → Rltb (x - y) 0 = false.
Proof. rewrite !Rltb_false. lra. Qed.

Lemma Rltb_add x y :
  Rltb x 0 = false → Rltb y 0 = false → Rltb (x + y) 0 = false.
Proof. rewrite !Rltb_false. lra. Qed.

End real_model.

(** The real numbers satisfy the laws of the floats. *)
Lemma real_arithmetic_laws : FloatLaws real_arithmetic.
Proof.
  split; cbn [float_lt float_zero float_neg_one float_bonus int_div
              float_log2 float_mul float_sub float_add real_arithmetic].
  - apply Rltb_asym.
  - apply Rltb_cotrans.
  - apply Rltb_neg_one.
  - apply Rltb_bonus.
  - apply Rltb_ratio.
  - apply Rltb_log2_ratio.
  - apply Rltb_mul.
  - apply Rltb_sub.
  - apply Rltb_add.
Qed.

(** ** The entropy evaluator and the scores, for any float model *)

Section float_lemmas.
Context {FM : FloatOps} {FL : FloatLaws FM}.

Lemma float_lt_irrefl x : float_lt x x = false.
Proof.
  destruct (float_lt x x) eqn:E; [|done].
  by rewrite (float_lt_asym _ _ E) in E.
Qed.

Lemma nonneg_zero : nonneg float_zero.
Proof. apply float_lt_irrefl. Qed.

Lemma nonneg_above_neg_one x :
  nonneg x → float_lt float_neg_one x = true.
Proof.
  unfold nonneg. intros Hx.
  destruct (float_lt_cotrans _ _ x neg_one_lt_zero) as [?|Hlt]; [done|].
  congruence.
Qed.

Lemma add_term_Ok (n c : Z) (e : float) :
  (0 < c ≤ n)%Z → nonneg e →
  ∃ e', add_term n c e = Ok e' ∧ nonneg e'.
Proof.
  intros Hc He. unfold add_term, truediv, math_log2.
  rewrite decide_True by lia. rewrite decide_False by lia.
  rewrite bind_Ok_l, int_div_pos by lia. rewrite bind_Ok_l.
  eexists. split; [done|]. apply float_sub_nonneg; [done|].
  apply float_mul_pos_nonpos; [apply int_div_pos; lia|].
  by apply log2_ratio_nonpos.
Qed.

Lemma entropy_loop (n : Z) (vals : list Z) (e : float) :
  (∀ c, c ∈ vals → (0 < c ≤ n)%Z) → nonneg e →
  ∃ e', for_each vals (add_term n) e = Ok e' ∧ nonneg e'.
Proof.
  revert e. induction vals as [|c vals IH]; intros e Hvals He.
  - by exists e.
  - cbn [for_each].
    destruct (add_term_Ok n c e) as (e1 & -> & He1); [apply Hvals; left|done|].
    rewrite bind_Ok_l. apply IH; [|done]. intros c' Hc'. apply Hvals. by right.
Qed.

(** The evaluator returns, with a value that is not negative, whenever no
    word of the pool is longer than the guess. *)
Lemma calculate_entropy_Ok guess (pool : list Word) :
  fits guess pool →
  ∃ e, calculate_entropy guess pool = Ok e ∧ nonneg e.
Proof.
  intros Hfit. unfold calculate_entropy.
  destruct pool as [|w pool].
  { exists float_zero. split; [done|apply nonneg_zero]. }
  rewrite count_loop by done. rewrite bind_Ok_l.
  fold (tally (pattern_of guess <$> w :: pool)).
  apply entropy_loop; [|apply nonneg_zero].
  intros c (k & _ & _ & Hc)%tally_values_pos.
  by rewrite length_fmap in Hc.
Qed.

Lemma score_Ok pool (w : Word) :
  fits w pool →
  score pool w = Ok (score_value pool w)
  ∧ float_lt float_neg_one (score_value pool w) = true.
Proof.
  intros Hfit. unfold score_value, score.
  destruct (calculate_entropy_Ok w pool Hfit) as (e & -> & He).
  rewrite bind_Ok_l. split; [done|].
  apply nonneg_above_neg_one, float_add_nonneg; [done|].
  destruct (bool_decide (w ∈ pool)); [apply bonus_nonneg|apply nonneg_zero].
Qed.

(** ** The guess selector *)

Lemma common_starters_shape n (starters : list Word) :
  dict_get common_starters n = Some starters →
  length starters = 3 ∧ uniform n starters.
Proof.
  intros Hin%dict_get_Some_elem_of.
  assert (Forall (λ kv : nat * list Word,
                    length kv.2 = 3 ∧ uniform kv.1 kv.2) common_starters)
    as Htable.
  { unfold common_starters, uniform. repeat constructor. }
  rewrite Forall_forall in Htable. apply (Htable _ Hin).
Qed.

Lemma add_starters_extra (all_words wte starters : list Word) :
  ∃ extra, foldl (add_starter all_words) wte starters = wte ++ extra
    ∧ length extra ≤ length starters
    ∧ ∀ w, w ∈ extra → w ∈ starters ∧ w ∈ all_words ∧ w ∉ wte.
Proof.
  revert wte. induction starters as [|s starters IH]; intros wte.
  - exists []. split_and!; [by rewrite app_nil_r|done|by intros w ?%elem_of_nil].
  - cbn [foldl]. unfold add_starter at 2.
    destruct (bool_decide (s ∈ all_words)) eqn:Hs1;
      [destruct (bool_decide (s ∉ wte)) eqn:Hs2|]; cbn [andb].
    + apply bool_decide_eq_true in Hs1, Hs2.
      destruct (IH (wte ++ [s])) as (extra & -> & Hlen & Hex).
      exists (s :: extra). split_and!.
      * by rewrite <- app_assoc.
      * cbn. lia.
      * intros w [->|Hw]%elem_of_cons; [split_and!; [left|done..]|].
        destruct (Hex w Hw) as (? & ? & Hnot). split_and!; [by right|done|].
        intros ?. apply Hnot. apply elem_of_app. by left.
    + destruct (IH wte) as (extra & -> & Hlen & Hex).
      exists extra. split_and!; [done|cbn; lia|].
      intros w Hw. destruct (Hex w Hw) as (? & ? & ?).
      split_and!; [by right|done..].
    + destruct (IH wte) as (extra & -> & Hlen & Hex).
      exists extra. split_and!; [done|cbn; lia|].
      intros w Hw. destruct (Hex w Hw) as (? & ? & ?).
      split_and!; [by right|done..].
Qed.

(** The evaluation set under the default [max_search]. *)
Lemma words_to_evaluate_default (pool all_words : list Word) n :
  pool ≠ [] → uniform n pool →
  ∃ E extra, words_to_evaluate pool all_words default_max_search = Ok E
    ∧ E = (if decide (length pool ≤ 10) then pool else take 20 pool) ++ extra
    ∧ (length pool ≤ 50 → extra = [])
    ∧ length extra ≤ 3
    ∧ (∀ w, w ∈ extra →
         w ∈ all_words ∧ (w ∉ take 20 pool)
         ∧ ∃ starters, dict_get common_starters n = Some starters
                       ∧ w ∈ starters)
    ∧ length E ≤ default_max_search
    ∧ uniform n E.
Proof.
  intros Hne Hu. unfold words_to_evaluate.
  assert (∀ E extra,
    E = (if decide (length pool ≤ 10) then pool else take 20 pool) ++ extra →
    length extra ≤ 3 → length E ≤ default_max_search) as Hsize.
  { intros E extra -> Hex. rewrite length_app. unfold default_max_search.
    destruct (decide (length pool ≤ 10)); [lia|].
    rewrite length_take. lia. }
  assert (uniform n (take 20 pool)) as Hut.
  { unfold uniform in *. by apply Forall_take. }
  destruct (decide (length pool ≤ 10)) as [Hsmall|Hbig].
  - rewrite bind_Ok_l, decide_False by (unfold default_max_search; lia).
    exists pool, []. rewrite app_nil_r.
    split_and!; [done|done|done|cbn; lia|by intros w ?%elem_of_nil| |done].
    unfold default_max_search. lia.
  - destruct (decide (50 < length pool)) as [Hlarge|Hmid].
    + destruct pool as [|c0 pool']; [done|]. set (pool := c0 :: pool') in *.
      assert (length c0 = n) as Hc0.
      { unfold uniform in Hu. by apply Forall_cons_1 in Hu as [? _]. }
      change (getitem pool 0) with (Ok c0). rewrite bind_Ok_l, Hc0.
      destruct (dict_get common_starters n) as [starters|] eqn:Hst.
      * destruct (common_starters_shape n starters Hst) as [Hlen3 Hus].
        destruct (add_starters_extra all_words (take 20 pool) starters)
          as (extra & Hfold & Hlen & Hex).
        rewrite Hfold, bind_Ok_l.
        assert (length extra ≤ 3) as Hlen' by lia.
        pose proof (Hsize _ extra eq_refl Hlen') as HE.
        rewrite decide_False by lia.
        exists (take 20 pool ++ extra), extra.
        split_and!; [done|done|lia|done| |done|].
        -- intros w Hw. destruct (Hex w Hw) as (? & ? & ?).
           split_and!; [done..|]. by exists starters.
        -- unfold uniform in *. apply Forall_app. split; [done|].
           rewrite Forall_forall. intros w Hw.
           destruct (Hex w Hw) as (Hin & _).
           rewrite Forall_forall in Hus. by apply Hus.
      * rewrite bind_Ok_l.
        pose proof (Hsize (take 20 pool ++ []) [] eq_refl ltac:(cbn; lia)) as HE.
        rewrite app_nil_r in HE. rewrite decide_False by lia.
        exists (take 20 pool), []. rewrite app_nil_r.
        split_and!; [done|done|done|cbn; lia|by intros w ?%elem_of_nil|done..].
    + rewrite bind_Ok_l.
      pose proof (Hsize (take 20 pool ++ []) [] eq_refl ltac:(cbn; lia)) as HE.
      rewrite app_nil_r in HE. rewrite decide_False by lia.
      exists (take 20 pool), []. rewrite app_nil_r.
      split_and!; [done|done|done|cbn; lia|by intros w ?%elem_of_nil|done..].
Qed.

Lemma scoring_step pool c0 pre (x : Word) best :
  fits x pool → scoring_inv pool c0 pre best →
  ∃ best', consider pool x best = Ok best'
    ∧ scoring_inv pool c0 (pre ++ [x]) best'.
Proof.
  intros Hfit Hinv. unfold consider.
  destruct (score_Ok pool x Hfit) as [-> Hx]. rewrite bind_Ok_l.
  set (s := score_value pool x) in *.
  destruct Hinv as [[-> ->]|(i & Hi & Hbs & Hmax)].
  - cbn [snd]. rewrite Hx.
    eexists. split; [done|]. right. exists 0.
    split_and!; [done|done|].
    intros [|j] w; [|done]. intros [= <-]. cbn [fst snd]. fold s.
    split; [apply float_lt_irrefl|lia].
  - destruct best as [bw bs]. cbn [fst snd] in *.
    pose proof (lookup_lt_Some _ _ _ Hi) as Hlt.
    destruct (float_lt bs s) eqn:Hgt; (eexists; split; [done|]); right.
    + exists (length pre). cbn [fst snd].
      split_and!; [by rewrite list_lookup_middle|done|].
      intros j w Hj. destruct (decide (j < length pre)) as [Hjl|Hjl].
      * rewrite lookup_app_l in Hj by done.
        destruct (Hmax j w Hj) as [Hle _].
        destruct (float_lt_cotrans _ _ (score_value pool w) Hgt) as [?|Hw];
          [congruence|].
        split; [by apply float_lt_asym|done].
      * apply lookup_lt_Some in Hj as Hjlt. rewrite length_app in Hjlt.
        cbn in Hjlt. assert (j = length pre) as -> by lia.
        rewrite list_lookup_middle in Hj by done. injection Hj as <-.
        split; [apply float_lt_irrefl|lia].
    + exists i. cbn [fst snd].
      split_and!; [by rewrite lookup_app_l|done|].
      intros j w Hj. destruct (decide (j < length pre)) as [Hjl|Hjl].
      * rewrite lookup_app_l in Hj by done. by apply Hmax.
      * apply lookup_lt_Some in Hj as Hjlt. rewrite length_app in Hjlt.
        cbn in Hjlt. assert (j = length pre) as -> by lia.
        rewrite list_lookup_middle in Hj by done. injection Hj as <-.
        split; [done|lia].
Qed.

Lemma scoring_loop pool c0 (E : list Word) :
  (∀ w, w ∈ E → fits w pool) →
  ∃ best, for_each E (consider pool) (c0, float_neg_one) = Ok best
    ∧ scoring_inv pool c0 E best.
Proof.
  intros Hfit. apply (for_each_inv (scoring_inv pool c0)).
  - by left.
  - intros pre x suf best HE Hinv. apply scoring_step; [|done].
    apply Hfit. rewrite HE. apply elem_of_app. right. left.
Qed.

Lemma scoring_inv_first_argmax pool c0 (E : list Word) best :
  E ≠ [] → (∀ w, w ∈ E → fits w pool) →
  scoring_inv pool c0 E best → first_argmax pool E best.1.
Proof.
  intros Hne Hfit [[-> _]|(i & Hi & Hbs & Hmax)]; [done|].
  exists i, best.2. split_and!; [done| |].
  - rewrite Hbs. apply score_Ok, Hfit. by apply list_elem_of_lookup_2 in Hi.
  - intros j w Hj. exists (score_value pool w). split; [|by apply Hmax].
    apply score_Ok, Hfit. by apply list_elem_of_lookup_2 in Hj.
Qed.

(** The selector on a pool of three or more equal-length words. *)
Lemma get_optimal_guess_large (pool all_words : list Word) n :
  3 ≤ length pool → uniform n pool →
  ∃ E extra best,
    words_to_evaluate pool all_words default_max_search = Ok E
    ∧ E = (if decide (length pool ≤ 10) then pool else take 20 pool) ++ extra
    ∧ (length pool ≤ 50 → extra = [])
    ∧ length extra ≤ 3
    ∧ (∀ w, w ∈ extra →
         w ∈ all_words
         ∧ ∃ starters, dict_get common_starters n = Some starters
                       ∧ w ∈ starters)
    ∧ length E ≤ 30
    ∧ get_optimal_guess pool all_words default_max_search = Ok best
    ∧ first_argmax pool E best
    ∧ uniform n E.
Proof.
  intros Hlen Hu.
  assert (pool ≠ []) as Hne by (intros ->; cbn in Hlen; lia).
  destruct (words_to_evaluate_default pool all_words n Hne Hu)
    as (E & extra & HE & HEeq & Hmid & Hex3 & Hextra & Hcap & HuE).
  assert (∀ w, w ∈ E → fits w pool) as Hfit.
  { intros w Hw. apply (uniform_fits n); [|done].
    unfold uniform in HuE. rewrite Forall_forall in HuE. by apply HuE. }
  assert (E ≠ []) as HEne.
  { rewrite HEeq. destruct (decide (length pool ≤ 10)).
    - destruct pool; [done|]. done.
    - destruct pool; [done|]. done. }
  destruct pool as [|c0 pool']; [done|]. set (pool := c0 :: pool') in *.
  destruct (scoring_loop pool c0 E Hfit) as (best & Hloop & Hinv).
  exists E, extra, best.1.
  split_and!; [done|done|done|done| |done| | |done].
  - intros w Hw. destruct (Hextra w Hw) as (? & _ & ?). done.
  - unfold get_optimal_guess.
    rewrite decide_False by lia. rewrite decide_False by lia.
    rewrite HE, bind_Ok_l. change (getitem pool 0) with (Ok c0).
    rewrite bind_Ok_l, Hloop. done.
  - by apply (scoring_inv_first_argmax pool c0).
Qed.

(** On a non-empty pool of words of length [n] the selector returns a word
    of length [n]. *)
Lemma get_optimal_guess_Ok (pool all_words : list Word) n :
  pool ≠ [] → uniform n pool →
  ∃ g, get_optimal_guess pool all_words default_max_search = Ok g
    ∧ length g = n.
Proof.
  intros Hne Hu.
  destruct (decide (length pool < 3)) as [Hsmall|Hbig].
  - destruct pool as [|c0 pool']; [done|]. exists c0.
    split; [|unfold uniform in Hu; by apply Forall_cons_1 in Hu as [? _]].
    unfold get_optimal_guess.
    destruct (decide (length (c0 :: pool') = 1)); [done|].
    destruct (decide (length (c0 :: pool') = 2)); [done|].
    cbn [length] in *. lia.
  - destruct (get_optimal_guess_large pool all_words n ltac:(lia) Hu)
      as (E & _ & best & _ & _ & _ & _ & _ & _ & Hbest & Harg & HuE).
    exists best. split; [done|].
    destruct Harg as (i & _ & Hi & _).
    unfold uniform in HuE. rewrite Forall_forall in HuE.
    apply HuE. by apply list_elem_of_lookup_2 in Hi.
Qed.

(** ** The game simulator *)

(** One iteration on a non-empty pool of words of the length of the secret. *)
Lemma turn_spec secret all_words k st :
  candidates st ≠ [] → uniform (length secret) (candidates st) →
  ∃ guess fb,
    get_optimal_guess (candidates st) all_words default_max_search = Ok guess
    ∧ length guess = length secret
    ∧ generate_feedback guess secret = Ok fb
    ∧ turn secret all_words k st
      = Ok (if decide (guess = secret) then (after_win st guess fb, true)
            else (after_miss st guess fb,
                  bool_decide (length (candidates (after_miss st guess fb)) = 0))).
Proof.
  intros Hne Hu.
  destruct (get_optimal_guess_Ok _ all_words _ Hne Hu) as (guess & Hg & Hlen).
  destruct (generate_feedback_Ok guess secret) as (fb & Hfb & _); [lia|].
  exists guess, fb. split_and!; [done..|].
  unfold turn. rewrite Hg, bind_Ok_l, Hfb, bind_Ok_l.
  destruct (decide (guess = secret)) as [->|Hmiss]; [done|].
  rewrite apply_feedback_to_candidates_eq.
  rewrite decide_True by by apply (uniform_fits (length secret)).
  by rewrite bind_Ok_l.
Qed.

Lemma play_loop_from secret all_words (l : list nat) k st :
  playing secret k st →
  ∃ st', for_each_break l (turn secret all_words) st = Ok st'
    ∧ finished secret (k + length l) st'
    ∧ k + min 1 (length l) ≤ length (guesses st')
    ∧ (secret ∈ candidates st → secret ∈ candidates st').
Proof.
  revert k st. induction l as [|i l IH]; intros k st Hplay.
  - destruct Hplay as (Hu & Hne & Hwon & Hnot & Hg & Hf).
    exists st. split_and!; [done| |cbn; lia|done].
    unfold finished. rewrite Hwon. cbn [length].
    split_and!; [lia|lia| |done|intros _; left; lia].
    split; [done|]. intros ?. by destruct Hnot.
  - pose proof Hplay as (Hu & Hne & Hwon & Hnot & Hg & Hf).
    destruct (turn_spec secret all_words i st Hne Hu)
      as (guess & fb & _ & Hlen & Hfb & Hturn).
    cbn [for_each_break]. rewrite Hturn, bind_Ok_l.
    destruct (decide (guess = secret)) as [->|Hmiss].
    + exists (after_win st secret fb). cbn [length fst snd].
      split_and!; [done| | |done].
      * unfold finished, after_win. cbn [guesses feedbacks won candidates].
        rewrite !length_app. cbn [length]. rewrite last_snoc.
        split_and!; [lia|lia| |done|done].
        split; [|done]. intros _. apply elem_of_app. right. left.
      * unfold after_win. cbn. rewrite length_app. cbn. lia.
    + destruct (bool_decide _) eqn:Hempty.
      * apply bool_decide_eq_true in Hempty.
        exists (after_miss st guess fb). split_and!; [done| | |].
        -- unfold finished. unfold after_miss in *.
           cbn [guesses feedbacks won candidates] in *.
           rewrite !length_app, Hwon. cbn [length].
           split_and!; [lia|lia| |done|].
           ++ split; [done|]. intros [?|Hin%list_elem_of_singleton]%elem_of_app;
                [by destruct Hnot|congruence].
           ++ intros _. right. by apply length_zero_iff_nil.
        -- unfold after_miss. cbn. rewrite length_app. cbn. lia.
        -- intros Hin. unfold after_miss. cbn. apply list_elem_of_filter.
           split; [by apply secret_is_consistent|done].
      * apply bool_decide_eq_false in Hempty.
        destruct (IH (S k) (after_miss st guess fb))
          as (st' & Hrun & Hfin & Hgrow & Hkeep).
        { unfold playing, after_miss in *.
          cbn [guesses feedbacks won candidates] in *.
          rewrite !length_app. cbn [length].
          split_and!; [by apply uniform_filter| |done| |lia|lia].
          - intros Hnil. apply Hempty. by rewrite Hnil.
          - intros [?|Hin%list_elem_of_singleton]%elem_of_app;
              [by destruct Hnot|congruence]. }
        exists st'. cbn [fst snd]. split_and!; [done| | |].
        -- cbn [length].
           by replace (k + S (length l)) with (S k + length l) by lia.
        -- cbn [length]. lia.
        -- intros Hin. apply Hkeep. unfold after_miss. cbn.
           apply list_elem_of_filter. split; [by apply secret_is_consistent|done].
Qed.

Lemma initial_state_playing secret all_words :
  all_words ≠ [] → uniform (length secret) all_words →
  playing secret 0 (initial_state all_words).
Proof.
  intros Hne Hu. unfold playing, initial_state. cbn.
  split_and!; [done..| |done|done]. apply not_elem_of_nil.
Qed.

(** The game on a non-empty dictionary of words of the length of the secret:
    the loop returns, and what its final local variables satisfy. *)
Lemma play_loop_finished secret all_words max_guesses :
  all_words ≠ [] → uniform (length secret) all_words →
  ∃ st, play_loop secret all_words max_guesses = Ok st
    ∧ finished secret max_guesses st
    ∧ min 1 max_guesses ≤ length (guesses st)
    ∧ (secret ∈ all_words → secret ∈ candidates st).
Proof.
  intros Hne Hu. unfold play_loop.
  destruct (play_loop_from secret all_words (range max_guesses) 0
              (initial_state all_words))
    as (st & Hrun & Hfin & Hgrow & Hkeep).
  { by apply initial_state_playing. }
  unfold range in *. rewrite length_seq in *.
  exists st. split_and!; done.
Qed.

(** Every state the loop passes through is a state of [reached]. *)
Lemma play_loop_reached secret all_words max_guesses st :
  play_loop secret all_words max_guesses = Ok st →
  ∃ k stop, k ≤ max_guesses ∧ reached secret all_words k st stop.
Proof.
  unfold play_loop, range.
  assert (∀ len k st0 st',
    reached secret all_words k st0 false →
    for_each_break (seq k len) (turn secret all_words) st0 = Ok st' →
    ∃ k' stop, k' ≤ k + len ∧ reached secret all_words k' st' stop) as Haux.
  { induction len as [|len IH]; intros k st0 st' Hreach Hrun.
    - injection Hrun as <-. exists k, false. split; [lia|done].
    - cbn [seq for_each_break] in Hrun.
      destruct (turn secret all_words k st0) as [[st1 stop]|e] eqn:Hturn;
        [|done].
      rewrite bind_Ok_l in Hrun.
      pose proof (reached_turn _ _ _ _ _ _ Hreach Hturn) as Hreach1.
      destruct stop.
      + injection Hrun as <-. exists (S k), true. split; [lia|done].
      + destruct (IH (S k) st1 st' Hreach1 Hrun) as (k' & stop & Hk' & Hr).
        exists k', stop. split; [lia|done]. }
  intros Hrun.
  destruct (Haux max_guesses 0 _ st (reached_start _ _) Hrun)
    as (k & stop & Hk & Hr).
  exists k, stop. split; [lia|done].
Qed.

Lemma reached_keeps_secret secret all_words k st stop :
  uniform (length secret) all_words → secret ∈ all_words →
  reached secret all_words k st stop →
  uniform (length secret) (candidates st) ∧ secret ∈ candidates st.
Proof.
  intros Hu Hin Hreach. induction Hreach as [|k st st' stop Hreach IH Hturn].
  - done.
  - destruct IH as [Hust Hsec].
    assert (candidates st ≠ []) as Hne.
    { intros Hnil. rewrite Hnil in Hsec. by apply elem_of_nil in Hsec. }
    destruct (turn_spec secret all_words k st Hne Hust)
      as (guess & fb & _ & _ & Hfb & Hturn').
    rewrite Hturn' in Hturn.
    destruct (decide (guess = secret)) as [->|Hmiss];
      injection Hturn as <- <-; [done|].
    unfold after_miss. cbn [candidates]. split.
    + by apply uniform_filter.
    + apply list_elem_of_filter. split; [by apply secret_is_consistent|done].
Qed.

End float_lemmas.

(** ** The entropy evaluator with exact arithmetic *)

Lemma add_term_exact (n c : Z) (e : R) :
  (0 < c)%Z → (0 < n)%Z →
  add_term (FM := real_arithmetic) n c e = Ok (e + entropy_term n c)%R.
Proof.
  intros Hc Hn. unfold add_term, truediv, math_log2.
  rewrite decide_True by done. rewrite decide_False by lia.
  rewrite bind_Ok_l. cbn [float_lt float_zero int_div real_arithmetic].
  rewrite Rltb_ratio by done. rewrite bind_Ok_l. reflexivity.
Qed.

Lemma entropy_loop_exact (n : Z) (vals : list Z) (e : R) :
  (0 < n)%Z → (∀ c, c ∈ vals → (0 < c)%Z) →
  for_each vals (add_term (FM := real_arithmetic) n) e
  = Ok (e + sumR (entropy_term n <$> vals))%R.
Proof.
  intros Hn. revert e. induction vals as [|c vals IH]; intros e Hpos.
  - cbn. f_equal. lra.
  - cbn [for_each]. rewrite add_term_exact; [|apply Hpos; left|done].
    rewrite bind_Ok_l, IH by (intros; apply Hpos; by right).
    rewrite fmap_cons, sumR_cons. f_equal. lra.
Qed.

Lemma calculate_entropy_exact guess (pool : list Word) :
  fits guess pool →
  calculate_entropy (FM := real_arithmetic) guess pool
  = Ok (entropy_value guess pool).
Proof.
  intros Hfit. unfold calculate_entropy, entropy_value.
  destruct pool as [|w pool]; [done|].
  rewrite count_loop by done. rewrite bind_Ok_l.
  fold (tally (pattern_of guess <$> w :: pool)).
  rewrite entropy_loop_exact.
  - f_equal. cbn [float_zero real_arithmetic]. lra.
  - cbn [length]. lia.
  - intros c (k & _ & _ & Hc)%tally_values_pos. lia.
Qed.

Section entropy_value.
Variables (guess : Word) (pool : list Word).
Hypothesis Hne : pool ≠ [].
Let pats := pattern_of guess <$> pool.
Let n := Z.of_nat (length pool).

Lemma pool_size_pos : (0 < n)%Z.
Proof. unfold n. destruct pool; [done|]. cbn [length]. lia. Qed.

Lemma pats_length : Z.of_nat (length pats) = n.
Proof. unfold pats, n. by rewrite length_fmap. Qed.

Lemma entropy_value_terms c :
  c ∈ dict_values (tally pats) → (0 < c ≤ n)%Z.
Proof.
  intros (k & _ & _ & Hc)%tally_values_pos. by rewrite pats_length in Hc.
Qed.

Lemma entropy_value_nonneg : (0 <= entropy_value guess pool)%R.
Proof.
  unfold entropy_value. fold pats n. apply sumR_nonneg.
  intros c Hc%entropy_value_terms. apply entropy_term_nonneg; lia.
Qed.

Lemma entropy_value_zero :
  entropy_value guess pool = 0%R ↔ ∀ x y, x ∈ pats → y ∈ pats → x = y.
Proof.
  unfold entropy_value. fold pats n. split.
  - intros Hsum.
    assert (∀ x, x ∈ pats → Z.of_nat (count x pats) = n) as Hfull.
    { intros x Hx.
      pose proof (tallied_covers pats _ x (tallied_tally pats) Hx) as Hin.
      assert (Z.of_nat (count x pats) ∈ dict_values (tally pats)) as Hval.
      { unfold dict_values. apply list_elem_of_fmap. by eexists (_, _). }
      pose proof (entropy_value_terms _ Hval).
      apply entropy_term_zero; [lia..|].
      apply (sumR_zero (entropy_term n) (dict_values (tally pats))); [|done..].
      intros c Hc%entropy_value_terms. apply entropy_term_nonneg; lia. }
    intros x y Hx Hy. destruct (decide (x = y)) as [|Hxy]; [done|].
    pose proof (count_two x y pats Hxy). pose proof pats_length.
    pose proof pool_size_pos.
    specialize (Hfull x Hx) as Hcx. specialize (Hfull y Hy) as Hcy. lia.
  - intros Hall. apply sumR_all_zero.
    intros c (k & Hk & -> & _)%tally_values_pos.
    rewrite count_all_equal by (intros x Hx; by apply Hall).
    rewrite pats_length. apply entropy_term_full, pool_size_pos.
Qed.

Lemma entropy_value_split :
  (entropy_value guess pool
   = log2 (IZR n) - sumR (xlog2x <$> dict_values (tally pats)) / IZR n)%R.
Proof.
  unfold entropy_value. fold pats n.
  pose proof pool_size_pos as Hn.
  rewrite sumR_entropy_split;
    [|done|intros c Hc%entropy_value_terms; lia].
  destruct (tallied_tally pats) as (_ & _ & ->). rewrite pats_length.
  apply (IZR_lt 0) in Hn. field. lra.
Qed.

Lemma xlog2x_sum_nonneg :
  (0 <= sumR (xlog2x <$> dict_values (tally pats)))%R.
Proof.
  apply sumR_nonneg. intros c Hc%entropy_value_terms.
  apply xlog2x_nonneg. lia.
Qed.

Lemma entropy_value_le : (entropy_value guess pool <= log2 (IZR n))%R.
Proof.
  rewrite entropy_value_split.
  pose proof xlog2x_sum_nonneg as Hs.
  pose proof pool_size_pos as Hn. apply (IZR_lt 0) in Hn.
  assert (0 <= sumR (xlog2x <$> dict_values (tally pats)) / IZR n)%R; [|lra].
  apply Rmult_le_pos; [done|]. apply Rlt_le. by apply Rinv_0_lt_compat.
Qed.

Lemma entropy_value_max :
  entropy_value guess pool = log2 (IZR n) ↔ NoDup pats.
Proof.
  rewrite entropy_value_split.
  pose proof pool_size_pos as Hn. apply (IZR_lt 0) in Hn.
  rewrite NoDup_count. split.
  - intros Heq.
    assert (sumR (xlog2x <$> dict_values (tally pats)) = 0%R) as Hsum.
    { apply Rmult_eq_reg_r with (/ IZR n)%R;
        [|apply Rgt_not_eq; by apply Rinv_0_lt_compat].
      unfold Rdiv in Heq. lra. }
    intros k. destruct (decide (k ∈ pats)) as [Hk|Hk].
    + pose proof (tallied_covers pats _ k (tallied_tally pats) Hk) as Hin.
      assert (Z.of_nat (count k pats) ∈ dict_values (tally pats)) as Hval.
      { unfold dict_values. apply list_elem_of_fmap. by eexists (_, _). }
      pose proof (entropy_value_terms _ Hval).
      assert (Z.of_nat (count k pats) = 1%Z); [|lia].
      apply xlog2x_zero; [lia|].
      apply (sumR_zero xlog2x (dict_values (tally pats))); [|done..].
      intros c Hc%entropy_value_terms. apply xlog2x_nonneg. lia.
    + assert (¬ 0 < count k pats) by by rewrite count_pos. lia.
  - intros Hcount.
    rewrite sumR_all_zero; [unfold Rdiv; lra|].
    intros c (k & Hk & -> & Hpos)%tally_values_pos.
    specialize (Hcount k).
    replace (Z.of_nat (count k pats)) with 1%Z by lia. apply xlog2x_1.
Qed.

End entropy_value.

Lemma same_length_fits guess pool : same_length guess pool → fits guess pool.
Proof.
  unfold same_length, uniform, fits. rewrite !Forall_forall.
  intros Hsame w Hw. by rewrite (Hsame w Hw).
Qed.

Lemma feedbacks_of_pool guess (pool : list Word) :
  fits guess pool →
  generate_feedback guess <$> pool = Ok <$> (pattern_of guess <$> pool).
Proof.
  intros Hfit. rewrite <- list_fmap_compose.
  apply Forall_fmap_ext_1. unfold fits in Hfit.
  eapply Forall_impl; [exact Hfit|]. intros w Hw. cbn.
  by apply generate_feedback_pattern_of.
Qed.

#[global] Instance Ok_inj {A} : Inj (=) (=) (@Ok A).
Proof. intros x y [= ->]. done. Qed.

(** With exact arithmetic, on a pool of words of the length of the guess: the
    entropy is 0 exactly when all members give the same pattern, and on a
    non-empty pool it is at most log2 of the pool size, with equality exactly
    when the members give pairwise distinct patterns. *)
Lemma exact_entropy_properties (guess : Word) (pool : list Word) :
  same_length guess pool →
  ∃ e, calculate_entropy (FM := real_arithmetic) guess pool = Ok e
    ∧ (e = 0%R ↔
         ∀ w1 w2, w1 ∈ pool → w2 ∈ pool →
           generate_feedback guess w1 = generate_feedback guess w2)
    ∧ (pool ≠ [] →
         (e <= log2 (INR (length pool)))%R
         ∧ (e = log2 (INR (length pool))
            ↔ NoDup (generate_feedback guess <$> pool))).
Proof.
  intros Hfit%same_length_fits.
  exists (entropy_value guess pool).
  split; [by apply calculate_entropy_exact|].
  destruct (decide (pool = [])) as [->|Hne].
  { split; [|done]. split; [|done]. by intros _ w1 w2 ?%elem_of_nil. }
  split.
  - rewrite entropy_value_zero by done. split.
    + intros Hall w1 w2 H1 H2.
      rewrite !generate_feedback_pattern_of
        by by apply (fits_elem_of guess pool).
      f_equal. apply Hall; apply list_elem_of_fmap; eauto.
    + intros Hall x y (w1 & -> & H1)%list_elem_of_fmap
        (w2 & -> & H2)%list_elem_of_fmap.
      specialize (Hall w1 w2 H1 H2).
      rewrite !generate_feedback_pattern_of in Hall
        by by apply (fits_elem_of guess pool).
      by injection Hall.
  - intros _. rewrite INR_IZR_INZ. split.
    + by apply entropy_value_le.
    + rewrite entropy_value_max by done.
      rewrite feedbacks_of_pool by done.
      symmetry. apply (NoDup_fmap _).
Qed.

(** * Part IV: the properties *)

(** ** Sample runs *)

Example feedback_speed_abide :
  generate_feedback (str "speed") (str "abide")
  = Ok [ABSENT; ABSENT; PRESENT; ABSENT; PRESENT].
Proof. vm_compute. reflexivity. Qed.

Example feedback_longer_guess :
  generate_feedback (str "abcd") (str "abc") = Ok [CORRECT; CORRECT; CORRECT].
Proof. vm_compute. reflexivity. Qed.

Example feedback_shorter_guess :
  generate_feedback (str "ab") (str "abc") = Raise IndexError.
Proof. vm_compute. reflexivity. Qed.

Example quick_feedback_shorter_guess :
  QuickTrajectories.generate_feedback (str "ab") (str "abc")
  = Ok [CORRECT; CORRECT; ABSENT].
Proof. vm_compute. reflexivity. Qed.

Example filter_keeps_consistent_words :
  apply_feedback_to_candidates [str "abc"; str "abd"; str "xbc"] (str "abc")
    [CORRECT; CORRECT; CORRECT]
  = Ok [str "abc"].
Proof. vm_compute. reflexivity. Qed.

Example quick_feedback_longer_guess :
  QuickTrajectories.generate_feedback (str "abcd") (str "abc")
  = Raise IndexError.
Proof. vm_compute. reflexivity. Qed.

Example filter_longer_word :
  apply_feedback_to_candidates [str "abc"; str "abcd"] (str "abc")
    [CORRECT; CORRECT; CORRECT]
  = Raise IndexError.
Proof. vm_compute. reflexivity. Qed.

Example words_to_evaluate_small :
  words_to_evaluate [str "abc"; str "abd"; str "xbc"] [str "are"]
    default_max_search
  = Ok [str "abc"; str "abd"; str "xbc"].
Proof. vm_compute. reflexivity. Qed.

Lemma get_optimal_guess_empty {FM : FloatOps} all_words max_search :
  get_optimal_guess [] all_words max_search = Raise IndexError.
Proof.
  unfold get_optimal_guess, words_to_evaluate. cbn.
  destruct (decide (max_search < 0)); reflexivity.
Qed.

Lemma calculate_entropy_empty {FM : FloatOps} guess :
  calculate_entropy guess [] = Ok float_zero.
Proof. reflexivity. Qed.

(** ** Properties of the feedback oracle *)

(** C1, as stated, fails: a guess longer than the secret is silently cut to
    the length of the secret and a pattern is returned, no error is raised. *)
Lemma longer_guess_is_truncated :
  length (str "abcd") ≠ length (str "abc")
  ∧ generate_feedback (str "abcd") (str "abc") = Ok [CORRECT; CORRECT; CORRECT]
  ∧ ¬ ∃ e, generate_feedback (str "abcd") (str "abc") = Raise e.
Proof.
  assert (generate_feedback (str "abcd") (str "abc")
          = Ok [CORRECT; CORRECT; CORRECT]) as Hrun
    by (vm_compute; reflexivity).
  split_and!; [vm_compute; lia|done|].
  intros [e He]. rewrite Hrun in He. discriminate.
Qed.

(** C1 (amended): when the guess is shorter than the secret the oracle raises
    [IndexError]; when the guess is longer it returns the pattern, of the
    length of the secret, of the guess cut to the length of the secret. *)
Theorem generate_feedback_length_mismatch (guess secret : Word) :
  (length guess < length secret →
     generate_feedback guess secret = Raise IndexError)
  ∧ (length secret < length guess →
       ∃ fb, generate_feedback guess secret = Ok fb
         ∧ length fb = length secret
         ∧ generate_feedback (take (length secret) guess) secret = Ok fb).
Proof.
  split.
  - apply generate_feedback_Raise.
  - intros Hlen.
    destruct (generate_feedback_Ok guess secret) as (fb & Hfb & Hl & _); [lia|].
    exists fb. split_and!; [done..|]. by rewrite generate_feedback_take.
Qed.

Lemma generate_feedback_length_mismatch_witness :
  (length (str "ab") < length (str "abc")
   ∧ generate_feedback (str "ab") (str "abc") = Raise IndexError)
  ∧ (length (str "abc") < length (str "abcd")
     ∧ ∃ fb, generate_feedback (str "abcd") (str "abc") = Ok fb
         ∧ length fb = length (str "abc")
         ∧ generate_feedback (take (length (str "abc")) (str "abcd")) (str "abc")
           = Ok fb).
Proof.
  split; split.
  - simpl. lia.
  - apply (generate_feedback_length_mismatch (str "ab") (str "abc")). simpl. lia.
  - simpl. lia.
  - apply (generate_feedback_length_mismatch (str "abcd") (str "abc")).
    simpl. lia.
Defined.

(** C2: for equal-length words and every letter [L], the tiles of [L] marked
    correct plus those marked present are at most the occurrences of [L] in
    the secret; this holds of the pattern both oracles return. *)
Theorem marked_tiles_bounded (guess secret : Word) (L : ascii) :
  length guess = length secret →
  ∃ fb, generate_feedback guess secret = Ok fb
    ∧ QuickTrajectories.generate_feedback guess secret = Ok fb
    ∧ tiles L CORRECT guess fb + tiles L PRESENT guess fb
      ≤ occurrences L secret.
Proof.
  intros Hlen.
  destruct (generate_feedback_Ok guess secret) as (fb & Hfb & _ & _ & Hm); [lia|].
  exists fb. split_and!; [done| |].
  - by rewrite quick_generate_feedback.
  - rewrite tiles_split. apply Hm.
Qed.

Lemma marked_tiles_bounded_witness :
  length (str "speed") = length (str "abide")
  ∧ ∃ fb, generate_feedback (str "speed") (str "abide") = Ok fb
      ∧ QuickTrajectories.generate_feedback (str "speed") (str "abide") = Ok fb
      ∧ tiles "e" CORRECT (str "speed") fb + tiles "e" PRESENT (str "speed") fb
        ≤ occurrences "e" (str "abide").
Proof.
  split; [reflexivity|].
  apply (marked_tiles_bounded (str "speed") (str "abide") "e"%char). reflexivity.
Defined.

(** C7: for equal-length words the number of [CORRECT] tiles is the number of
    positions where guess and secret agree, and the feedback of a word
    against itself is all [CORRECT]. *)
Theorem correct_tiles_are_matches :
  (∀ guess secret : Word, length guess = length secret →
     ∃ fb, generate_feedback guess secret = Ok fb
       ∧ count_tile CORRECT fb = matching_positions guess secret)
  ∧ (∀ secret : Word,
       generate_feedback secret secret = Ok (replicate (length secret) CORRECT)).
Proof.
  split.
  - intros guess secret Hlen.
    destruct (generate_feedback_Ok guess secret) as (fb & Hfb & Hl & Hc & _);
      [lia|].
    exists fb. split; [done|]. apply count_correct_pointwise; [done|lia|done].
  - intros secret.
    destruct (generate_feedback_Ok secret secret) as (fb & Hfb & Hl & Hc & _);
      [lia|].
    rewrite Hfb. f_equal. apply list_eq. intros i.
    destruct (decide (i < length secret)) as [Hi|Hi].
    + rewrite lookup_replicate_2 by done. by apply Hc.
    + rewrite !lookup_ge_None_2; [done| |lia]. rewrite length_replicate. lia.
Qed.

Lemma correct_tiles_are_matches_witness :
  length (str "crane") = length (str "crate")
  ∧ ∃ fb, generate_feedback (str "crane") (str "crate") = Ok fb
      ∧ count_tile CORRECT fb = matching_positions (str "crane") (str "crate").
Proof.
  split; [reflexivity|].
  apply (proj1 correct_tiles_are_matches (str "crane") (str "crate")).
  reflexivity.
Defined.

(** C9: on equal-length words the oracle of
    [generate_optimal_trajectories.py] and the oracle of
    [generate_quick_trajectories.py] return the same pattern. *)
Theorem oracles_agree (guess secret : Word) :
  length guess = length secret →
  ∃ fb, generate_feedback guess secret = Ok fb
    ∧ QuickTrajectories.generate_feedback guess secret = Ok fb.
Proof.
  intros Hlen.
  destruct (generate_feedback_Ok guess secret) as (fb & Hfb & _); [lia|].
  exists fb. split; [done|]. by rewrite quick_generate_feedback.
Qed.

Lemma oracles_agree_witness :
  length (str "speed") = length (str "abide")
  ∧ ∃ fb, generate_feedback (str "speed") (str "abide") = Ok fb
      ∧ QuickTrajectories.generate_feedback (str "speed") (str "abide") = Ok fb.
Proof.
  split; [reflexivity|].
  apply (oracles_agree (str "speed") (str "abide")). reflexivity.
Defined.

(** ** Properties of the candidate filter *)

(** C8: filtering twice with the same observation is filtering once, and a
    returned pool is never larger than the input pool; the filter returns
    whenever no word of the pool is longer than the guess. *)
Theorem filter_idempotent_and_shrinking (pool : list Word) (g : Word)
    (f : FeedbackPattern) :
  (apply_feedback_to_candidates pool g f
     ≫= (λ p, apply_feedback_to_candidates p g f))
  = apply_feedback_to_candidates pool g f
  ∧ (∀ p, apply_feedback_to_candidates pool g f = Ok p →
       apply_feedback_to_candidates p g f = Ok p ∧ length p ≤ length pool)
  ∧ (fits g pool → ∃ p, apply_feedback_to_candidates pool g f = Ok p).
Proof.
  rewrite apply_feedback_to_candidates_eq.
  destruct (decide (fits g pool)) as [Hfit|Hfit].
  - assert (apply_feedback_to_candidates (filter (consistent g f) pool) g f
            = Ok (filter (consistent g f) pool)) as Htwice.
    { rewrite apply_feedback_to_candidates_eq.
      rewrite decide_True by by apply fits_filter.
      by rewrite filter_twice. }
    split_and!.
    + by rewrite bind_Ok_l.
    + intros p [= <-]. split; [done|]. apply length_filter.
    + intros _. by eexists.
  - split_and!; [done|done|tauto].
Qed.

Lemma filter_idempotent_and_shrinking_witness :
  fits (str "abc") [str "abc"; str "abd"; str "xbc"]
  ∧ ∃ p, apply_feedback_to_candidates [str "abc"; str "abd"; str "xbc"]
           (str "abc") [CORRECT; CORRECT; ABSENT] = Ok p
      ∧ apply_feedback_to_candidates p (str "abc") [CORRECT; CORRECT; ABSENT]
        = Ok p
      ∧ length p ≤ 3.
Proof.
  assert (fits (str "abc") [str "abc"; str "abd"; str "xbc"]) as Hfit.
  { unfold fits. repeat constructor. }
  split; [exact Hfit|].
  destruct (filter_idempotent_and_shrinking
              [str "abc"; str "abd"; str "xbc"] (str "abc")
              [CORRECT; CORRECT; ABSENT]) as (_ & Hsame & Hret).
  destruct (Hret Hfit) as [p Hp]. exists p.
  destruct (Hsame p Hp) as [Hagain Hlen]. auto.
Defined.

(** C10: a returned pool is a subsequence of the input pool (same relative
    order, nothing added, nothing duplicated); the filter returns whenever no
    word of the pool is longer than the guess. *)
Theorem filter_is_subsequence (pool : list Word) (g : Word)
    (f : FeedbackPattern) :
  (∀ p, apply_feedback_to_candidates pool g f = Ok p → p `sublist_of` pool)
  ∧ (fits g pool → ∃ p, apply_feedback_to_candidates pool g f = Ok p).
Proof.
  rewrite apply_feedback_to_candidates_eq.
  destruct (decide (fits g pool)) as [Hfit|Hfit].
  - split.
    + intros p [= <-]. apply sublist_filter.
    + intros _. by eexists.
  - split; [done|tauto].
Qed.

Lemma filter_is_subsequence_witness :
  fits (str "abc") [str "abd"; str "abc"; str "abd"]
  ∧ ∃ p, apply_feedback_to_candidates [str "abd"; str "abc"; str "abd"]
           (str "abc") [CORRECT; CORRECT; ABSENT] = Ok p
      ∧ p `sublist_of` [str "abd"; str "abc"; str "abd"].
Proof.
  assert (fits (str "abc") [str "abd"; str "abc"; str "abd"]) as Hfit.
  { unfold fits. repeat constructor. }
  split; [exact Hfit|].
  destruct (filter_is_subsequence [str "abd"; str "abc"; str "abd"]
              (str "abc") [CORRECT; CORRECT; ABSENT]) as (Hsub & Hret).
  destruct (Hret Hfit) as [p Hp]. exists p. split; [done|]. by apply Hsub.
Defined.

(** ** Properties of the guess selector *)

(** C5: a pool of one word gives that word, a pool of two gives its first
    word; a larger pool of equal-length words gives the first word of maximal
    score in the evaluation set, where the score of a word is its entropy
    over the pool plus the bonus 0.1 when it is in the pool, and the
    evaluation set is the pool when it has at most 10 words and otherwise
    its first 20 words followed, only when the pool has more than 50 words,
    by at most 3 opener words of the dictionary: never more than 30 words. *)
Theorem get_optimal_guess_priority {FM : FloatOps} {FL : FloatLaws FM}
    (all_words : list Word) :
  (∀ w max_search, get_optimal_guess [w] all_words max_search = Ok w)
  ∧ (∀ w1 w2 max_search,
       get_optimal_guess [w1; w2] all_words max_search = Ok w1)
  ∧ (∀ pool n,
       3 ≤ length pool → uniform n pool →
       ∃ E extra best,
         words_to_evaluate pool all_words default_max_search = Ok E
         ∧ E = (if decide (length pool ≤ 10) then pool else take 20 pool)
               ++ extra
         ∧ (length pool ≤ 50 → extra = [])
         ∧ length extra ≤ 3
         ∧ (∀ w, w ∈ extra →
              w ∈ all_words
              ∧ ∃ starters, dict_get common_starters n = Some starters
                            ∧ w ∈ starters)
         ∧ length E ≤ 30
         ∧ get_optimal_guess pool all_words default_max_search = Ok best
         ∧ first_argmax pool E best)
  ∧ (∀ pool w sc,
       score pool w = Ok sc →
       ∃ e, calculate_entropy w pool = Ok e
         ∧ sc = float_add e (if bool_decide (w ∈ pool) then float_bonus
                             else float_zero)).
Proof.
  split_and!; [done|done| |].
  - intros pool n Hlen Hu.
    destruct (get_optimal_guess_large pool all_words n Hlen Hu)
      as (E & extra & best & H). exists E, extra, best. tauto.
  - intros pool w sc. unfold score.
    destruct (calculate_entropy w pool) as [e|err]; [|done].
    rewrite bind_Ok_l. intros [= <-]. by exists e.
Qed.

Lemma get_optimal_guess_priority_witness :
  FloatLaws real_arithmetic
  ∧ 3 ≤ length [str "abc"; str "abd"; str "xbc"]
  ∧ uniform 3 [str "abc"; str "abd"; str "xbc"]
  ∧ ∃ E extra best,
      words_to_evaluate [str "abc"; str "abd"; str "xbc"] [] default_max_search
      = Ok E
      ∧ E = [str "abc"; str "abd"; str "xbc"] ++ extra
      ∧ extra = []
      ∧ get_optimal_guess (FM := real_arithmetic)
          [str "abc"; str "abd"; str "xbc"] [] default_max_search = Ok best
      ∧ first_argmax (FM := real_arithmetic)
          [str "abc"; str "abd"; str "xbc"] E best.
Proof.
  assert (3 ≤ length [str "abc"; str "abd"; str "xbc"]) as Hlen by (cbn; lia).
  assert (uniform 3 [str "abc"; str "abd"; str "xbc"]) as Hu.
  { unfold uniform. repeat constructor. }
  split; [exact real_arithmetic_laws|].
  split; [exact Hlen|]. split; [exact Hu|].
  destruct (proj1 (proj2 (proj2
              (get_optimal_guess_priority (FM := real_arithmetic)
                 (FL := real_arithmetic_laws) [])))
              [str "abc"; str "abd"; str "xbc"] 3 Hlen Hu)
    as (E & extra & best & HE & HEeq & Hmid & _ & _ & _ & Hbest & Harg).
  exists E, extra, best. split_and!; [done|done| |done|done].
  apply Hmid. cbn. lia.
Defined.

(** ** Properties of the game simulator *)

(** C3: filtering a pool that holds the secret by the feedback of a guess of
    the secret's length keeps the secret (the filter returns when no word of
    the pool is longer than the guess); and in a game on a dictionary of
    words of the secret's length that holds the secret, the secret is in the
    candidate pool after every iteration and when the game ends. *)
Theorem true_candidate_retention {FM : FloatOps} {FL : FloatLaws FM} :
  (∀ (pool : list Word) (guess secret : Word),
     fits guess pool → length guess = length secret → secret ∈ pool →
     ∃ fb pool',
       generate_feedback guess secret = Ok fb
       ∧ apply_feedback_to_candidates pool guess fb = Ok pool'
       ∧ secret ∈ pool')
  ∧ (∀ (secret : Word) (all_words : list Word),
       uniform (length secret) all_words → secret ∈ all_words →
       (∀ k st stop, reached secret all_words k st stop →
          secret ∈ candidates st)
       ∧ (∀ max_guesses,
            ∃ st, play_loop secret all_words max_guesses = Ok st
              ∧ secret ∈ candidates st)).
Proof.
  split.
  - intros pool guess secret Hfit Hlen Hin.
    destruct (generate_feedback_Ok guess secret) as (fb & Hfb & _); [lia|].
    exists fb, (filter (consistent guess fb) pool). split_and!; [done| |].
    + rewrite apply_feedback_to_candidates_eq. by rewrite decide_True.
    + apply list_elem_of_filter. split; [by apply secret_is_consistent|done].
  - intros secret all_words Hu Hin. split.
    + intros k st stop Hreach.
      by destruct (reached_keeps_secret _ _ _ _ _ Hu Hin Hreach).
    + intros max_guesses.
      assert (all_words ≠ []) as Hne.
      { intros Hnil. rewrite Hnil in Hin. by apply elem_of_nil in Hin. }
      destruct (play_loop_finished secret all_words max_guesses Hne Hu)
        as (st & Hrun & _ & _ & Hkeep).
      exists st. auto.
Qed.

Lemma true_candidate_retention_witness :
  (fits (str "abd") [str "abc"; str "abd"; str "xbc"]
   ∧ length (str "abd") = length (str "abc")
   ∧ str "abc" ∈ [str "abc"; str "abd"; str "xbc"]
   ∧ ∃ fb pool',
       generate_feedback (str "abd") (str "abc") = Ok fb
       ∧ apply_feedback_to_candidates [str "abc"; str "abd"; str "xbc"]
           (str "abd") fb = Ok pool'
       ∧ str "abc" ∈ pool')
  ∧ (FloatLaws real_arithmetic
     ∧ uniform (length (str "abc")) [str "abc"; str "abd"; str "xbc"]
     ∧ ∃ st, play_loop (FM := real_arithmetic) (str "abc")
               [str "abc"; str "abd"; str "xbc"] default_max_guesses = Ok st
         ∧ str "abc" ∈ candidates st).
Proof.
  assert (fits (str "abd") [str "abc"; str "abd"; str "xbc"]) as Hfit.
  { unfold fits. repeat constructor. }
  assert (str "abc" ∈ [str "abc"; str "abd"; str "xbc"]) as Hin by left.
  assert (uniform (length (str "abc")) [str "abc"; str "abd"; str "xbc"])
    as Hu.
  { unfold uniform. repeat constructor. }
  split.
  - split; [exact Hfit|]. split; [reflexivity|]. split; [exact Hin|].
    exact (proj1 (true_candidate_retention (FM := real_arithmetic)
                    (FL := real_arithmetic_laws)) _
             (str "abd") (str "abc") Hfit eq_refl Hin).
  - split; [exact real_arithmetic_laws|]. split; [exact Hu|].
    exact (proj2 (proj2 (true_candidate_retention (FM := real_arithmetic)
                           (FL := real_arithmetic_laws))
                    (str "abc") _ Hu Hin) default_max_guesses).
Defined.

(** C6: on a non-empty dictionary of words of the secret's length the game
    returns after at most [max_guesses] iterations (6 by default), with
    [won] set exactly when a recorded guess is the secret; when it is not
    set, either [max_guesses] guesses were made or the candidate pool is
    empty. *)
Theorem play_optimal_game_terminates {FM : FloatOps} {FL : FloatLaws FM}
    (secret : Word) (all_words : list Word) (max_guesses : nat) :
  all_words ≠ [] → uniform (length secret) all_words →
  ∃ st traj,
    play_loop secret all_words max_guesses = Ok st
    ∧ play_optimal_game secret all_words max_guesses = Ok traj
    ∧ t_guesses traj = guesses st
    ∧ t_won traj = won st
    ∧ t_num_guesses traj = length (t_guesses traj)
    ∧ length (t_feedbacks traj) = t_num_guesses traj
    ∧ min 1 max_guesses ≤ t_num_guesses traj ≤ max_guesses
    ∧ (t_won traj = true ↔ secret ∈ t_guesses traj)
    ∧ (t_won traj = true → last (t_guesses traj) = Some secret)
    ∧ (t_won traj = false →
         t_num_guesses traj = max_guesses ∨ candidates st = []).
Proof.
  intros Hne Hu.
  destruct (play_loop_finished secret all_words max_guesses Hne Hu)
    as (st & Hrun & (Hle & Hfb & Hwon & Hlast & Hlost) & Hge & _).
  exists st. eexists. split; [done|].
  unfold play_optimal_game. rewrite Hrun, bind_Ok_l.
  split; [done|]. cbn. split_and!; done.
Qed.

Lemma play_optimal_game_terminates_witness :
  FloatLaws real_arithmetic
  ∧ [str "abc"; str "abd"; str "xbc"] ≠ []
  ∧ uniform (length (str "abd")) [str "abc"; str "abd"; str "xbc"]
  ∧ ∃ traj,
      play_optimal_game (FM := real_arithmetic) (str "abd")
        [str "abc"; str "abd"; str "xbc"] default_max_guesses = Ok traj
      ∧ 1 ≤ t_num_guesses traj ≤ 6
      ∧ (t_won traj = true ↔ str "abd" ∈ t_guesses traj).
Proof.
  assert ([str "abc"; str "abd"; str "xbc"] ≠ []) as Hne by discriminate.
  assert (uniform (length (str "abd")) [str "abc"; str "abd"; str "xbc"])
    as Hu.
  { unfold uniform. repeat constructor. }
  split; [exact real_arithmetic_laws|].
  split; [exact Hne|]. split; [exact Hu|].
  destruct (play_optimal_game_terminates (FM := real_arithmetic)
              (FL := real_arithmetic_laws) (str "abd")
              [str "abc"; str "abd"; str "xbc"] default_max_guesses Hne Hu)
    as (st & traj & _ & Hplay & _ & _ & _ & _ & Hnum & Hwon & _).
  exists traj. unfold default_max_guesses in *.
  split_and!; [done| | |done]; cbn in Hnum; lia.
Defined.

(** * Part V: further properties *)

(** ** The oracle: exact tile counts *)

Lemma counter_in_false (c : gmap ascii Z) x :
  counter_in x c = false → counter_get c x = 0%Z.
Proof.
  unfold counter_in, counter_get. intros Hin%bool_decide_eq_false.
  destruct (c !! x) eqn:E; [|done]. destruct Hin. by eexists.
Qed.

Lemma absent_inv_step guess secret i st st' :
  i < length secret → length secret ≤ length guess →
  second_pass_inv guess secret i st → absent_inv guess i st →
  second_pass guess i st = Ok st' → absent_inv guess (S i) st'.
Proof.
  intros Hi Hlen (Hl & Hc & Hp & Hm & Hd) Habs. destruct st as [fb c].
  unfold absent_inv in *. cbn [fst snd] in *.
  destruct (lookup_lt_is_Some_2 guess i) as [x Hx]; [lia|].
  destruct (lookup_lt_is_Some_2 fb i) as [f Hf]; [lia|].
  unfold second_pass. rewrite (getitem_Ok _ _ _ Hf), bind_Ok_l.
  assert (∀ j y, j < S i → guess !! j = Some y → fb !! j = Some ABSENT →
            (j = i → (counter_get c x ≤ 0)%Z) → (counter_get c y ≤ 0)%Z)
    as Hsame.
  { intros j y Hj Hy Hfb Hnow. destruct (decide (j = i)) as [->|Hji].
    - assert (y = x) as -> by congruence. by apply Hnow.
    - apply (Habs j y); [lia|done..]. }
  destruct (decide (f ≠ CORRECT)) as [Hnc|Hcor].
  - rewrite (getitem_Ok _ _ _ Hx), bind_Ok_l.
    destruct (counter_in x c) eqn:Hin.
    + destruct (decide (0 < counter_get c x)%Z) as [Hpos|Hnpos].
      * rewrite setitem_Ok by lia. rewrite bind_Ok_l. intros [= <-].
        intros j y Hj Hy Hfb. cbn [fst snd] in *.
        destruct (decide (j = i)) as [->|Hji].
        { rewrite list_lookup_insert_eq in Hfb by lia. done. }
        rewrite list_lookup_insert_ne in Hfb by done.
        rewrite counter_get_dec.
        pose proof (Habs j y ltac:(lia) Hy Hfb).
        destruct (decide (x = y)); lia.
      * intros [= <-]. intros j y Hj Hy Hfb. cbn [fst snd] in *.
        apply (Hsame j y); [done..|]. intros _. lia.
    + intros [= <-]. intros j y Hj Hy Hfb. cbn [fst snd] in *.
      apply (Hsame j y); [done..|]. intros _.
      rewrite counter_in_false by done. lia.
  - intros [= <-]. intros j y Hj Hy Hfb. cbn [fst snd] in *.
    apply (Hsame j y); [done..|]. intros ->.
    assert (f = CORRECT) as -> by (destruct (decide (f = CORRECT)); tauto).
    congruence.
Qed.

(** The oracle with the final counter: the invariant of the second pass
    together with [absent_inv]. *)
Lemma generate_feedback_final guess secret :
  length secret ≤ length guess →
  ∃ fb c, generate_feedback guess secret = Ok fb
    ∧ second_pass_inv guess secret (length secret) (fb, c)
    ∧ absent_inv guess (length secret) (fb, c).
Proof.
  intros Hlen. unfold generate_feedback.
  destruct (for_range_inv (first_pass_inv guess secret) (length secret)
              (first_pass guess secret)
              (replicate (length secret) ABSENT, Counter secret))
    as (st1 & -> & H1).
  { by apply first_pass_inv_init. }
  { by apply first_pass_step. }
  rewrite bind_Ok_l.
  destruct (for_range_inv
              (λ k st, second_pass_inv guess secret k st ∧ absent_inv guess k st)
              (length secret) (second_pass guess) st1)
    as ([fb c] & -> & H2 & H3).
  { split; [by apply first_to_second|]. intros i x Hi. lia. }
  { intros i st Hi [Hinv Habs].
    destruct (second_pass_step guess secret Hlen i st Hi Hinv)
      as (st' & Hrun & Hinv').
    exists st'. split_and!; [done..|].
    by apply (absent_inv_step guess secret i st). }
  rewrite bind_Ok_l. by exists fb, c.
Qed.

Lemma marked_le_guess L (g : Word) (fb : FeedbackPattern) :
  marked L g fb ≤ occurrences L g.
Proof.
  revert fb. induction g as [|x g IH]; intros fb; [(unfold marked; done)|].
  destruct fb as [|t fb]; [rewrite marked_nil_r; lia|].
  rewrite marked_cons, occurrences_cons. specialize (IH fb).
  destruct (decide (x = L)) as [->|Hne].
  - destruct (decide (L = L ∧ t ≠ ABSENT)); lia.
  - rewrite decide_False by tauto. lia.
Qed.

Lemma marked_all L (g : Word) (fb : FeedbackPattern) :
  length fb = length g →
  (∀ i, g !! i = Some L → fb !! i ≠ Some ABSENT) →
  marked L g fb = occurrences L g.
Proof.
  revert fb. induction g as [|x g IH]; intros fb Hlen Hall.
  - (unfold marked; done).
  - destruct fb as [|t fb]; [done|].
    rewrite marked_cons, occurrences_cons.
    rewrite (IH fb); [|cbn in Hlen; lia|intros i; apply (Hall (S i))].
    destruct (decide (x = L)) as [->|Hne].
    + rewrite decide_True; [done|]. split; [done|].
      intros ->. by apply (Hall 0).
    + rewrite decide_False by tauto. done.
Qed.

(** X1: for a guess and a secret of equal length the oracle returns a
    pattern of that length in which the tiles of a letter marked correct or
    present number exactly the lesser of the letter's occurrences in the
    guess and in the secret. *)
Theorem marked_tiles_exact (guess secret : Word) (L : ascii) :
  length guess = length secret →
  ∃ fb, generate_feedback guess secret = Ok fb
    ∧ length fb = length secret
    ∧ tiles L CORRECT guess fb + tiles L PRESENT guess fb
      = min (occurrences L guess) (occurrences L secret).
Proof.
  intros Hlen.
  destruct (generate_feedback_final guess secret) as (fb & c & Hrun & Hinv & Habs);
    [lia|].
  destruct Hinv as (Hl & _ & _ & Hm & Hd). cbn [fst snd] in *.
  exists fb. split_and!; [done..|]. rewrite tiles_split.
  pose proof (marked_le_guess L guess fb) as Hg.
  specialize (Hm L). specialize (Hd L).
  destruct (decide (counter_get c L = 0%Z)) as [H0|Hpos]; [lia|].
  assert (marked L guess fb = occurrences L guess) as Hall; [|lia].
  apply marked_all; [lia|]. intros i Hi Hfb.
  pose proof (Habs i L ltac:(apply lookup_lt_Some in Hi; lia) Hi Hfb) as Hle.
  cbn [fst snd] in Hle. lia.
Qed.

Lemma marked_tiles_exact_witness :
  length (str "speed") = length (str "abide")
  ∧ ∃ fb, generate_feedback (str "speed") (str "abide") = Ok fb
      ∧ length fb = length (str "abide")
      ∧ tiles "e" CORRECT (str "speed") fb + tiles "e" PRESENT (str "speed") fb
        = min (occurrences "e" (str "speed")) (occurrences "e" (str "abide")).
Proof.
  split; [reflexivity|].
  apply (marked_tiles_exact (str "speed") (str "abide") "e"%char). reflexivity.
Defined.

Lemma generate_feedback_self (w : Word) :
  generate_feedback w w = Ok (replicate (length w) CORRECT).
Proof.
  destruct (generate_feedback_Ok w w) as (fb & Hfb & Hl & Hc & _); [lia|].
  rewrite Hfb. f_equal. apply list_eq. intros i.
  destruct (decide (i < length w)) as [Hi|Hi].
  - rewrite lookup_replicate_2 by done. by apply Hc.
  - rewrite !lookup_ge_None_2; [done| |lia]. rewrite length_replicate. lia.
Qed.

Lemma all_correct_equal (guess secret : Word) :
  length guess = length secret →
  generate_feedback guess secret = Ok (replicate (length secret) CORRECT) →
  guess = secret.
Proof.
  intros Hlen Hrun.
  destruct (generate_feedback_Ok guess secret) as (fb & Hfb & Hl & Hc & _);
    [lia|].
  assert (fb = replicate (length secret) CORRECT) as -> by congruence.
  apply list_eq. intros i.
  destruct (decide (i < length secret)) as [Hi|Hi].
  - apply Hc; [done|]. by apply lookup_replicate_2.
  - rewrite !lookup_ge_None_2; [done|lia..].
Qed.

(** X2: for a guess of the secret's length the oracle returns the
    all-correct pattern exactly when the guess is the secret. *)
Theorem all_correct_iff_equal (guess secret : Word) :
  length guess = length secret →
  generate_feedback guess secret = Ok (replicate (length secret) CORRECT)
  ↔ guess = secret.
Proof.
  intros Hlen. split; [by apply all_correct_equal|].
  intros ->. apply generate_feedback_self.
Qed.

Lemma all_correct_iff_equal_witness :
  length (str "abide") = length (str "abide")
  ∧ generate_feedback (str "abide") (str "abide")
    = Ok (replicate (length (str "abide")) CORRECT).
Proof.
  split; [reflexivity|].
  apply (all_correct_iff_equal (str "abide") (str "abide")); reflexivity.
Defined.

(** ** The quick oracle on words of different lengths *)

Lemma first_pass_frame guess secret i fb c fb' c' :
  first_pass guess secret i (fb, c) = Ok (fb', c') →
  length fb' = length fb ∧ ∀ j, j ≠ i → fb' !! j = fb !! j.
Proof.
  unfold first_pass, getitem, setitem.
  destruct (guess !! i); [|done]. destruct (secret !! i); [|done].
  rewrite !bind_Ok_l. destruct (decide (a = a0)); [|by intros [= <- <-]].
  destruct (decide (i < length fb)); [|done]. rewrite bind_Ok_l.
  intros [= <- <-]. split; [by rewrite length_insert|].
  intros j Hj. by rewrite list_lookup_insert_ne.
Qed.

Lemma second_pass_frame guess i fb c fb' c' :
  second_pass guess i (fb, c) = Ok (fb', c') →
  length fb' = length fb ∧ ∀ j, j ≠ i → fb' !! j = fb !! j.
Proof.
  unfold second_pass, getitem, setitem.
  destruct (fb !! i) as [f|]; [|done]. rewrite bind_Ok_l.
  destruct (decide (f ≠ CORRECT)); [|by intros [= <- <-]].
  destruct (guess !! i) as [x|]; [|done]. rewrite bind_Ok_l.
  destruct (counter_in x c); [|by intros [= <- <-]].
  destruct (decide (0 < counter_get c x)%Z); [|by intros [= <- <-]].
  destruct (decide (i < length fb)); [|done]. rewrite bind_Ok_l.
  intros [= <- <-]. split; [by rewrite length_insert|].
  intros j Hj. by rewrite list_lookup_insert_ne.
Qed.

Lemma first_pass_returns guess secret i fb c :
  i < length guess → i < length secret → i < length fb →
  ∃ st', first_pass guess secret i (fb, c) = Ok st'.
Proof.
  intros Hg Hs Hf.
  destruct (lookup_lt_is_Some_2 guess i) as [x Hx]; [done|].
  destruct (lookup_lt_is_Some_2 secret i) as [y Hy]; [done|].
  unfold first_pass. rewrite (getitem_Ok _ _ _ Hx), (getitem_Ok _ _ _ Hy).
  rewrite !bind_Ok_l. destruct (decide (x = y)); [|by eexists].
  rewrite setitem_Ok by done. by eexists.
Qed.

Lemma second_pass_returns guess i fb c :
  i < length guess → i < length fb →
  ∃ st', second_pass guess i (fb, c) = Ok st'.
Proof.
  intros Hg Hf.
  destruct (lookup_lt_is_Some_2 guess i) as [x Hx]; [done|].
  destruct (lookup_lt_is_Some_2 fb i) as [f Hfi]; [done|].
  unfold second_pass. rewrite (getitem_Ok _ _ _ Hfi), bind_Ok_l.
  destruct (decide (f ≠ CORRECT)); [|by eexists].
  rewrite (getitem_Ok _ _ _ Hx), bind_Ok_l.
  destruct (counter_in x c); [|by eexists].
  destruct (decide (0 < counter_get c x)%Z); [|by eexists].
  rewrite setitem_Ok by done. by eexists.
Qed.

Lemma first_pass_padded guess secret m i st :
  i < m → m ≤ length guess → m ≤ length secret →
  padded m (length secret) st →
  ∃ st', first_pass guess secret i st = Ok st' ∧ padded m (length secret) st'.
Proof.
  intros Hi Hg Hs [Hl Hpad]. destruct st as [fb c]. cbn [fst snd] in *.
  destruct (first_pass_returns guess secret i fb c) as ([fb' c'] & Hrun);
    [lia..|].
  exists (fb', c'). split; [done|].
  destruct (first_pass_frame _ _ _ _ _ _ _ Hrun) as [Hl' Hsame].
  split; cbn [fst snd]; [lia|]. intros j Hj Hjn.
  rewrite Hsame by lia. by apply Hpad.
Qed.

Lemma second_pass_padded guess m n i st :
  i < m → m ≤ length guess → m ≤ n →
  padded m n st →
  ∃ st', second_pass guess i st = Ok st' ∧ padded m n st'.
Proof.
  intros Hi Hg Hs [Hl Hpad]. destruct st as [fb c]. cbn [fst snd] in *.
  destruct (second_pass_returns guess i fb c) as ([fb' c'] & Hrun); [lia..|].
  exists (fb', c'). split; [done|].
  destruct (second_pass_frame _ _ _ _ _ _ Hrun) as [Hl' Hsame].
  split; cbn [fst snd]; [lia|]. intros j Hj Hjn.
  rewrite Hsame by lia. by apply Hpad.
Qed.

Lemma quick_generate_feedback_pads (guess secret : Word) :
  length guess ≤ length secret →
  ∃ fb, QuickTrajectories.generate_feedback guess secret = Ok fb
    ∧ length fb = length secret
    ∧ ∀ j, length guess ≤ j → j < length secret → fb !! j = Some ABSENT.
Proof.
  intros Hlen. unfold QuickTrajectories.generate_feedback.
  change (QuickTrajectories.first_pass guess secret)
    with (first_pass guess secret).
  destruct (for_range_inv (λ _, padded (length guess) (length secret))
              (length guess) (first_pass guess secret)
              (replicate (length secret) ABSENT, Counter secret))
    as (st1 & -> & H1).
  { split; cbn [fst]; [apply length_replicate|].
    intros j _ Hj. by apply lookup_replicate_2. }
  { intros i st Hi. by apply first_pass_padded. }
  rewrite bind_Ok_l.
  rewrite (for_each_ext _ (QuickTrajectories.second_pass guess)
             (second_pass guess)) by (intros; apply quick_second_pass).
  destruct (for_range_inv (λ _, padded (length guess) (length secret))
              (length guess) (second_pass guess) st1)
    as ([fb c] & -> & Hl & Hpad); [done| |].
  { intros i st Hi. by apply second_pass_padded. }
  rewrite bind_Ok_l. by exists fb.
Qed.

Lemma first_pass_short_secret guess secret i st :
  i < length guess → length secret ≤ i →
  first_pass guess secret i st = Raise IndexError.
Proof.
  intros Hg Hs. destruct st as [fb c]. unfold first_pass.
  destruct (lookup_lt_is_Some_2 guess i) as [x Hx]; [done|].
  rewrite (getitem_Ok _ _ _ Hx), bind_Ok_l.
  by rewrite (getitem_Raise secret i).
Qed.

Lemma quick_generate_feedback_Raise (guess secret : Word) :
  length secret < length guess →
  QuickTrajectories.generate_feedback guess secret = Raise IndexError.
Proof.
  intros Hlen. unfold QuickTrajectories.generate_feedback.
  change (QuickTrajectories.first_pass guess secret)
    with (first_pass guess secret).
  set (k := length secret). set (n := length guess).
  assert (range n = range k ++ k :: seq (S k) (n - S k)) as ->.
  { unfold range. replace n with (k + S (n - S k)) at 1 by (unfold k, n; lia).
    rewrite seq_app. simpl. done. }
  rewrite for_each_app.
  destruct (for_range_inv (λ _, padded k k) k (first_pass guess secret)
              (replicate k ABSENT, Counter secret)) as ([fb c] & -> & _).
  { split; cbn [fst]; [apply length_replicate|]. intros j ? ?. lia. }
  { intros i st Hi. apply first_pass_padded; unfold k in *; lia. }
  rewrite bind_Ok_l. cbn [for_each].
  rewrite first_pass_short_secret; [done|unfold k, n in *; lia|done].
Qed.

(** X3: the oracle of the quick generator raises [IndexError] when the
    guess is longer than the secret; when the guess is shorter it returns a
    pattern of the secret's length whose tiles beyond the guess are all
    absent. *)
Theorem quick_oracle_length_mismatch (guess secret : Word) :
  (length secret < length guess →
     QuickTrajectories.generate_feedback guess secret = Raise IndexError)
  ∧ (length guess < length secret →
       ∃ fb, QuickTrajectories.generate_feedback guess secret = Ok fb
         ∧ length fb = length secret
         ∧ ∀ j, length guess ≤ j → j < length secret →
                fb !! j = Some ABSENT).
Proof.
  split.
  - apply quick_generate_feedback_Raise.
  - intros Hlen. apply quick_generate_feedback_pads. lia.
Qed.

Lemma quick_oracle_length_mismatch_witness :
  (length (str "abc") < length (str "abcd")
   ∧ QuickTrajectories.generate_feedback (str "abcd") (str "abc")
     = Raise IndexError)
  ∧ (length (str "ab") < length (str "abc")
     ∧ ∃ fb, QuickTrajectories.generate_feedback (str "ab") (str "abc") = Ok fb
         ∧ length fb = length (str "abc")
         ∧ ∀ j, length (str "ab") ≤ j → j < length (str "abc") →
                fb !! j = Some ABSENT).
Proof.
  split; split.
  - simpl. lia.
  - apply (quick_oracle_length_mismatch (str "abcd") (str "abc")). simpl. lia.
  - simpl. lia.
  - apply (quick_oracle_length_mismatch (str "ab") (str "abc")). simpl. lia.
Defined.

(** ** Composing filters *)

(** X4: when no word of the pool is longer than either guess, filtering
    the pool by two observations returns the same pool in either order: the
    words of the pool consistent with both observations, in their order. *)
Theorem filters_commute (pool : list Word) (g1 g2 : Word)
    (f1 f2 : FeedbackPattern) :
  fits g1 pool → fits g2 pool →
  ∃ p,
    (apply_feedback_to_candidates pool g1 f1
       ≫= (λ p1, apply_feedback_to_candidates p1 g2 f2)) = Ok p
    ∧ (apply_feedback_to_candidates pool g2 f2
         ≫= (λ p2, apply_feedback_to_candidates p2 g1 f1)) = Ok p
    ∧ p = filter (λ w, consistent g1 f1 w ∧ consistent g2 f2 w) pool.
Proof.
  intros H1 H2. eexists. split_and!; [| |done].
  - rewrite apply_feedback_to_candidates_eq, decide_True, bind_Ok_l by done.
    rewrite apply_feedback_to_candidates_eq.
    rewrite decide_True by by apply fits_filter.
    rewrite list_filter_filter. f_equal.
    apply list_filter_iff. tauto.
  - rewrite apply_feedback_to_candidates_eq, decide_True, bind_Ok_l by done.
    rewrite apply_feedback_to_candidates_eq.
    rewrite decide_True by by apply fits_filter.
    by rewrite list_filter_filter.
Qed.

Lemma filters_commute_witness :
  fits (str "abc") [str "abd"; str "abe"; str "xbc"]
  ∧ fits (str "xbe") [str "abd"; str "abe"; str "xbc"]
  ∧ ∃ p,
      (apply_feedback_to_candidates [str "abd"; str "abe"; str "xbc"]
         (str "abc") [CORRECT; CORRECT; ABSENT]
         ≫= (λ p1, apply_feedback_to_candidates p1 (str "xbe")
                      [ABSENT; CORRECT; CORRECT])) = Ok p
      ∧ (apply_feedback_to_candidates [str "abd"; str "abe"; str "xbc"]
           (str "xbe") [ABSENT; CORRECT; CORRECT]
           ≫= (λ p2, apply_feedback_to_candidates p2 (str "abc")
                        [CORRECT; CORRECT; ABSENT])) = Ok p.
Proof.
  assert (fits (str "abc") [str "abd"; str "abe"; str "xbc"]) as H1.
  { unfold fits. repeat constructor. }
  assert (fits (str "xbe") [str "abd"; str "abe"; str "xbc"]) as H2.
  { unfold fits. repeat constructor. }
  split; [exact H1|]. split; [exact H2|].
  destruct (filters_commute [str "abd"; str "abe"; str "xbc"]
              (str "abc") (str "xbe") [CORRECT; CORRECT; ABSENT]
              [ABSENT; CORRECT; CORRECT] H1 H2) as (p & Ha & Hb & _).
  exists p. split; done.
Defined.

(** ** [filter_candidates] *)

Lemma quick_consistent_iff guess feedback (w : Word) :
  length guess = length w →
  quick_consistent guess feedback w ↔ consistent guess feedback w.
Proof.
  intros Hlen. unfold quick_consistent, consistent.
  by rewrite quick_generate_feedback.
Qed.

Lemma check_pair_fits (w g : Word) (f : FeedbackPattern) (b : bool) :
  length g ≤ length w →
  QuickTrajectories.check_pair w (g, f) b
  = Ok (if decide (quick_consistent g f w) then (b, false) else (false, true)).
Proof.
  intros Hg. unfold QuickTrajectories.check_pair. cbn [fst snd].
  destruct (quick_generate_feedback_pads g w Hg) as (t & Ht & _).
  rewrite Ht, bind_Ok_l.
  destruct (decide (t ≠ f)) as [Hne|Heq].
  - rewrite decide_False; [done|]. unfold quick_consistent. congruence.
  - assert (t = f) as -> by (destruct (decide (t = f)); tauto).
    by rewrite decide_True.
Qed.

Lemma check_loop (w : Word) (history : list (Word * FeedbackPattern)) :
  history_fits history w →
  for_each_break history (QuickTrajectories.check_pair w) true
  = Ok (bool_decide (quick_survives history w)).
Proof.
  unfold history_fits, quick_survives.
  induction history as [|[g f] history IH]; intros Hfit.
  - by rewrite bool_decide_eq_true_2 by constructor.
  - apply Forall_cons_1 in Hfit as [Hg Hfit]. cbn [fst] in Hg.
    cbn [for_each_break]. rewrite check_pair_fits, bind_Ok_l by done.
    destruct (decide (quick_consistent g f w)) as [Hc|Hc].
    + rewrite IH by done. f_equal. apply bool_decide_ext. split.
      * intros Hall. by constructor.
      * intros Hall. by apply Forall_cons_1 in Hall as [_ ?].
    + f_equal. symmetry. apply bool_decide_eq_false_2. intros Hall.
      by apply Forall_cons_1 in Hall as [? _].
Qed.

Lemma keep_if_valid_fits guesses feedbacks (w : Word) acc :
  history_fits (zip guesses feedbacks) w →
  QuickTrajectories.keep_if_valid guesses feedbacks w acc
  = Ok (if decide (quick_survives (zip guesses feedbacks) w)
        then acc ++ [w] else acc).
Proof.
  intros Hw. unfold QuickTrajectories.keep_if_valid.
  rewrite check_loop, bind_Ok_l by done.
  destruct (decide (quick_survives (zip guesses feedbacks) w)) as [Hs|Hs].
  - by rewrite bool_decide_eq_true_2.
  - by rewrite bool_decide_eq_false_2.
Qed.

Lemma filter_candidates_loop (candidates : list Word) guesses feedbacks acc :
  Forall (history_fits (zip guesses feedbacks)) candidates →
  for_each candidates (QuickTrajectories.keep_if_valid guesses feedbacks) acc
  = Ok (acc ++ filter (quick_survives (zip guesses feedbacks)) candidates).
Proof.
  revert acc. induction candidates as [|w candidates IH]; intros acc Hfit.
  - cbn. by rewrite app_nil_r.
  - apply Forall_cons_1 in Hfit as [Hw Hfit]. cbn [for_each].
    rewrite keep_if_valid_fits, bind_Ok_l by done. rewrite filter_cons.
    rewrite IH by done.
    destruct (decide (quick_survives (zip guesses feedbacks) w)); [|done].
    by rewrite <- app_assoc.
Qed.

Lemma filter_candidates_eq (candidates guesses : list Word)
    (feedbacks : list FeedbackPattern) :
  Forall (history_fits (zip guesses feedbacks)) candidates →
  QuickTrajectories.filter_candidates candidates guesses feedbacks
  = Ok (filter (quick_survives (zip guesses feedbacks)) candidates).
Proof.
  intros Hfit. unfold QuickTrajectories.filter_candidates.
  by rewrite filter_candidates_loop.
Qed.

(** X5: when no guess of the history is longer than a candidate,
    [filter_candidates] returns, in their order, exactly the candidates for
    which the quick oracle gives the recorded feedback of every guess of the
    history. *)
Theorem filter_candidates_spec (candidates guesses : list Word)
    (feedbacks : list FeedbackPattern) :
  Forall (history_fits (zip guesses feedbacks)) candidates →
  ∃ valid,
    QuickTrajectories.filter_candidates candidates guesses feedbacks = Ok valid
    ∧ valid = filter (quick_survives (zip guesses feedbacks)) candidates
    ∧ valid `sublist_of` candidates
    ∧ ∀ w, w ∈ valid ↔
           w ∈ candidates
           ∧ ∀ g f, (g, f) ∈ zip guesses feedbacks →
                    QuickTrajectories.generate_feedback g w = Ok f.
Proof.
  intros Hfit. eexists. split; [by apply filter_candidates_eq|].
  split; [done|]. split; [apply sublist_filter|].
  intros w. rewrite list_elem_of_filter. unfold quick_survives.
  rewrite Forall_forall. split.
  - intros [Hall Hw]. split; [done|]. intros g f Hin. apply (Hall (g, f) Hin).
  - intros [Hw Hall]. split; [|done]. intros [g f] Hin. by apply Hall.
Qed.

Lemma filter_candidates_spec_witness :
  Forall (history_fits (zip [str "abc"; str "zzzzz"]
                          [[CORRECT; CORRECT; ABSENT]]))
    [str "abc"; str "abd"; str "xbcd"]
  ∧ ∃ valid,
      QuickTrajectories.filter_candidates [str "abc"; str "abd"; str "xbcd"]
        [str "abc"; str "zzzzz"] [[CORRECT; CORRECT; ABSENT]] = Ok valid
      ∧ valid `sublist_of` [str "abc"; str "abd"; str "xbcd"].
Proof.
  assert (Forall (history_fits (zip [str "abc"; str "zzzzz"]
                                  [[CORRECT; CORRECT; ABSENT]]))
            [str "abc"; str "abd"; str "xbcd"]) as Hfit.
  { unfold history_fits. repeat constructor. }
  split; [exact Hfit|].
  destruct (filter_candidates_spec _ _ _ Hfit) as (valid & Hrun & _ & Hsub & _).
  exists valid. split; [exact Hrun|exact Hsub].
Defined.

Lemma filter_ext_in {A} (P Q : A → Prop) `{∀ x, Decision (P x)}
    `{∀ x, Decision (Q x)} (l : list A) :
  (∀ x, x ∈ l → P x ↔ Q x) → filter P l = filter Q l.
Proof.
  induction l as [|x l IH]; intros Hext; [done|].
  rewrite !filter_cons.
  rewrite IH by (intros y Hy; apply Hext; by right).
  destruct (decide (P x)) as [Hp|Hp].
  - rewrite decide_True; [done|]. apply Hext; [left|done].
  - rewrite decide_False; [done|]. intros Hq. apply Hp, Hext; [left|done].
Qed.

Lemma filter_all {A} (P : A → Prop) `{∀ x, Decision (P x)} (l : list A) :
  (∀ x, P x) → filter P l = l.
Proof.
  intros HP. induction l as [|x l IH]; [done|].
  by rewrite filter_cons, decide_True, IH.
Qed.

Lemma filter_turn_by_turn_eq (pool : list Word)
    (history : list (Word * FeedbackPattern)) :
  Forall (λ gf : Word * FeedbackPattern, fits gf.1 pool) history →
  filter_turn_by_turn pool history
  = Ok (filter (λ w, Forall (λ gf, consistent gf.1 gf.2 w) history) pool).
Proof.
  unfold filter_turn_by_turn. revert pool.
  induction history as [|[g f] history IH]; intros pool Hfit.
  - cbn [for_each]. f_equal. symmetry. apply filter_all. constructor.
  - apply Forall_cons_1 in Hfit as [Hg Hfit]. cbn [fst] in Hg.
    cbn [for_each fst snd].
    rewrite apply_feedback_to_candidates_eq, decide_True, bind_Ok_l by done.
    rewrite IH.
    + rewrite list_filter_filter. f_equal. apply list_filter_iff.
      intros w. split.
      * intros [Hall Hc]. by constructor.
      * intros Hall. apply Forall_cons_1 in Hall as [? ?]. done.
    + eapply Forall_impl; [exact Hfit|]. intros gf Hgf. by apply fits_filter.
Qed.

(** X6: on candidates and guesses of one length, [filter_candidates] with
    the whole history returns what the filter of the optimal generator
    returns when applied once per observation of the history. *)
Theorem filter_candidates_is_turn_by_turn (n : nat)
    (candidates guesses : list Word) (feedbacks : list FeedbackPattern) :
  uniform n candidates → uniform n guesses →
  ∃ p, QuickTrajectories.filter_candidates candidates guesses feedbacks = Ok p
    ∧ filter_turn_by_turn candidates (zip guesses feedbacks) = Ok p.
Proof.
  intros Hc Hg.
  assert (Forall (λ gf : Word * FeedbackPattern, length gf.1 = n)
            (zip guesses feedbacks)) as Hzip.
  { rewrite Forall_forall. intros [g f] Hin.
    apply elem_of_zip_l in Hin. by apply (uniform_elem_of n guesses). }
  eexists. split.
  - apply filter_candidates_eq. rewrite Forall_forall. intros w Hw.
    unfold history_fits. eapply Forall_impl; [exact Hzip|].
    intros gf Hgf. cbn in Hgf. rewrite Hgf, (uniform_elem_of n candidates w); done.
  - rewrite filter_turn_by_turn_eq.
    + f_equal. apply filter_ext_in. intros w Hw. unfold quick_survives.
      rewrite !Forall_forall. split; intros Hall gf Hin.
      * apply quick_consistent_iff; [|by apply Hall].
        rewrite Forall_forall in Hzip.
        by rewrite (Hzip gf Hin), (uniform_elem_of n candidates w).
      * apply quick_consistent_iff; [|by apply Hall].
        rewrite Forall_forall in Hzip.
        by rewrite (Hzip gf Hin), (uniform_elem_of n candidates w).
    + eapply Forall_impl; [exact Hzip|]. intros gf Hgf.
      apply (uniform_fits n); done.
Qed.

Lemma filter_candidates_is_turn_by_turn_witness :
  uniform 3 [str "abd"; str "abe"; str "xbc"]
  ∧ uniform 3 [str "abc"; str "xbe"]
  ∧ ∃ p, QuickTrajectories.filter_candidates [str "abd"; str "abe"; str "xbc"]
           [str "abc"; str "xbe"]
           [[CORRECT; CORRECT; ABSENT]; [ABSENT; CORRECT; CORRECT]] = Ok p
      ∧ filter_turn_by_turn [str "abd"; str "abe"; str "xbc"]
          (zip [str "abc"; str "xbe"]
               [[CORRECT; CORRECT; ABSENT]; [ABSENT; CORRECT; CORRECT]]) = Ok p.
Proof.
  assert (uniform 3 [str "abd"; str "abe"; str "xbc"]) as Hc.
  { unfold uniform. repeat constructor. }
  assert (uniform 3 [str "abc"; str "xbe"]) as Hg.
  { unfold uniform. repeat constructor. }
  split; [exact Hc|]. split; [exact Hg|].
  exact (filter_candidates_is_turn_by_turn 3 _ _ _ Hc Hg).
Defined.

(** ** [play_smart_game] *)

Lemma first_guesses_lookup n :
  (3 ≤ n ≤ 7 →
   ∃ starters, dict_get QuickTrajectories.get_optimal_first_guesses n
               = Some starters)
  ∧ (n < 3 ∨ 7 < n →
     dict_get QuickTrajectories.get_optimal_first_guesses n = None).
Proof.
  do 8 (destruct n as [|n]; [split; [intros ?|intros ?]; try lia;
                             try (eexists; reflexivity); reflexivity|]).
  split; [lia|]. intros _. reflexivity.
Qed.

Lemma max_by_elem_of {A} (key : A → nat) (l : list A) :
  l ≠ [] → ∃ y, max_by key l = Ok y ∧ y ∈ l.
Proof.
  destruct l as [|x l]; [done|]. intros _. cbn [max_by]. eexists.
  split; [done|].
  revert x. induction l as [|z l IH]; intros x; cbn [foldl]; [left|].
  destruct (decide (key x < key z)).
  - right. apply IH.
  - specialize (IH x). apply elem_of_cons in IH as [->|?]; [left|].
    right. by right.
Qed.

Lemma first_guess_elem_of starters (candidates : list Word) :
  candidates ≠ [] →
  ∃ g, QuickTrajectories.first_guess starters candidates = Ok g
    ∧ g ∈ candidates.
Proof.
  destruct candidates as [|c0 candidates]; [done|]. intros _.
  unfold QuickTrajectories.first_guess.
  change (getitem (c0 :: candidates) 0) with (Ok c0). rewrite bind_Ok_l.
  eexists. split; [done|].
  destruct (head (filter _ starters)) as [w|] eqn:Hhead; cbn [default]; [|left].
  apply head_Some_elem_of in Hhead.
  by apply list_elem_of_filter in Hhead as [? _].
Qed.

Lemma choose_guess_elem_of starters attempt (candidates : list Word) :
  candidates ≠ [] →
  ∃ g, QuickTrajectories.choose_guess starters attempt candidates = Ok g
    ∧ g ∈ candidates.
Proof.
  intros Hne. unfold QuickTrajectories.choose_guess.
  destruct (decide (attempt = 0)); [by apply first_guess_elem_of|].
  destruct (decide (length candidates ≤ 2)); [|by apply max_by_elem_of].
  destruct candidates as [|c0 candidates]; [done|].
  exists c0. split; [done|left].
Qed.

Lemma Forall2_zip {A B} (R : A → B → Prop) (l : list A) (k : list B) x y :
  Forall2 R l k → (x, y) ∈ zip l k → R x y.
Proof.
  intros HR. induction HR as [|a b l k Hab HR IH]; cbn.
  - by intros ?%elem_of_nil.
  - intros [[= -> ->]|Hin]%elem_of_cons; [done|]. by apply IH.
Qed.

Lemma smart_turn_spec secret all_words starters attempt k st :
  smart_playing secret all_words k st →
  ∃ guess fb,
    guess ∈ QuickTrajectories.s_candidates st
    ∧ length guess = length secret
    ∧ generate_feedback guess secret = Ok fb
    ∧ QuickTrajectories.smart_turn secret starters attempt st
      = Ok (if decide (guess = secret) then (smart_win st guess fb, true)
            else (smart_miss st guess fb,
                  bool_decide (QuickTrajectories.s_candidates
                                 (smart_miss st guess fb) = []))).
Proof.
  intros (Hu & Hne & Hsub & Hwon & Hk & Hfb2 & Hug & Hns & Hgone & Hgsub
          & Hnd & Hsize & Hkeep).
  destruct (choose_guess_elem_of starters attempt _ Hne)
    as (guess & Hguess & Hin).
  pose proof (uniform_elem_of _ _ _ Hu Hin) as Hlen.
  destruct (generate_feedback_Ok guess secret) as (fb & Hfb & _); [lia|].
  exists guess, fb. split_and!; [done..|].
  unfold QuickTrajectories.smart_turn. rewrite Hguess, bind_Ok_l.
  rewrite quick_generate_feedback, Hfb, bind_Ok_l by done.
  destruct (decide (guess = secret)) as [->|Hmiss].
  - rewrite generate_feedback_self in Hfb. injection Hfb as <-.
    by rewrite decide_True.
  - rewrite decide_False.
    2:{ intros ->. by apply Hmiss, all_correct_equal. }
    rewrite filter_candidates_eq; [done|].
    rewrite Forall_forall. intros w Hw. unfold history_fits.
    rewrite Forall_forall. intros [g f] Hgf. cbn [fst].
    apply elem_of_zip_l in Hgf.
    rewrite (uniform_elem_of _ _ _ Hu Hw).
    apply elem_of_app in Hgf as [Hg|Hg%list_elem_of_singleton].
    + by rewrite (uniform_elem_of _ _ _ Hug Hg).
    + subst g. lia.
Qed.

(** A non-winning iteration keeps the loop invariant when candidates
    remain. *)
Lemma smart_miss_playing secret all_words k st guess fb :
  smart_playing secret all_words k st →
  guess ∈ QuickTrajectories.s_candidates st →
  generate_feedback guess secret = Ok fb →
  guess ≠ secret →
  (QuickTrajectories.s_candidates (smart_miss st guess fb) ≠ [] →
   smart_playing secret all_words (S k) (smart_miss st guess fb))
  ∧ length (QuickTrajectories.s_candidates (smart_miss st guess fb)) + S k
    ≤ length all_words
  ∧ (secret ∈ all_words →
     secret ∈ QuickTrajectories.s_candidates (smart_miss st guess fb)).
Proof.
  intros (Hu & Hne & Hsub & Hwon & Hk & Hfb2 & Hug & Hns & Hgone & Hgsub
          & Hnd & Hsize & Hkeep) Hin Hfb Hmiss.
  pose proof (uniform_elem_of _ _ _ Hu Hin) as Hlen.
  pose proof (Forall2_length _ _ _ Hfb2) as Hlens.
  set (cands := QuickTrajectories.s_candidates st) in *.
  set (gs := QuickTrajectories.s_guesses st) in *.
  set (fs := QuickTrajectories.s_feedbacks st) in *.
  assert (Forall2 (λ g f, generate_feedback g secret = Ok f)
            (gs ++ [guess]) (fs ++ [fb])) as Hfb2'.
  { apply Forall2_app; [done|]. by repeat constructor. }
  assert (uniform (length secret) (gs ++ [guess])) as Hug'.
  { unfold uniform in *. apply Forall_app. split; [done|]. by repeat constructor. }
  assert (guess ∉ filter (quick_survives (zip (gs ++ [guess]) (fs ++ [fb])))
                    cands) as Hout.
  { intros [Hs _]%list_elem_of_filter. unfold quick_survives in Hs.
    rewrite Forall_forall in Hs.
    assert ((guess, fb) ∈ zip (gs ++ [guess]) (fs ++ [fb])) as Hlast.
    { rewrite zip_with_app by done. apply elem_of_app. right. left. }
    specialize (Hs _ Hlast). unfold quick_consistent in Hs. cbn [fst snd] in Hs.
    rewrite quick_generate_feedback, generate_feedback_self in Hs by done.
    apply Hmiss, all_correct_equal; [done|]. rewrite Hfb. congruence. }
  assert (length (filter (quick_survives (zip (gs ++ [guess]) (fs ++ [fb])))
                    cands) < length cands) as Hshrink.
  { apply (length_filter_lt _ _ guess); [done|].
    intros Hs. apply Hout. by apply list_elem_of_filter. }
  assert (secret ∈ all_words →
          secret ∈ filter (quick_survives (zip (gs ++ [guess]) (fs ++ [fb])))
                     cands) as Hkeep'.
  { intros Hsec. apply list_elem_of_filter. split; [|by apply Hkeep].
    unfold quick_survives. rewrite Forall_forall. intros [g f] Hgf.
    unfold quick_consistent. cbn [fst snd].
    rewrite quick_generate_feedback.
    - by apply (Forall2_zip _ _ _ _ _ Hfb2').
    - apply elem_of_zip_l in Hgf. by apply (uniform_elem_of _ _ _ Hug'). }
  unfold smart_miss. cbn [QuickTrajectories.s_candidates].
  fold cands gs fs. split_and!; [|lia|done].
  intros Hne'. unfold smart_playing.
  cbn [QuickTrajectories.s_candidates QuickTrajectories.s_guesses
       QuickTrajectories.s_feedbacks QuickTrajectories.s_won].
  fold cands gs fs.
  split_and!; [by apply uniform_filter|done| |done| |done|done| | | | |lia|done].
  - intros w [_ Hw]%list_elem_of_filter. by apply Hsub.
  - rewrite length_app. cbn. lia.
  - intros [?|Hs%list_elem_of_singleton]%elem_of_app; [by destruct Hns|].
    by apply Hmiss.
  - intros g [Hg|Hg%list_elem_of_singleton]%elem_of_app.
    + intros [_ Hw]%list_elem_of_filter. by apply (Hgone g).
    + by subst g.
  - intros g [Hg|Hg%list_elem_of_singleton]%elem_of_app; [by apply Hgsub|].
    subst g. by apply Hsub.
  - apply NoDup_app. split_and!; [done| |apply NoDup_singleton].
    intros g Hg Hg'%list_elem_of_singleton. subst g. by apply (Hgone guess).
Qed.

Lemma smart_loop_from secret all_words starters (l : list nat) k st :
  smart_playing secret all_words k st →
  ∃ st', for_each_break l (QuickTrajectories.smart_turn secret starters) st
         = Ok st'
    ∧ smart_finished secret all_words (k + length l) st'
    ∧ k + min 1 (length l) ≤ length (QuickTrajectories.s_guesses st').
Proof.
  revert k st. induction l as [|i l IH]; intros k st Hplay.
  - destruct Hplay as (Hu & Hne & Hsub & Hwon & Hk & Hfb2 & Hug & Hns & Hgone
                       & Hgsub & Hnd & Hsize & Hkeep).
    exists st. split_and!; [done| |cbn; lia].
    unfold smart_finished. rewrite Hwon. cbn [length].
    split_and!; [lia|done| | |done|done|intros _; left; lia|lia|done].
    + split; [done|]. intros Hlast. destruct Hns.
      apply last_Some in Hlast as [l' ->]. apply elem_of_app. right. left.
    + split; [done|]. intros ?. by destruct Hns.
  - destruct (smart_turn_spec secret all_words starters i k st Hplay)
      as (guess & fb & Hin & Hlen & Hfb & Hturn).
    cbn [for_each_break]. rewrite Hturn, bind_Ok_l.
    destruct (decide (guess = secret)) as [->|Hmiss].
    + destruct Hplay as (Hu & Hne & Hsub & Hwon & Hk & Hfb2 & Hug & Hns
                         & Hgone & Hgsub & Hnd & Hsize & Hkeep).
      exists (smart_win st secret fb). cbn [length].
      split_and!; [done| |unfold smart_win; cbn; rewrite length_app; cbn; lia].
      unfold smart_finished, smart_win.
      cbn [QuickTrajectories.s_candidates QuickTrajectories.s_guesses
           QuickTrajectories.s_feedbacks QuickTrajectories.s_won].
      rewrite length_app, last_snoc. cbn [length].
      assert (0 < length (QuickTrajectories.s_candidates st)).
      { destruct (QuickTrajectories.s_candidates st); [done|cbn; lia]. }
      split_and!; [lia| |done| | | |done|lia|done].
      * apply Forall2_app; [done|]. by repeat constructor.
      * split; [|done]. intros _. apply elem_of_app. right. left.
      * intros g [Hg|Hg%list_elem_of_singleton]%elem_of_app; [by apply Hgsub|].
        subst g. by apply Hsub.
      * apply NoDup_app. split_and!; [done| |apply NoDup_singleton].
        intros g Hg Hg'%list_elem_of_singleton. subst g. by apply (Hgone secret).
    + destruct (smart_miss_playing secret all_words k st guess fb Hplay Hin Hfb
                  Hmiss) as (Hplay' & Hsize' & Hkeep').
      destruct Hplay as (Hu & Hne & Hsub & Hwon & Hk & Hfb2 & Hug & Hns
                         & Hgone & Hgsub & Hnd & Hsize & Hkeep).
      destruct (bool_decide _) eqn:Hempty.
      * apply bool_decide_eq_true in Hempty.
        exists (smart_miss st guess fb). cbn [length].
        split_and!; [done| |unfold smart_miss; cbn; rewrite length_app; cbn; lia].
        unfold smart_finished. rewrite Hempty.
        unfold smart_miss.
        cbn [QuickTrajectories.s_candidates QuickTrajectories.s_guesses
             QuickTrajectories.s_feedbacks QuickTrajectories.s_won].
        rewrite length_app, last_snoc. cbn [length].
        split_and!; [lia| | | | | |by right|lia|].
        -- apply Forall2_app; [done|]. by repeat constructor.
        -- split; [done|]. intros [= ->]. done.
        -- split; [done|].
           intros [?|Hs%list_elem_of_singleton]%elem_of_app;
             [by destruct Hns|by destruct Hmiss].
        -- intros g [Hg|Hg%list_elem_of_singleton]%elem_of_app;
             [by apply Hgsub|]. subst g. by apply Hsub.
        -- apply NoDup_app. split_and!; [done| |apply NoDup_singleton].
           intros g Hg Hg'%list_elem_of_singleton. subst g.
           by apply (Hgone guess).
        -- intros Hsec. specialize (Hkeep' Hsec). by rewrite Hempty in Hkeep'.
      * apply bool_decide_eq_false in Hempty.
        destruct (IH (S k) (smart_miss st guess fb) (Hplay' Hempty))
          as (st' & Hrun & Hfin & Hgrow).
        exists st'. cbn [length]. split_and!; [done| |lia].
        by replace (k + S (length l)) with (S k + length l) by lia.
Qed.

Lemma smart_initial_playing secret all_words :
  all_words ≠ [] → uniform (length secret) all_words →
  smart_playing secret all_words 0 (QuickTrajectories.smart_initial all_words).
Proof.
  intros Hne Hu. unfold smart_playing, QuickTrajectories.smart_initial.
  cbn [QuickTrajectories.s_candidates QuickTrajectories.s_guesses
       QuickTrajectories.s_feedbacks QuickTrajectories.s_won].
  split_and!; try done.
  - constructor.
  - apply not_elem_of_nil.
  - intros g ?%elem_of_nil. done.
  - intros g ?%elem_of_nil. done.
  - constructor.
  - lia.
Qed.

Lemma smart_loop_finished secret all_words starters max_guesses :
  all_words ≠ [] → uniform (length secret) all_words →
  ∃ st, QuickTrajectories.smart_loop secret starters all_words max_guesses
        = Ok st
    ∧ smart_finished secret all_words max_guesses st
    ∧ min 1 max_guesses ≤ length (QuickTrajectories.s_guesses st).
Proof.
  intros Hne Hu. unfold QuickTrajectories.smart_loop.
  destruct (smart_loop_from secret all_words starters (range max_guesses) 0
              (QuickTrajectories.smart_initial all_words))
    as (st & Hrun & Hfin & Hgrow).
  { by apply smart_initial_playing. }
  unfold range in *. rewrite length_seq in *. by exists st.
Qed.

Lemma Forall2_impl_elem {A B} (R R' : A → B → Prop) (l : list A) (k : list B) :
  Forall2 R l k → (∀ x y, x ∈ l → R x y → R' x y) → Forall2 R' l k.
Proof.
  intros HR. induction HR as [|a b l k Hab HR IH]; intros Himp; [constructor|].
  constructor; [apply Himp; [left|done]|].
  apply IH. intros x y Hx. apply Himp. by right.
Qed.

(** X7: [play_smart_game] raises [KeyError] for a secret of fewer than 3
    or more than 7 letters, whatever the dictionary; for a secret of 3 to 7
    letters and an empty dictionary it raises [IndexError] as soon as
    [max_guesses] is positive. *)
Theorem play_smart_game_errors (secret : Word) (all_words : list Word)
    (max_guesses : nat) :
  (length secret < 3 ∨ 7 < length secret →
     QuickTrajectories.play_smart_game secret all_words max_guesses = KeyError)
  ∧ (3 ≤ length secret ≤ 7 → 0 < max_guesses →
       QuickTrajectories.play_smart_game secret [] max_guesses
       = NoKeyError (Raise IndexError)).
Proof.
  unfold QuickTrajectories.play_smart_game. split.
  - intros Hlen. by rewrite (proj2 (first_guesses_lookup _) Hlen).
  - intros Hlen Hmax.
    destruct (proj1 (first_guesses_lookup _) Hlen) as [starters ->].
    destruct max_guesses as [|m]; [lia|]. reflexivity.
Qed.

Lemma play_smart_game_errors_witness :
  (7 < length (str "abcdefgh")
   ∧ QuickTrajectories.play_smart_game (str "abcdefgh") [str "abcdefgh"] 6
     = KeyError)
  ∧ (3 ≤ length (str "tea") ≤ 7 ∧ 0 < 6
     ∧ QuickTrajectories.play_smart_game (str "tea") [] 6
       = NoKeyError (Raise IndexError)).
Proof.
  split.
  - split; [cbn; lia|].
    apply (play_smart_game_errors (str "abcdefgh") [str "abcdefgh"] 6).
    right. cbn. lia.
  - split; [cbn; lia|]. split; [lia|].
    apply (play_smart_game_errors (str "tea") [] 6); cbn; lia.
Defined.

(** X8: for a secret of 3 to 7 letters and a non-empty dictionary of words
    of its length, [play_smart_game] returns guesses, feedbacks and a flag:
    at most [max_guesses] guesses (at least one when [max_guesses] is
    positive) and no more than the dictionary has words, all taken from the
    dictionary and pairwise distinct; each feedback is the oracle's answer to
    its guess; the flag is set exactly when the last guess is the secret,
    which is exactly when the secret was guessed at all. *)
Theorem play_smart_game_outcome (secret : Word) (all_words : list Word)
    (max_guesses : nat) :
  3 ≤ length secret ≤ 7 → all_words ≠ [] →
  uniform (length secret) all_words →
  ∃ gs fs ok,
    QuickTrajectories.play_smart_game secret all_words max_guesses
    = NoKeyError (Ok (gs, fs, ok))
    ∧ min 1 max_guesses ≤ length gs ≤ max_guesses
    ∧ length gs ≤ length all_words
    ∧ Forall2 (λ g f, QuickTrajectories.generate_feedback g secret = Ok f) gs fs
    ∧ (ok = true ↔ last gs = Some secret)
    ∧ (ok = true ↔ secret ∈ gs)
    ∧ gs ⊆ all_words
    ∧ NoDup gs.
Proof.
  intros Hlen Hne Hu. unfold QuickTrajectories.play_smart_game.
  destruct (proj1 (first_guesses_lookup _) Hlen) as [starters ->].
  destruct (smart_loop_finished secret all_words starters max_guesses Hne Hu)
    as (st & -> & (Hle & Hfb2 & Hlast & Hwon & Hsub & Hnd & Hlost & Hsize & _)
        & Hge).
  rewrite bind_Ok_l. do 3 eexists. split; [done|].
  split_and!; [lia|lia|lia| |done|done|done|done].
  eapply Forall2_impl_elem; [exact Hfb2|]. intros g f Hg Hgf.
  rewrite quick_generate_feedback; [done|].
  apply (uniform_elem_of _ all_words); [done|]. by apply Hsub.
Qed.

Lemma play_smart_game_outcome_witness :
  3 ≤ length (str "abd") ≤ 7
  ∧ [str "abc"; str "abd"; str "xbc"] ≠ []
  ∧ uniform (length (str "abd")) [str "abc"; str "abd"; str "xbc"]
  ∧ ∃ gs fs ok,
      QuickTrajectories.play_smart_game (str "abd")
        [str "abc"; str "abd"; str "xbc"] 6 = NoKeyError (Ok (gs, fs, ok))
      ∧ length gs ≤ 3
      ∧ (ok = true ↔ last gs = Some (str "abd"))
      ∧ NoDup gs.
Proof.
  assert (3 ≤ length (str "abd") ≤ 7) as Hlen by (cbn; lia).
  assert ([str "abc"; str "abd"; str "xbc"] ≠ []) as Hne by discriminate.
  assert (uniform (length (str "abd")) [str "abc"; str "abd"; str "xbc"])
    as Hu.
  { unfold uniform. repeat constructor. }
  split; [exact Hlen|]. split; [exact Hne|]. split; [exact Hu|].
  destruct (play_smart_game_outcome (str "abd")
              [str "abc"; str "abd"; str "xbc"] 6 Hlen Hne Hu)
    as (gs & fs & ok & Hrun & _ & Hsize & _ & Hlast & _ & _ & Hnd).
  exists gs, fs, ok. split_and!; done.
Defined.

(** X9: for a secret of 3 to 7 letters that is in a dictionary of words of
    its length with at most [max_guesses] words, [play_smart_game] wins: it
    returns the flag [True] and its last guess is the secret. *)
Theorem play_smart_game_wins_small (secret : Word) (all_words : list Word)
    (max_guesses : nat) :
  3 ≤ length secret ≤ 7 → uniform (length secret) all_words →
  secret ∈ all_words → length all_words ≤ max_guesses →
  ∃ gs fs,
    QuickTrajectories.play_smart_game secret all_words max_guesses
    = NoKeyError (Ok (gs, fs, true))
    ∧ last gs = Some secret.
Proof.
  intros Hlen Hu Hin Hsmall. unfold QuickTrajectories.play_smart_game.
  destruct (proj1 (first_guesses_lookup _) Hlen) as [starters ->].
  assert (all_words ≠ []) as Hne.
  { intros Hnil. rewrite Hnil in Hin. by apply elem_of_nil in Hin. }
  destruct (smart_loop_finished secret all_words starters max_guesses Hne Hu)
    as (st & -> & (Hle & Hfb2 & Hlast & Hwon & Hsub & Hnd & Hlost & Hsize
                   & Hkeep) & Hge).
  rewrite bind_Ok_l.
  destruct (QuickTrajectories.s_won st) eqn:Hw.
  - do 2 eexists. split; [done|]. by apply Hlast.
  - exfalso. specialize (Hkeep Hin).
    assert (0 < length (QuickTrajectories.s_candidates st)) as Hpos.
    { destruct (QuickTrajectories.s_candidates st);
        [by apply elem_of_nil in Hkeep|cbn; lia]. }
    destruct (Hlost eq_refl) as [Hmax|Hnil]; [lia|].
    rewrite Hnil in Hkeep. by apply elem_of_nil in Hkeep.
Qed.

Lemma play_smart_game_wins_small_witness :
  3 ≤ length (str "xbc") ≤ 7
  ∧ uniform (length (str "xbc")) [str "abc"; str "abd"; str "xbc"]
  ∧ str "xbc" ∈ [str "abc"; str "abd"; str "xbc"]
  ∧ length [str "abc"; str "abd"; str "xbc"] ≤ 6
  ∧ ∃ gs fs,
      QuickTrajectories.play_smart_game (str "xbc")
        [str "abc"; str "abd"; str "xbc"] 6 = NoKeyError (Ok (gs, fs, true))
      ∧ last gs = Some (str "xbc").
Proof.
  assert (3 ≤ length (str "xbc") ≤ 7) as Hlen by (cbn; lia).
  assert (uniform (length (str "xbc")) [str "abc"; str "abd"; str "xbc"])
    as Hu.
  { unfold uniform. repeat constructor. }
  assert (str "xbc" ∈ [str "abc"; str "abd"; str "xbc"]) as Hin.
  { right. right. left. }
  assert (length [str "abc"; str "abd"; str "xbc"] ≤ 6) as Hs by (cbn; lia).
  split; [exact Hlen|]. split; [exact Hu|]. split; [exact Hin|].
  split; [exact Hs|].
  exact (play_smart_game_wins_small _ _ 6 Hlen Hu Hin Hs).
Defined.

(** ** [play_optimal_game]: the recorded trajectory *)

Section game_record.
Context {FM : FloatOps} {FL : FloatLaws FM}.

(** Where the selector takes its word from. *)
Lemma get_optimal_guess_elem_of (pool all_words : list Word) n :
  pool ≠ [] → uniform n pool →
  ∃ g, get_optimal_guess pool all_words default_max_search = Ok g
    ∧ (g ∈ pool ∨ g ∈ all_words)
    ∧ (length pool ≤ 50 → g ∈ pool).
Proof.
  intros Hne Hu.
  destruct (decide (length pool < 3)) as [Hsmall|Hbig].
  - destruct pool as [|c0 pool']; [done|]. exists c0.
    split_and!; [|left; left|intros _; left].
    unfold get_optimal_guess.
    destruct (decide (length (c0 :: pool') = 1)); [done|].
    destruct (decide (length (c0 :: pool') = 2)); [done|].
    cbn [length] in *. lia.
  - destruct (get_optimal_guess_large pool all_words n ltac:(lia) Hu)
      as (E & extra & best & _ & HE & Hmid & _ & Hextra & _ & Hbest & Harg & _).
    exists best. split; [done|].
    destruct Harg as (i & _ & Hi & _). apply list_elem_of_lookup_2 in Hi.
    assert (∀ w, w ∈ (if decide (length pool ≤ 10) then pool
                      else take 20 pool) → w ∈ pool) as Hpart.
    { intros w. destruct (decide (length pool ≤ 10)); [done|].
      intros Hw. apply list_elem_of_lookup in Hw as [j Hj].
      apply lookup_take_Some in Hj as [Hj _].
      by apply list_elem_of_lookup_2 in Hj. }
    rewrite HE in Hi. split.
    + apply elem_of_app in Hi as [Hi|Hi]; [left; by apply Hpart|].
      right. by apply Hextra.
    + intros H50. rewrite (Hmid H50), app_nil_r in Hi. by apply Hpart.
Qed.

Lemma consistent_guess_is_secret (guess secret : Word) fb :
  length guess = length secret →
  generate_feedback guess secret = Ok fb → consistent guess fb guess →
  guess = secret.
Proof.
  intros Hlen Hfb Hself. unfold consistent in Hself.
  rewrite generate_feedback_self in Hself. injection Hself as <-.
  apply all_correct_equal; [done|]. by rewrite Hfb, Hlen.
Qed.

Lemma after_miss_tracking secret all_words k st guess fb :
  playing secret k st → tracking secret all_words st →
  length guess = length secret →
  (guess ∈ candidates st ∨ guess ∈ all_words) →
  (length (candidates st) ≤ 50 → guess ∈ candidates st) →
  generate_feedback guess secret = Ok fb → guess ≠ secret →
  tracking secret all_words (after_miss st guess fb).
Proof.
  intros (Hu & Hne & Hwon & Hnot & Hg & Hf)
         (Hsub & Hfb2 & Hug & Hgsub & Hsmall) Hlen Hfrom Hcand Hfb Hmiss.
  unfold tracking, after_miss. cbn [candidates guesses feedbacks won].
  split_and!.
  - intros w [_ Hw]%list_elem_of_filter. by apply Hsub.
  - apply Forall2_app; [done|]. by repeat constructor.
  - unfold uniform in *. apply Forall_app. split; [done|].
    by repeat constructor.
  - intros g [Hin|Hin%list_elem_of_singleton]%elem_of_app; [by apply Hgsub|].
    subst g. destruct Hfrom as [Hc|Ha]; [by apply Hsub|done].
  - intros H50. destruct (Hsmall H50) as (Hc50 & Hnd & Hgone & Hsize).
    specialize (Hcand Hc50).
    assert (guess ∉ filter (consistent guess fb) (candidates st)) as Hout.
    { intros [Hs _]%list_elem_of_filter.
      by apply Hmiss, (consistent_guess_is_secret guess secret fb). }
    assert (length (filter (consistent guess fb) (candidates st))
            < length (candidates st)) as Hshrink.
    { apply (length_filter_lt _ _ guess); [done|].
      intros Hs. apply Hout. by apply list_elem_of_filter. }
    rewrite length_app. cbn [length]. split_and!; [lia| | |lia].
    + apply NoDup_app. split_and!; [done| |apply NoDup_singleton].
      intros g Hin Hin'%list_elem_of_singleton. subst g.
      by apply (Hgone guess).
    + intros g [Hin|Hin%list_elem_of_singleton]%elem_of_app.
      * intros [_ Hw]%list_elem_of_filter. by apply (Hgone g).
      * by subst g.
Qed.

Lemma after_miss_playing secret k st guess fb :
  playing secret k st → guess ≠ secret →
  candidates (after_miss st guess fb) ≠ [] →
  playing secret (S k) (after_miss st guess fb).
Proof.
  intros (Hu & Hne & Hwon & Hnot & Hg & Hf) Hmiss Hne'.
  unfold playing, after_miss in *.
  cbn [guesses feedbacks won candidates] in *.
  rewrite !length_app. cbn [length].
  split_and!; [by apply uniform_filter|done|done| |lia|lia].
  intros [?|Hin%list_elem_of_singleton]%elem_of_app;
    [by destruct Hnot|congruence].
Qed.

Lemma tracking_tracked secret all_words k st :
  playing secret k st → tracking secret all_words st →
  tracked secret all_words st.
Proof.
  intros (Hu & Hne & Hwon & Hnot & Hg & Hf)
         (Hsub & Hfb2 & Hug & Hgsub & Hsmall).
  unfold tracked. rewrite Hwon. split_and!; [done..|].
  intros H50. destruct (Hsmall H50) as (_ & Hnd & _ & Hsize).
  split; [done|lia].
Qed.

Lemma play_loop_tracked secret all_words (l : list nat) k st :
  playing secret k st → tracking secret all_words st →
  ∃ st', for_each_break l (turn secret all_words) st = Ok st'
    ∧ tracked secret all_words st'.
Proof.
  revert k st. induction l as [|i l IH]; intros k st Hplay Htrack.
  - exists st. split; [done|]. by apply (tracking_tracked _ _ k).
  - pose proof Hplay as (Hu & Hne & Hwon & Hnot & Hg & Hf).
    pose proof Htrack as (Hsub & Hfb2 & Hug & Hgsub & Hsmall).
    destruct (turn_spec secret all_words i st Hne Hu)
      as (guess & fb & Hsel & Hlen & Hfb & Hturn).
    destruct (get_optimal_guess_elem_of (candidates st) all_words _ Hne Hu)
      as (g' & Hsel' & Hfrom & Hcand).
    assert (g' = guess) as -> by congruence.
    cbn [for_each_break]. rewrite Hturn, bind_Ok_l.
    destruct (decide (guess = secret)) as [->|Hmiss].
    + exists (after_win st secret fb). cbn [fst snd]. split; [done|].
      unfold tracked, after_win. cbn [candidates guesses feedbacks won].
      split_and!.
      * apply Forall2_app; [done|]. by repeat constructor.
      * unfold uniform in *. apply Forall_app. split; [done|].
        by repeat constructor.
      * intros g [Hin|Hin%list_elem_of_singleton]%elem_of_app;
          [by apply Hgsub|].
        subst g. destruct Hfrom as [Hc|Ha]; [by apply Hsub|done].
      * intros H50. destruct (Hsmall H50) as (Hc50 & Hnd & Hgone & Hsize).
        specialize (Hcand Hc50). rewrite length_app. cbn [length].
        assert (0 < length (candidates st)).
        { destruct (candidates st); [done|cbn; lia]. }
        split; [|lia].
        apply NoDup_app. split_and!; [done| |apply NoDup_singleton].
        intros g Hin Hin'%list_elem_of_singleton. by subst g.
    + pose proof (after_miss_tracking secret all_words k st guess fb Hplay
                    Htrack Hlen Hfrom Hcand Hfb Hmiss) as Htrack'.
      destruct (bool_decide _) eqn:Hempty.
      * apply bool_decide_eq_true in Hempty.
        exists (after_miss st guess fb). cbn [fst snd]. split; [done|].
        destruct Htrack' as (_ & Hfb2' & Hug' & Hgsub' & Hsmall').
        unfold tracked. split_and!; [done..|].
        intros H50. destruct (Hsmall' H50) as (_ & Hnd' & _ & Hsize').
        split; [done|]. destruct (won _); lia.
      * apply bool_decide_eq_false in Hempty.
        assert (candidates (after_miss st guess fb) ≠ []) as Hne'.
        { intros Hnil. apply Hempty. by rewrite Hnil. }
        destruct (IH (S k) (after_miss st guess fb)) as (st' & Hrun & Hfin).
        { by apply after_miss_playing. }
        { done. }
        exists st'. cbn [fst snd]. by split.
Qed.

Lemma initial_state_tracking secret (all_words : list Word) :
  tracking secret all_words (initial_state all_words).
Proof.
  unfold tracking, initial_state. cbn [candidates guesses feedbacks won].
  split_and!; [done|constructor|constructor|by intros g ?%elem_of_nil|].
  intros H50. split_and!; [done|constructor|by intros g ?%elem_of_nil|].
  cbn. lia.
Qed.

(** The game on a non-empty dictionary of words of the length of the
    secret, with the record of the game. *)
Lemma play_loop_record secret all_words max_guesses :
  all_words ≠ [] → uniform (length secret) all_words →
  ∃ st, play_loop secret all_words max_guesses = Ok st
    ∧ finished secret max_guesses st
    ∧ tracked secret all_words st
    ∧ (secret ∈ all_words → secret ∈ candidates st).
Proof.
  intros Hne Hu.
  destruct (play_loop_finished secret all_words max_guesses Hne Hu)
    as (st & Hrun & Hfin & _ & Hkeep).
  destruct (play_loop_tracked secret all_words (range max_guesses) 0
              (initial_state all_words)) as (st' & Hrun' & Htracked).
  { by apply initial_state_playing. }
  { apply initial_state_tracking. }
  unfold play_loop in Hrun. assert (st' = st) as -> by congruence.
  by exists st.
Qed.

End game_record.

(** X10: on a non-empty dictionary of words of the secret's length the
    trajectory of [play_optimal_game] records the secret, guesses that are
    dictionary words of the secret's length, and for each guess the oracle's
    feedback against the secret, of the secret's length. *)
Theorem play_optimal_game_record {FM : FloatOps} {FL : FloatLaws FM}
    (secret : Word) (all_words : list Word) (max_guesses : nat) :
  all_words ≠ [] → uniform (length secret) all_words →
  ∃ traj,
    play_optimal_game secret all_words max_guesses = Ok traj
    ∧ t_secret traj = secret
    ∧ Forall2 (λ g f, generate_feedback g secret = Ok f)
        (t_guesses traj) (t_feedbacks traj)
    ∧ uniform (length secret) (t_guesses traj)
    ∧ Forall (λ f : FeedbackPattern, length f = length secret)
        (t_feedbacks traj)
    ∧ t_guesses traj ⊆ all_words.
Proof.
  intros Hne Hu.
  destruct (play_loop_record secret all_words max_guesses Hne Hu)
    as (st & Hrun & _ & (Hfb2 & Hug & Hgsub & _) & _).
  unfold play_optimal_game. rewrite Hrun, bind_Ok_l.
  eexists. split; [done|]. cbn [t_secret t_guesses t_feedbacks].
  split_and!; [done..| |done].
  clear Hrun Hgsub. induction Hfb2 as [|g f gs fs Hgf Hrest IH];
    [constructor|].
  apply Forall_cons_1 in Hug as [Hg Hgs]. constructor; [|by apply IH].
  destruct (generate_feedback_Ok g secret) as (fb & Hfb & Hl & _); [lia|].
  congruence.
Qed.

Lemma play_optimal_game_record_witness :
  FloatLaws real_arithmetic
  ∧ [str "abc"; str "abd"; str "xbc"] ≠ []
  ∧ uniform (length (str "abd")) [str "abc"; str "abd"; str "xbc"]
  ∧ ∃ traj,
      play_optimal_game (FM := real_arithmetic) (str "abd")
        [str "abc"; str "abd"; str "xbc"] default_max_guesses = Ok traj
      ∧ Forall2 (λ g f, generate_feedback g (str "abd") = Ok f)
          (t_guesses traj) (t_feedbacks traj)
      ∧ t_guesses traj ⊆ [str "abc"; str "abd"; str "xbc"].
Proof.
  assert ([str "abc"; str "abd"; str "xbc"] ≠ []) as Hne by discriminate.
  assert (uniform (length (str "abd")) [str "abc"; str "abd"; str "xbc"])
    as Hu.
  { unfold uniform. repeat constructor. }
  split; [exact real_arithmetic_laws|].
  split; [exact Hne|]. split; [exact Hu|].
  destruct (play_optimal_game_record (FM := real_arithmetic)
              (FL := real_arithmetic_laws) (str "abd")
              [str "abc"; str "abd"; str "xbc"] default_max_guesses Hne Hu)
    as (traj & Hplay & _ & Hfb2 & _ & _ & Hsub).
  exists traj. split_and!; done.
Defined.

(** X11: on a non-empty dictionary of at most 50 words of the secret's
    length [play_optimal_game] never repeats a guess and makes no more
    guesses than the dictionary has words; when the secret is in the
    dictionary and [max_guesses] is at least the number of words, the game
    is won with the secret as last guess. *)
Theorem play_optimal_game_small_dictionary {FM : FloatOps}
    {FL : FloatLaws FM} (secret : Word) (all_words : list Word)
    (max_guesses : nat) :
  all_words ≠ [] → uniform (length secret) all_words →
  length all_words ≤ 50 →
  ∃ traj,
    play_optimal_game secret all_words max_guesses = Ok traj
    ∧ NoDup (t_guesses traj)
    ∧ t_num_guesses traj ≤ length all_words
    ∧ (secret ∈ all_words → length all_words ≤ max_guesses →
       t_won traj = true ∧ last (t_guesses traj) = Some secret).
Proof.
  intros Hne Hu H50.
  destruct (play_loop_record secret all_words max_guesses Hne Hu)
    as (st & Hrun & (Hle & Hfb & Hwon & Hlast & Hlost)
        & (_ & _ & _ & Hsmall) & Hkeep).
  destruct (Hsmall H50) as [Hnd Hsize].
  unfold play_optimal_game. rewrite Hrun, bind_Ok_l.
  eexists. split; [done|]. cbn [t_guesses t_won t_num_guesses].
  split_and!; [done|lia|].
  intros Hin Hmax. specialize (Hkeep Hin).
  assert (0 < length (candidates st)) as Hpos.
  { destruct (candidates st); [by apply elem_of_nil in Hkeep|cbn; lia]. }
  destruct (won st) eqn:Hw; [by split; [|apply Hlast]|].
  exfalso. destruct (Hlost eq_refl) as [Hfull|Hnil]; [lia|].
  rewrite Hnil in Hpos. cbn in Hpos. lia.
Qed.

Lemma play_optimal_game_small_dictionary_witness :
  FloatLaws real_arithmetic
  ∧ [str "abc"; str "abd"; str "xbc"] ≠ []
  ∧ uniform (length (str "xbc")) [str "abc"; str "abd"; str "xbc"]
  ∧ length [str "abc"; str "abd"; str "xbc"] ≤ 50
  ∧ str "xbc" ∈ [str "abc"; str "abd"; str "xbc"]
  ∧ length [str "abc"; str "abd"; str "xbc"] ≤ default_max_guesses
  ∧ ∃ traj,
      play_optimal_game (FM := real_arithmetic) (str "xbc")
        [str "abc"; str "abd"; str "xbc"] default_max_guesses = Ok traj
      ∧ NoDup (t_guesses traj)
      ∧ t_won traj = true.
Proof.
  assert ([str "abc"; str "abd"; str "xbc"] ≠ []) as Hne by discriminate.
  assert (uniform (length (str "xbc")) [str "abc"; str "abd"; str "xbc"])
    as Hu.
  { unfold uniform. repeat constructor. }
  assert (length [str "abc"; str "abd"; str "xbc"] ≤ 50) as H50
    by (cbn; lia).
  assert (str "xbc" ∈ [str "abc"; str "abd"; str "xbc"]) as Hin.
  { right. right. left. }
  assert (length [str "abc"; str "abd"; str "xbc"] ≤ default_max_guesses)
    as Hmax by (unfold default_max_guesses; cbn; lia).
  split; [exact real_arithmetic_laws|].
  split; [exact Hne|]. split; [exact Hu|]. split; [exact H50|].
  split; [exact Hin|]. split; [exact Hmax|].
  destruct (play_optimal_game_small_dictionary (FM := real_arithmetic)
              (FL := real_arithmetic_laws) (str "xbc")
              [str "abc"; str "abd"; str "xbc"] default_max_guesses
              Hne Hu H50)
    as (traj & Hplay & Hnd & _ & Hwin).
  exists traj. split_and!; [done|done|]. by apply Hwin.
Defined.

(** X12: on an empty dictionary [play_optimal_game] raises [IndexError] as
    soon as [max_guesses] is positive. *)
Theorem play_optimal_game_empty_dictionary {FM : FloatOps} (secret : Word)
    (max_guesses : nat) :
  0 < max_guesses →
  play_optimal_game secret [] max_guesses = Raise IndexError.
Proof.
  intros Hmax. destruct max_guesses as [|m]; [lia|]. reflexivity.
Qed.

Lemma play_optimal_game_empty_dictionary_witness :
  0 < default_max_guesses
  ∧ play_optimal_game (FM := real_arithmetic) (str "abc") []
      default_max_guesses = Raise IndexError.
Proof.
  assert (0 < default_max_guesses) as Hmax
    by (unfold default_max_guesses; lia).
  split; [exact Hmax|].
  exact (play_optimal_game_empty_dictionary (FM := real_arithmetic)
           (str "abc") default_max_guesses Hmax).
Defined.

(** X13: [get_optimal_guess] raises [IndexError] on an empty pool; on a
    non-empty pool of words of one length it returns, with the default
    [max_search], a word of that length which is a word of the pool or of the
    dictionary, and a word of the pool when the pool has at most 50
    words. *)
Theorem get_optimal_guess_source {FM : FloatOps} {FL : FloatLaws FM}
    (pool all_words : list Word) (n : nat) :
  (∀ max_search, get_optimal_guess [] all_words max_search = Raise IndexError)
  ∧ (pool ≠ [] → uniform n pool →
     ∃ g, get_optimal_guess pool all_words default_max_search = Ok g
       ∧ length g = n
       ∧ (g ∈ pool ∨ g ∈ all_words)
       ∧ (length pool ≤ 50 → g ∈ pool)).
Proof.
  split.
  - intros max_search. unfold get_optimal_guess, words_to_evaluate.
    cbn [length]. rewrite !decide_False by lia.
    rewrite decide_True by lia. rewrite bind_Ok_l.
    by destruct (decide (max_search < 0)).
  - intros Hne Hu.
    destruct (get_optimal_guess_elem_of pool all_words n Hne Hu)
      as (g & Hg & Hfrom & Hcand).
    destruct (get_optimal_guess_Ok pool all_words n Hne Hu)
      as (g' & Hg' & Hlen).
    assert (g' = g) as -> by congruence.
    by exists g.
Qed.

Lemma get_optimal_guess_source_witness :
  FloatLaws real_arithmetic
  ∧ [str "abc"; str "abd"; str "xbc"] ≠ []
  ∧ uniform 3 [str "abc"; str "abd"; str "xbc"]
  ∧ ∃ g, get_optimal_guess (FM := real_arithmetic)
           [str "abc"; str "abd"; str "xbc"] [] default_max_search = Ok g
      ∧ g ∈ [str "abc"; str "abd"; str "xbc"].
Proof.
  assert ([str "abc"; str "abd"; str "xbc"] ≠ []) as Hne by discriminate.
  assert (uniform 3 [str "abc"; str "abd"; str "xbc"]) as Hu.
  { unfold uniform. repeat constructor. }
  split; [exact real_arithmetic_laws|].
  split; [exact Hne|]. split; [exact Hu|].
  destruct (proj2 (get_optimal_guess_source (FM := real_arithmetic)
                     (FL := real_arithmetic_laws)
                     [str "abc"; str "abd"; str "xbc"] [] 3) Hne Hu)
    as (g & Hg & _ & _ & Hcand).
  exists g. split; [exact Hg|]. apply Hcand. cbn. lia.
Defined.

(** ** Loops over nested and mapped lists *)

Lemma for_each_fmap {A B St} (g : A → B) (l : list A)
    (body : B → St → result St) st :
  for_each (g <$> l) body st = for_each l (λ x, body (g x)) st.
Proof.
  revert st. induction l as [|x l IH]; intros st; [done|].
  rewrite fmap_cons. cbn [for_each].
  destruct (body (g x) st) as [st'|e]; [|done].
  rewrite !bind_Ok_l. apply IH.
Qed.

Lemma for_each_concat {A St} (ls : list (list A))
    (body : A → St → result St) st :
  for_each (concat ls) body st
  = for_each ls (λ l st, for_each l body st) st.
Proof.
  revert st. induction ls as [|l ls IH]; intros st; [done|].
  cbn [concat for_each]. rewrite for_each_app.
  destruct (for_each l body st) as [st'|e]; [|done].
  rewrite !bind_Ok_l. apply IH.
Qed.

Lemma for_each_recorded {St} guesses feedbacks
    (body : ascii * tile → St → result St) st :
  for_each (zip guesses feedbacks)
    (λ gf st, for_each (zip gf.1 gf.2) body st) st
  = for_each (recorded guesses feedbacks) body st.
Proof. unfold recorded. by rewrite for_each_concat, for_each_fmap. Qed.

Lemma for_each_placed {St} guesses feedbacks
    (body : nat * (ascii * tile) → St → result St) st :
  for_each (zip guesses feedbacks)
    (λ gf st, for_each (enumerate (zip gf.1 gf.2)) body st) st
  = for_each (placed guesses feedbacks) body st.
Proof. unfold placed. by rewrite for_each_concat, for_each_fmap. Qed.

(** A loop whose body keeps [P] on the good items and raises on the others
    returns on a list of good items. *)
Lemma for_each_all_good {A St} (good : A → Prop) (P : St → Prop)
    (l : list A) (body : A → St → result St) st :
  (∀ x st, P st → good x → ∃ st', body x st = Ok st' ∧ P st') →
  P st → Forall good l → ∃ st', for_each l body st = Ok st' ∧ P st'.
Proof.
  intros Hgood. revert st. induction l as [|x l IH]; intros st HP Hall.
  - by exists st.
  - apply Forall_cons_1 in Hall as [Hx Hl].
    destruct (Hgood x st HP Hx) as (st1 & Hb & HP1).
    cbn [for_each]. rewrite Hb, bind_Ok_l. by apply IH.
Qed.

(** ... and raises at the first other item. *)
Lemma for_each_first_bad {A St} (good : A → Prop) `{∀ x, Decision (good x)}
    (P : St → Prop) (e : exn) (l : list A) (body : A → St → result St) st :
  (∀ x st, P st → good x → ∃ st', body x st = Ok st' ∧ P st') →
  (∀ x st, P st → ¬ good x → body x st = Raise e) →
  P st → ¬ Forall good l → for_each l body st = Raise e.
Proof.
  intros Hgood Hbad. revert st. induction l as [|x l IH]; intros st HP Hnot.
  - destruct Hnot. constructor.
  - cbn [for_each]. destruct (decide (good x)) as [Hx|Hx].
    + destruct (Hgood x st HP Hx) as (st1 & Hb & HP1).
      rewrite Hb, bind_Ok_l. apply IH; [done|].
      intros Hl. apply Hnot. by constructor.
    + by rewrite (Hbad x st HP Hx).
Qed.

(** ** Indices *)

Lemma index_nat size (k : nat) : k < size → index size (Z.of_nat k) = Ok k.
Proof.
  intros Hk. unfold index. rewrite decide_True by lia.
  by rewrite Nat2Z.id.
Qed.

Lemma index_window size i :
  (- Z.of_nat size ≤ i < Z.of_nat size)%Z →
  index size i = Ok (Z.to_nat (i `mod` Z.of_nat size)).
Proof.
  intros Hi. unfold index.
  destruct (decide (0 ≤ i < Z.of_nat size)%Z) as [Hpos|Hneg].
  - by rewrite Z.mod_small.
  - rewrite decide_True by lia. do 2 f_equal.
    rewrite <- (Z.mod_small (Z.of_nat size + i) (Z.of_nat size)) by lia.
    rewrite Z.add_comm.
    rewrite <- (Z.mul_1_l (Z.of_nat size)) at 1.
    by rewrite Z.mod_add by lia.
Qed.

Lemma index_lt size i k : index size i = Ok k → k < size.
Proof.
  unfold index. destruct (decide _); [intros [= <-]; lia|].
  destruct (decide _); [intros [= <-]; lia|done].
Qed.

Lemma index_Raise size i :
  ¬ (- Z.of_nat size ≤ i < Z.of_nat size)%Z → index size i = Raise IndexError.
Proof.
  intros Hi. unfold index.
  rewrite decide_False by lia. by rewrite decide_False by lia.
Qed.

Lemma row_of_lt c : row_of c < 26.
Proof.
  unfold row_of.
  pose proof (Z.mod_pos_bound (ord c - ord "a") 26 ltac:(lia)). lia.
Qed.

Lemma index_letter c :
  in_window c → index 26 (ord c - ord "a") = Ok (row_of c).
Proof. intros Hc. by rewrite index_window. Qed.

(** ** Arrays as lists of rows *)

Lemma length_concat_uniform {A} (w : nat) (ls : list (list A)) :
  Forall (λ row, length row = w) ls → length (concat ls) = length ls * w.
Proof.
  induction 1 as [|row ls Hrow _ IH]; [done|].
  cbn [concat length]. rewrite length_app. lia.
Qed.

Lemma lookup_concat_uniform {A} (w : nat) (ls : list (list A)) r c :
  Forall (λ row, length row = w) ls → c < w →
  concat ls !! (r * w + c) = ls !! r ≫= (λ row, row !! c).
Proof.
  intros Hall Hc. revert r.
  induction Hall as [|row ls Hrow _ IH]; intros r; [done|].
  cbn [concat]. destruct r as [|r].
  - cbn. rewrite lookup_app_l by lia. done.
  - rewrite lookup_app_r by lia.
    replace (S r * w + c - length row) with (r * w + c) by lia.
    apply IH.
Qed.

(** ** [encode_game_state]: the letter table *)

Lemma last_state_snoc r tiles (lt : ascii * tile) :
  last_state r (tiles ++ [lt])
  = if decide (row_of lt.1 = r) then UnifiedModel.state_map lt.2
    else last_state r tiles.
Proof. unfold last_state. by rewrite foldl_app. Qed.

Lemma letter_table_lookup tiles r :
  r < 26 → letter_table tiles !! r = Some (one_hot 4 (last_state r tiles)).
Proof.
  intros Hr. unfold letter_table. rewrite list_lookup_fmap.
  by rewrite lookup_seq_lt.
Qed.

Lemma length_letter_table tiles : length (letter_table tiles) = 26.
Proof. unfold letter_table. by rewrite length_fmap, length_seq. Qed.

Lemma letter_table_rows tiles :
  Forall (λ row : list Z, length row = 4) (letter_table tiles).
Proof.
  unfold letter_table. rewrite Forall_fmap. apply Forall_forall.
  intros r _. change (length (one_hot 4 (last_state r tiles)) = 4).
  unfold one_hot. by rewrite length_fmap, length_seq.
Qed.

Lemma state_map_index state :
  index 4 (UnifiedModel.state_map state)
  = Ok (Z.to_nat (UnifiedModel.state_map state))
  ∧ <[Z.to_nat (UnifiedModel.state_map state):=1%Z]> (replicate 4 0%Z)
    = one_hot 4 (UnifiedModel.state_map state).
Proof. by destruct state. Qed.

Lemma mark_letter_step tiles (a : ndarray) letter state :
  in_window letter → ncols a = 4 → rows a = letter_table tiles →
  ∃ a', UnifiedModel.mark_letter (letter, state) a = Ok a'
    ∧ ncols a' = 4
    ∧ rows a' = letter_table (tiles ++ [(letter, state)]).
Proof.
  intros Hw Hcols Hrows. unfold UnifiedModel.mark_letter.
  unfold np_set_row. rewrite Hrows, length_letter_table, index_letter by done.
  rewrite !bind_Ok_l. unfold np_set_cell. cbn [rows ncols].
  rewrite length_insert, length_letter_table, index_letter by done.
  rewrite bind_Ok_l, Hcols.
  destruct (state_map_index state) as [-> Hrow]. rewrite bind_Ok_l.
  eexists. split; [done|]. cbn [rows ncols]. split; [done|].
  apply list_eq. intros r.
  destruct (decide (r < 26)) as [Hr|Hr].
  - rewrite letter_table_lookup, last_state_snoc by done. cbn [fst snd].
    destruct (decide (row_of letter = r)) as [<-|Hne].
    + rewrite list_lookup_alter, decide_True by done.
      rewrite list_lookup_insert_eq
        by (rewrite length_letter_table; apply row_of_lt).
      rewrite <- Hrow. reflexivity.
    + rewrite list_lookup_alter_ne, list_lookup_insert_ne by done.
      by apply letter_table_lookup.
  - rewrite !lookup_ge_None_2; [done|..].
    + rewrite length_letter_table. lia.
    + rewrite length_alter, length_insert, length_letter_table. lia.
Qed.

Lemma mark_letter_Raise (a : ndarray) letter state :
  ¬ in_window letter → length (rows a) = 26 →
  UnifiedModel.mark_letter (letter, state) a = Raise IndexError.
Proof.
  intros Hw Hrows. unfold UnifiedModel.mark_letter, np_set_row.
  rewrite Hrows, index_Raise; [done|]. unfold in_window in Hw. lia.
Qed.

Lemma letter_loop guesses feedbacks :
  let tiles := recorded guesses feedbacks in
  (Forall (λ lt, in_window lt.1) tiles →
   for_each tiles UnifiedModel.mark_letter
     {| ncols := 4; rows := letter_table [] |}
   = Ok {| ncols := 4; rows := letter_table tiles |})
  ∧ (¬ Forall (λ lt, in_window lt.1) tiles →
     for_each tiles UnifiedModel.mark_letter
       {| ncols := 4; rows := letter_table [] |}
     = Raise IndexError).
Proof.
  intros tiles. split.
  - intros Hall.
    destruct (for_each_inv
                (λ pre (a : ndarray),
                   ncols a = 4 ∧ rows a = letter_table pre)
                tiles UnifiedModel.mark_letter
                {| ncols := 4; rows := letter_table [] |})
      as ([c rs] & Hrun & Hc & Hr); [done| |].
    + intros pre [letter state] suf a Hsplit [Hc Hr].
      apply mark_letter_step; [|done..].
      rewrite Forall_forall in Hall. apply (Hall (letter, state)).
      rewrite Hsplit. apply elem_of_app. right. left.
    + cbn in Hc, Hr. by subst.
  - intros Hnot.
    apply (for_each_first_bad (λ lt : ascii * tile, in_window lt.1)
             (λ a : ndarray, ncols a = 4 ∧ ∃ pre, rows a = letter_table pre));
      [| |by split; [|exists []]|done].
    + intros [letter state] a [Hc [pre Hr]] Hw.
      destruct (mark_letter_step pre a letter state Hw Hc Hr)
        as (a' & Hrun & Hc' & Hr').
      exists a'. split; [done|]. split; [done|]. by eexists.
    + intros [letter state] a [Hc [pre Hr]] Hw.
      apply mark_letter_Raise; [done|].
      by rewrite Hr, length_letter_table.
Qed.

(** ** [encode_game_state]: the position table *)

Lemma np_set_row_shaped n w (a : ndarray) (i : nat) v :
  shaped n w a → i < n →
  ∃ a', np_set_row a (Z.of_nat i) v = Ok a' ∧ shaped n w a'.
Proof.
  intros (Hc & Hn & Hrows) Hi. unfold np_set_row.
  rewrite Hn, index_nat, bind_Ok_l by done.
  eexists. split; [done|]. unfold shaped. cbn [ncols rows].
  split_and!; [done|by rewrite length_insert|].
  apply Forall_insert; [done|]. by rewrite length_replicate.
Qed.

Lemma np_set_cell_shaped n w (a : ndarray) (i : nat) j v :
  shaped n w a → i < n → (- Z.of_nat w ≤ j < Z.of_nat w)%Z →
  ∃ a', np_set_cell a (Z.of_nat i) j v = Ok a' ∧ shaped n w a'.
Proof.
  intros (Hc & Hn & Hrows) Hi Hj. unfold np_set_cell.
  rewrite Hn, index_nat, bind_Ok_l by done.
  rewrite Hc, index_window, bind_Ok_l by done.
  eexists. split; [done|]. unfold shaped. cbn [ncols rows].
  split_and!; [done|by rewrite length_alter|].
  apply Forall_alter; [done|]. intros row _ Hrow. by rewrite length_insert.
Qed.

Lemma mark_position_shaped max_length (a : ndarray) pos letter state :
  in_window letter → shaped max_length 27 a →
  ∃ a', UnifiedModel.mark_position max_length (pos, (letter, state)) a = Ok a'
    ∧ shaped max_length 27 a'.
Proof.
  intros Hw Hsh. unfold UnifiedModel.mark_position.
  assert (- Z.of_nat 27 ≤ ord letter - ord "a" < Z.of_nat 27)%Z as Hj.
  { unfold in_window in Hw. lia. }
  destruct (decide (pos < max_length)) as [Hpos|Hpos]; [|by exists a].
  destruct (decide (state = CORRECT)) as [_|_].
  - destruct (np_set_row_shaped _ _ a pos 0 Hsh Hpos) as (a1 & -> & Hsh1).
    rewrite bind_Ok_l. by apply np_set_cell_shaped.
  - destruct (decide (state = ABSENT)) as [_|_]; [|by exists a].
    by apply np_set_cell_shaped.
Qed.

Lemma position_loop guesses feedbacks max_length (a : ndarray) :
  Forall (λ lt : ascii * tile, in_window lt.1) (recorded guesses feedbacks) →
  shaped max_length 27 a →
  ∃ a', for_each (placed guesses feedbacks)
          (UnifiedModel.mark_position max_length) a = Ok a'
    ∧ shaped max_length 27 a'.
Proof.
  intros Hall Hsh.
  apply (for_each_all_good (λ pls : nat * (ascii * tile), in_window pls.2.1));
    [|done|].
  - intros [pos [letter state]] a1 Hsh1 Hw. by apply mark_position_shaped.
  - clear Hsh. unfold placed, recorded in *.
    induction (zip guesses feedbacks) as [|gf l IH]; [constructor|].
    rewrite fmap_cons in *. cbn [concat] in *.
    apply Forall_app in Hall as [Hgf Hl].
    apply Forall_app. split; [|by apply IH].
    rewrite Forall_forall in Hgf. apply Forall_forall.
    intros [pos lt] Hin. apply Hgf. unfold enumerate in Hin.
    apply list_elem_of_lookup in Hin as [i Hi].
    rewrite list_lookup_imap in Hi.
    destruct (zip gf.1 gf.2 !! i) as [lt'|] eqn:Hlt; [|done].
    injection Hi as _ <-. by apply list_elem_of_lookup_2 in Hlt.
Qed.

Lemma letter_states_initial :
  np_set_column (np_zeros 26 4) 0 1
  = Ok {| ncols := 4; rows := letter_table [] |}.
Proof. reflexivity. Qed.

Lemma position_info_initial max_length :
  ∃ a, np_set_column (np_zeros max_length 27) 26 1 = Ok a
    ∧ shaped max_length 27 a.
Proof.
  unfold np_set_column, np_zeros. cbn [ncols rows].
  change (index 27 26%Z) with (@Ok nat 26). rewrite bind_Ok_l.
  eexists. split; [done|]. unfold shaped. cbn [ncols rows].
  split_and!; [done|by rewrite length_fmap, length_replicate|].
  rewrite Forall_fmap. apply Forall_replicate.
  change (length (<[26:=1%Z]> (replicate 27 0%Z)) = 27).
  by rewrite length_insert, length_replicate.
Qed.

Lemma one_hot_lookup n k c :
  c < n →
  one_hot n k !! c = Some (if decide (Z.of_nat c = k) then 1%Z else 0%Z).
Proof.
  intros Hc. unfold one_hot. rewrite list_lookup_fmap.
  by rewrite lookup_seq_lt.
Qed.

(** The encoder on a history whose letters are in the window. *)
Lemma encode_game_state_Ok guesses feedbacks len max_length :
  Forall (λ lt : ascii * tile, in_window lt.1) (recorded guesses feedbacks) →
  ∃ a, shaped max_length 27 a
    ∧ UnifiedModel.encode_game_state guesses feedbacks len max_length
      = Ok ([ratio (Z.of_nat (length guesses)) 6]
            ++ (whole <$> concat (letter_table (recorded guesses feedbacks)))
            ++ (whole <$> np_flatten a)).
Proof.
  intros Hall. unfold UnifiedModel.encode_game_state.
  rewrite letter_states_initial, bind_Ok_l, for_each_recorded.
  rewrite (proj1 (letter_loop guesses feedbacks) Hall), bind_Ok_l.
  destruct (position_info_initial max_length) as (a0 & -> & Hsh0).
  rewrite bind_Ok_l, for_each_placed.
  destruct (position_loop guesses feedbacks max_length a0 Hall Hsh0)
    as (a & -> & Hsh).
  rewrite bind_Ok_l. exists a. split; [done|].
  unfold np_flatten. cbn [rows]. by rewrite <- app_assoc.
Qed.

Lemma encode_game_state_Raise guesses feedbacks len max_length :
  ¬ Forall (λ lt : ascii * tile, in_window lt.1) (recorded guesses feedbacks) →
  UnifiedModel.encode_game_state guesses feedbacks len max_length
  = Raise IndexError.
Proof.
  intros Hnot. unfold UnifiedModel.encode_game_state.
  rewrite letter_states_initial, bind_Ok_l, for_each_recorded.
  by rewrite (proj2 (letter_loop guesses feedbacks) Hnot).
Qed.

(** X14: when every letter of the history paired with a tile has a code
    point from 71 to 122, [encode_game_state] returns a vector of
    [1 + 26 * 4 + max_length * 27] entries, which with the length embedding
    is the [feature_dim] the network is built for; otherwise it raises
    [IndexError]. *)
Theorem encode_game_state_dimension (guesses : list Word)
    (feedbacks : list FeedbackPattern) (len max_length : nat) :
  (Forall (λ lt : ascii * tile, in_window lt.1) (recorded guesses feedbacks) →
   ∃ v, UnifiedModel.encode_game_state guesses feedbacks len max_length = Ok v
     ∧ length v = 1 + 26 * 4 + max_length * 27
     ∧ ∀ embedding_dim,
         embedding_dim + length v
         = UnifiedModel.feature_dim embedding_dim max_length)
  ∧ (¬ Forall (λ lt : ascii * tile, in_window lt.1)
         (recorded guesses feedbacks) →
     UnifiedModel.encode_game_state guesses feedbacks len max_length
     = Raise IndexError).
Proof.
  split; [|apply encode_game_state_Raise].
  intros Hall.
  destruct (encode_game_state_Ok guesses feedbacks len max_length Hall)
    as (a & (Hc & Hn & Hrows) & ->).
  eexists. split; [done|].
  assert (∀ n, length ([ratio (Z.of_nat (length guesses)) 6]
            ++ (whole <$> concat (letter_table (recorded guesses feedbacks)))
            ++ (whole <$> np_flatten a)) = n → n = 1 + 26 * 4 + max_length * 27)
    as Hlen.
  { intros n <-. rewrite !length_app, !length_fmap. unfold np_flatten.
    rewrite (length_concat_uniform 4) by apply letter_table_rows.
    rewrite (length_concat_uniform 27) by done.
    rewrite length_letter_table, Hn. cbn [length]. lia. }
  split; [by rewrite (Hlen _ eq_refl)|].
  intros embedding_dim. rewrite (Hlen _ eq_refl).
  unfold UnifiedModel.feature_dim. lia.
Qed.

Lemma encode_game_state_dimension_witness :
  (Forall (λ lt : ascii * tile, in_window lt.1)
     (recorded [str "abd"] [[CORRECT; CORRECT; ABSENT]])
   ∧ ∃ v, UnifiedModel.encode_game_state [str "abd"]
            [[CORRECT; CORRECT; ABSENT]] 3 UnifiedModel.default_max_length
          = Ok v
       ∧ length v = 294)
  ∧ (¬ Forall (λ lt : ascii * tile, in_window lt.1)
         (recorded [str "Abd"] [[CORRECT; CORRECT; ABSENT]])
     ∧ UnifiedModel.encode_game_state [str "Abd"]
         [[CORRECT; CORRECT; ABSENT]] 3 UnifiedModel.default_max_length
       = Raise IndexError).
Proof.
  assert (Forall (λ lt : ascii * tile, in_window lt.1)
            (recorded [str "abd"] [[CORRECT; CORRECT; ABSENT]])) as Hall.
  { refine (bool_decide_unpack _ _). vm_compute. exact I. }
  assert (¬ Forall (λ lt : ascii * tile, in_window lt.1)
              (recorded [str "Abd"] [[CORRECT; CORRECT; ABSENT]])) as Hnot.
  { refine (bool_decide_unpack _ _). vm_compute. exact I. }
  split.
  - split; [exact Hall|].
    destruct (proj1 (encode_game_state_dimension [str "abd"]
                       [[CORRECT; CORRECT; ABSENT]] 3
                       UnifiedModel.default_max_length) Hall)
      as (v & Hv & Hlen & _).
    exists v. split; [exact Hv|exact Hlen].
  - split; [exact Hnot|].
    exact (proj2 (encode_game_state_dimension [str "Abd"]
                    [[CORRECT; CORRECT; ABSENT]] 3
                    UnifiedModel.default_max_length) Hnot).
Defined.

(** X15: in the vector [encode_game_state] returns, the four entries of a
    letter row are one-hot: the [1] is at the state of the last tile of the
    history whose letter has that row, whatever the earlier tiles of the
    letter were, and at "unknown" when there is none. *)
Theorem encode_game_state_last_write_wins (guesses : list Word)
    (feedbacks : list FeedbackPattern) (len max_length : nat) :
  Forall (λ lt : ascii * tile, in_window lt.1) (recorded guesses feedbacks) →
  ∃ v, UnifiedModel.encode_game_state guesses feedbacks len max_length = Ok v
    ∧ ∀ r c, r < 26 → c < 4 →
        v !! (1 + 4 * r + c)
        = Some (whole (if decide (Z.of_nat c
                                  = last_state r (recorded guesses feedbacks))
                       then 1 else 0)).
Proof.
  intros Hall.
  destruct (encode_game_state_Ok guesses feedbacks len max_length Hall)
    as (a & _ & ->).
  eexists. split; [done|]. intros r c Hr Hc.
  rewrite (lookup_app_r [_]) by (cbn [length]; lia). cbn [length].
  replace (1 + 4 * r + c - 1) with (r * 4 + c) by lia.
  assert (length (whole <$> concat (letter_table (recorded guesses feedbacks)))
          = 104) as Hlen.
  { rewrite length_fmap, (length_concat_uniform 4) by apply letter_table_rows.
    by rewrite length_letter_table. }
  rewrite lookup_app_l by lia.
  rewrite list_lookup_fmap.
  rewrite (lookup_concat_uniform 4) by (apply letter_table_rows || done).
  rewrite letter_table_lookup by done. cbn [mbind option_bind].
  by rewrite one_hot_lookup.
Qed.

Lemma encode_game_state_last_write_wins_witness :
  Forall (λ lt : ascii * tile, in_window lt.1)
    (recorded [str "aax"] [[CORRECT; ABSENT; ABSENT]])
  ∧ ∃ v, UnifiedModel.encode_game_state [str "aax"]
           [[CORRECT; ABSENT; ABSENT]] 3 UnifiedModel.default_max_length
         = Ok v
      ∧ v !! (1 + 4 * 0 + 1) = Some (whole 1)
      ∧ v !! (1 + 4 * 0 + 3) = Some (whole 0).
Proof.
  assert (Forall (λ lt : ascii * tile, in_window lt.1)
            (recorded [str "aax"] [[CORRECT; ABSENT; ABSENT]])) as Hall.
  { refine (bool_decide_unpack _ _). vm_compute. exact I. }
  split; [exact Hall|].
  destruct (encode_game_state_last_write_wins [str "aax"]
              [[CORRECT; ABSENT; ABSENT]] 3 UnifiedModel.default_max_length
              Hall) as (v & Hv & Hrows).
  exists v. split; [exact Hv|].
  split; [rewrite (Hrows 0 1) by lia|rewrite (Hrows 0 3) by lia];
    reflexivity.
Defined.

(** ** [get_smart_starter] *)

(** X16: [get_smart_starter] returns [None] exactly when no word is
    available; a word it returns is available, and is either the first
    available word of the starter table for the length or, when no starter
    of that table is available, the first available word; when the available
    words all have one length, so has the result. *)
Theorem get_smart_starter_spec (length : nat) (available_words : list Word) :
  let optimal :=
    default [] (dict_get UnifiedModel.OPTIMAL_STARTERS length) in
  (UnifiedModel.get_smart_starter length available_words = None
   ↔ available_words = [])
  ∧ (∀ w, UnifiedModel.get_smart_starter length available_words = Some w →
       w ∈ available_words
       ∧ ((∃ i, optimal !! i = Some w
             ∧ ∀ j s, j < i → optimal !! j = Some s → s ∉ available_words)
          ∨ (head available_words = Some w
             ∧ ∀ s, s ∈ optimal → s ∉ available_words)))
  ∧ (∀ n, Forall (λ w : Word, Datatypes.length w = n) available_words →
       ∀ w, UnifiedModel.get_smart_starter length available_words = Some w →
            Datatypes.length w = n).
Proof.
  intros optimal. unfold UnifiedModel.get_smart_starter. fold optimal.
  assert (∀ w, match list_find (λ word, word ∈ available_words) optimal with
               | Some (_, word) => Some word
               | None => head available_words
               end = Some w →
       w ∈ available_words
       ∧ ((∃ i, optimal !! i = Some w
             ∧ ∀ j s, j < i → optimal !! j = Some s → s ∉ available_words)
          ∨ (head available_words = Some w
             ∧ ∀ s, s ∈ optimal → s ∉ available_words))) as Hsome.
  { intros w.
    destruct (list_find _ optimal) as [[i word]|] eqn:Hfind.
    - intros [= ->]. apply list_find_Some in Hfind as (Hi & Hin & Hfirst).
      split; [done|]. left. exists i. split; [done|].
      intros j s Hj Hs. by apply (Hfirst j).
    - intros Hhead. apply list_find_None in Hfind.
      split; [by apply head_Some_elem_of|]. right. split; [done|].
      rewrite Forall_forall in Hfind. done. }
  split_and!.
  - destruct (list_find _ optimal) as [[i word]|] eqn:Hfind.
    + apply list_find_Some in Hfind as (_ & Hin & _).
      split; [done|]. intros ->. by apply elem_of_nil in Hin.
    + destruct available_words; [done|]. cbn. split; done.
  - exact Hsome.
  - intros n Hall w Hw. destruct (Hsome w Hw) as [Hin _].
    rewrite Forall_forall in Hall. by apply Hall.
Qed.

Lemma get_smart_starter_spec_witness :
  Forall (λ w : Word, length w = 5) [str "crane"; str "stale"; str "least"]
  ∧ UnifiedModel.get_smart_starter 5 [str "crane"; str "stale"; str "least"]
    = Some (str "least")
  ∧ length (str "least") = 5.
Proof.
  assert (Forall (λ w : Word, length w = 5)
            [str "crane"; str "stale"; str "least"]) as Hall.
  { repeat constructor. }
  assert (UnifiedModel.get_smart_starter 5
            [str "crane"; str "stale"; str "least"] = Some (str "least"))
    as Hrun.
  { vm_compute. reflexivity. }
  split; [exact Hall|]. split; [exact Hrun|].
  exact (proj2 (proj2 (get_smart_starter_spec 5
                         [str "crane"; str "stale"; str "least"]))
           5 Hall (str "least") Hrun).
Defined.

(** ** [encode_state] *)

Lemma foldl_concat {A B} (f : B → A → B) (ls : list (list A)) b :
  foldl f b (concat ls) = foldl (λ b l, foldl f b l) b ls.
Proof.
  revert b. induction ls as [|l ls IH]; intros b; [done|].
  cbn [concat foldl]. by rewrite foldl_app, IH.
Qed.

Lemma foldl_fmap_list {A B C} (g : A → B) (f : C → B → C) (l : list A) c :
  foldl f c (g <$> l) = foldl (λ c x, f c (g x)) c l.
Proof. revert c. induction l as [|x l IH]; intros c; [done|]. apply IH. Qed.

Lemma foldl_recorded {St} guesses feedbacks
    (f : St → ascii * tile → St) st :
  foldl (λ st (gf : Word * FeedbackPattern), foldl f st (zip gf.1 gf.2)) st
    (zip guesses feedbacks)
  = foldl f st (recorded guesses feedbacks).
Proof. unfold recorded. by rewrite foldl_concat, foldl_fmap_list. Qed.

Lemma rank_bounds state : (1 ≤ rank state ≤ 3)%Z.
Proof. destruct state; cbn; lia. Qed.

Lemma best_state_bounds L tiles : (0 ≤ best_state L tiles ≤ 3)%Z.
Proof.
  induction tiles as [|[l s] tiles IH]; [cbn; lia|].
  cbn [best_state foldr fst snd]. fold (best_state L tiles).
  pose proof (rank_bounds s). destruct (decide (l = L)); lia.
Qed.

Lemma best_state_snoc L tiles (lt : ascii * tile) :
  best_state L (tiles ++ [lt])
  = if decide (lt.1 = L) then Z.max (rank lt.2) (best_state L tiles)
    else best_state L tiles.
Proof.
  induction tiles as [|[l s] tiles IH].
  - cbn. destruct (decide (lt.1 = L)); [|done].
    pose proof (rank_bounds lt.2). lia.
  - cbn [app best_state foldr fst snd].
    fold (best_state L (tiles ++ [lt])). fold (best_state L tiles).
    rewrite IH. destruct (decide (l = L)), (decide (lt.1 = L)); lia.
Qed.

Lemma best_state_Permutation L tiles tiles' :
  tiles ≡ₚ tiles' → best_state L tiles = best_state L tiles'.
Proof.
  induction 1 as [|[l s] t1 t2 _ IH|[l1 s1] [l2 s2] t|t1 t2 t3 _ IH1 _ IH2].
  - done.
  - cbn [best_state foldr fst snd]. fold (best_state L t1).
    fold (best_state L t2). by rewrite IH.
  - cbn [best_state foldr fst snd]. fold (best_state L t).
    destruct (decide (l1 = L)), (decide (l2 = L)); lia.
  - congruence.
Qed.

Lemma update_letter_holds tiles ls (letter : ascii) (state : tile) :
  holds_best tiles ls →
  holds_best (tiles ++ [(letter, state)])
    (TrainPolicy.update_letter ls (letter, state)).
Proof.
  intros Hinv L. rewrite best_state_snoc. cbn [fst snd].
  pose proof (best_state_bounds letter tiles) as Hb.
  pose proof (Hinv letter) as Hl.
  unfold TrainPolicy.update_letter.
  destruct (decide (letter = L)) as [<-|Hne].
  - destruct state; cbn [rank].
    + rewrite decide_True by done. rewrite lookup_insert_eq.
      rewrite decide_False by lia. f_equal. lia.
    + rewrite decide_False by done.
      rewrite bool_decide_eq_true_2 by done. cbn [andb].
      destruct (bool_decide _) eqn:Hlt.
      * apply bool_decide_eq_true in Hlt. rewrite lookup_insert_eq.
        rewrite Hl in Hlt.
        rewrite decide_False by lia. f_equal.
        destruct (decide (best_state letter tiles = 0%Z));
          cbn [from_option] in Hlt; unfold Datatypes.id in Hlt; lia.
      * apply bool_decide_eq_false in Hlt.
        rewrite (bool_decide_eq_false_2 (PRESENT = ABSENT)) by done.
        cbn [andb]. rewrite Hl in Hlt |- *.
        destruct (decide (best_state letter tiles = 0%Z)) as [H0|H0];
          cbn [from_option] in Hlt; unfold Datatypes.id in Hlt; [lia|].
        rewrite decide_False by lia. f_equal. lia.
    + rewrite decide_False by done.
      rewrite bool_decide_eq_false_2 by done. cbn [andb].
      rewrite bool_decide_eq_true_2 by done. cbn [andb].
      destruct (bool_decide _) eqn:Hnone.
      * apply bool_decide_eq_true in Hnone. rewrite lookup_insert_eq.
        rewrite Hl in Hnone.
        destruct (decide (best_state letter tiles = 0%Z)) as [H0|H0];
          [|done].
        rewrite H0. by rewrite decide_False by lia.
      * apply bool_decide_eq_false in Hnone. rewrite Hl in Hnone |- *.
        destruct (decide (best_state letter tiles = 0%Z)) as [H0|H0];
          [done|].
        rewrite decide_False by lia. f_equal. lia.
  - assert (TrainPolicy.update_letter ls (letter, state) !! L = ls !! L)
      as Hsame.
    { unfold TrainPolicy.update_letter.
      repeat (destruct (decide _) || destruct (_ && _));
        by rewrite ?lookup_insert_ne by done. }
    unfold TrainPolicy.update_letter in Hsame. rewrite Hsame. apply Hinv.
Qed.

Lemma letter_states_holds tiles :
  holds_best tiles (foldl TrainPolicy.update_letter ∅ tiles).
Proof.
  induction tiles as [|[letter state] tiles IH] using rev_ind.
  - intros L. cbn [foldl]. rewrite lookup_empty. reflexivity.
  - rewrite foldl_app. cbn [foldl]. by apply update_letter_holds.
Qed.

Lemma letter_state_get tiles L :
  default 0%Z (foldl TrainPolicy.update_letter ∅ tiles !! L)
  = best_state L tiles.
Proof.
  rewrite (letter_states_holds tiles L).
  by destruct (decide (best_state L tiles = 0%Z)).
Qed.

Lemma set_constraint_Ok n (pc : list (list Z)) pos letter v :
  length pc = n → Forall (λ row : list Z, length row = 26) pc →
  pos < n → in_window letter →
  ∃ pc', TrainPolicy.set_constraint pc pos (ord letter - ord "a") v = Ok pc'
    ∧ length pc' = n ∧ Forall (λ row : list Z, length row = 26) pc'.
Proof.
  intros Hn Hrows Hpos Hw. unfold TrainPolicy.set_constraint.
  destruct (pc !! pos) as [row|] eqn:Hrow.
  2:{ apply lookup_ge_None_1 in Hrow. lia. }
  rewrite (getitem_Ok _ _ _ Hrow), bind_Ok_l.
  assert (length row = 26) as Hlen.
  { rewrite Forall_forall in Hrows. apply Hrows.
    by apply list_elem_of_lookup_2 in Hrow. }
  rewrite Hlen, index_letter, bind_Ok_l by done.
  eexists. split; [done|]. split; [by rewrite length_insert|].
  apply Forall_insert; [done|]. by rewrite length_insert.
Qed.

Lemma set_constraint_Raise n (pc : list (list Z)) pos letter v :
  length pc = n → Forall (λ row : list Z, length row = 26) pc →
  ¬ (pos < n ∧ in_window letter) →
  TrainPolicy.set_constraint pc pos (ord letter - ord "a") v
  = Raise IndexError.
Proof.
  intros Hn Hrows Hbad. unfold TrainPolicy.set_constraint.
  destruct (decide (pos < n)) as [Hpos|Hpos].
  - destruct (pc !! pos) as [row|] eqn:Hrow.
    2:{ apply lookup_ge_None_1 in Hrow. lia. }
    rewrite (getitem_Ok _ _ _ Hrow), bind_Ok_l.
    assert (length row = 26) as Hlen.
    { rewrite Forall_forall in Hrows. apply Hrows.
      by apply list_elem_of_lookup_2 in Hrow. }
    rewrite Hlen, index_Raise; [done|].
    intros Hw. apply Hbad. split; [done|]. unfold in_window. lia.
  - by rewrite getitem_Raise by lia.
Qed.

Lemma mark_constraint_Ok n (pc : list (list Z)) pls :
  (length pc = n ∧ Forall (λ row : list Z, length row = 26) pc) →
  writable n pls →
  ∃ pc', TrainPolicy.mark_constraint pls pc = Ok pc'
    ∧ length pc' = n ∧ Forall (λ row : list Z, length row = 26) pc'.
Proof.
  destruct pls as [pos [letter state]]. intros [Hn Hrows] Hgood.
  unfold TrainPolicy.mark_constraint, writable in *. cbn [fst snd] in Hgood.
  destruct (decide (state = CORRECT)) as [->|Hc].
  - destruct Hgood as [?|[Hpos Hw]]; [done|]. by apply set_constraint_Ok.
  - destruct (decide (state = ABSENT)) as [->|Ha]; [|by exists pc].
    destruct Hgood as [?|[Hpos Hw]]; [done|]. by apply set_constraint_Ok.
Qed.

Lemma mark_constraint_Raise n (pc : list (list Z)) pls :
  (length pc = n ∧ Forall (λ row : list Z, length row = 26) pc) →
  ¬ writable n pls →
  TrainPolicy.mark_constraint pls pc = Raise IndexError.
Proof.
  destruct pls as [pos [letter state]]. intros [Hn Hrows] Hbad.
  unfold TrainPolicy.mark_constraint, writable in *. cbn [fst snd] in Hbad.
  assert (¬ (pos < n ∧ in_window letter)) as Hbad' by tauto.
  destruct (decide (state = CORRECT)) as [->|Hc];
    [by apply (set_constraint_Raise n)|].
  destruct (decide (state = ABSENT)) as [->|Ha];
    [by apply (set_constraint_Raise n)|].
  destruct Hbad. left. by destruct state.
Qed.

(** The encoder as a function of the final table. *)
Lemma encode_state_unfold self_length guess_history feedback_history :
  TrainPolicy.encode_state self_length guess_history feedback_history
  = (pc ← for_each (placed guess_history feedback_history)
            TrainPolicy.mark_constraint
            (replicate self_length (replicate 26 0%Z));
     Ok ([ratio (Z.of_nat (length guess_history)) 6]
         ++ ((λ i : nat,
                ratio (best_state (chr (ord "a" + Z.of_nat i))
                         (recorded guess_history feedback_history)) 3)
               <$> range 26)
         ++ (whole <$> concat pc))).
Proof.
  unfold TrainPolicy.encode_state. rewrite for_each_placed, foldl_recorded.
  destruct (for_each _ _ _) as [pc|e]; [|done]. rewrite !bind_Ok_l.
  rewrite <- app_assoc. do 3 f_equal.
  apply list_fmap_ext. intros i x _. by rewrite letter_state_get.
Qed.

(** X17: [encode_state] returns a vector of [input_size] entries when
    every correct or absent tile of the history is at a position below
    [self.length] and has a letter of code point from 71 to 122; otherwise
    it raises [IndexError]. *)
Theorem encode_state_dimension (self_length : nat)
    (guess_history : list Word) (feedback_history : list FeedbackPattern) :
  (Forall (writable self_length) (placed guess_history feedback_history) →
   ∃ v, TrainPolicy.encode_state self_length guess_history feedback_history
        = Ok v
     ∧ length v = TrainPolicy.input_size self_length)
  ∧ (¬ Forall (writable self_length)
         (placed guess_history feedback_history) →
     TrainPolicy.encode_state self_length guess_history feedback_history
     = Raise IndexError).
Proof.
  rewrite encode_state_unfold.
  assert (length (replicate self_length (replicate 26 0%Z)) = self_length
          ∧ Forall (λ row : list Z, length row = 26)
              (replicate self_length (replicate 26 0%Z))) as Hinit.
  { split; [by rewrite length_replicate|].
    apply Forall_replicate. by rewrite length_replicate. }
  split.
  - intros Hall.
    destruct (for_each_all_good (writable self_length)
                (λ pc : list (list Z),
                   length pc = self_length
                   ∧ Forall (λ row : list Z, length row = 26) pc)
                (placed guess_history feedback_history)
                TrainPolicy.mark_constraint
                (replicate self_length (replicate 26 0%Z)))
      as (pc & -> & Hn & Hrows); [|done|done|].
    { intros pls pc Hpc Hgood. by apply (mark_constraint_Ok self_length). }
    rewrite bind_Ok_l. eexists. split; [done|].
    rewrite !length_app, !length_fmap, (length_concat_uniform 26) by done.
    unfold range. rewrite length_seq, Hn. unfold TrainPolicy.input_size.
    cbn [length]. lia.
  - intros Hnot.
    rewrite (for_each_first_bad (writable self_length)
               (λ pc : list (list Z),
                  length pc = self_length
                  ∧ Forall (λ row : list Z, length row = 26) pc)
               IndexError); [done| | |done|done].
    + intros pls pc Hpc Hgood. by apply (mark_constraint_Ok self_length).
    + intros pls pc Hpc Hbad. by apply (mark_constraint_Raise self_length).
Qed.

Lemma encode_state_dimension_witness :
  (Forall (writable 3) (placed [str "abd"] [[CORRECT; CORRECT; ABSENT]])
   ∧ ∃ v, TrainPolicy.encode_state 3 [str "abd"] [[CORRECT; CORRECT; ABSENT]]
          = Ok v
       ∧ length v = 105)
  ∧ (¬ Forall (writable 2) (placed [str "abd"] [[CORRECT; CORRECT; ABSENT]])
     ∧ TrainPolicy.encode_state 2 [str "abd"] [[CORRECT; CORRECT; ABSENT]]
       = Raise IndexError).
Proof.
  assert (Forall (writable 3)
            (placed [str "abd"] [[CORRECT; CORRECT; ABSENT]])) as Hall.
  { refine (bool_decide_unpack _ _). vm_compute. exact I. }
  assert (¬ Forall (writable 2)
              (placed [str "abd"] [[CORRECT; CORRECT; ABSENT]])) as Hnot.
  { refine (bool_decide_unpack _ _). vm_compute. exact I. }
  split.
  - split; [exact Hall|].
    exact (proj1 (encode_state_dimension 3 [str "abd"]
                    [[CORRECT; CORRECT; ABSENT]]) Hall).
  - split; [exact Hnot|].
    exact (proj2 (encode_state_dimension 2 [str "abd"]
                    [[CORRECT; CORRECT; ABSENT]]) Hnot).
Defined.

(** X18: in the vector [encode_state] returns, the entry of a letter is
    the greatest state among the tiles of that letter in the history
    (correct over present over absent, 0 when there is none) over 3; so the
    26 letter entries do not depend on the order of the tiles. *)
Theorem encode_state_letter_priority (self_length : nat)
    (guess_history : list Word) (feedback_history : list FeedbackPattern)
    (v : list feature) :
  TrainPolicy.encode_state self_length guess_history feedback_history = Ok v →
  (∀ i, i < 26 →
     v !! (1 + i)
     = Some (ratio (best_state (chr (ord "a" + Z.of_nat i))
                      (recorded guess_history feedback_history)) 3))
  ∧ (∀ n' guess_history' feedback_history' v',
       TrainPolicy.encode_state n' guess_history' feedback_history' = Ok v' →
       recorded guess_history feedback_history
       ≡ₚ recorded guess_history' feedback_history' →
       take 26 (drop 1 v) = take 26 (drop 1 v')).
Proof.
  assert (∀ n gh fh w,
    TrainPolicy.encode_state n gh fh = Ok w →
    take 26 (drop 1 w)
    = (λ i : nat,
         ratio (best_state (chr (ord "a" + Z.of_nat i)) (recorded gh fh)) 3)
        <$> range 26) as Hletters.
  { intros n gh fh w. rewrite encode_state_unfold.
    destruct (for_each _ _ _) as [pc|e]; [|done]. rewrite bind_Ok_l.
    intros Hw. apply (inj Ok) in Hw. subst w.
    rewrite (drop_app_length' [_]) by done.
    rewrite take_app_length'; [done|].
    unfold range. by rewrite length_fmap, length_seq. }
  intros Hv. split.
  - intros i Hi.
    assert (take 26 (drop 1 v) !! i = v !! (1 + i)) as <-.
    { rewrite lookup_take_lt, lookup_drop by done. done. }
    rewrite (Hletters _ _ _ _ Hv), list_lookup_fmap.
    unfold range. by rewrite lookup_seq_lt.
  - intros n' gh' fh' v' Hv' Hperm.
    rewrite (Hletters _ _ _ _ Hv), (Hletters _ _ _ _ Hv').
    apply list_fmap_ext. intros i x _. f_equal.
    by apply best_state_Permutation.
Qed.

Lemma encode_state_letter_priority_witness :
  ∃ v, TrainPolicy.encode_state 3 [str "aax"] [[CORRECT; ABSENT; ABSENT]]
       = Ok v
    ∧ v !! (1 + 0) = Some (ratio 3 3).
Proof.
  assert (∃ v, TrainPolicy.encode_state 3 [str "aax"]
                 [[CORRECT; ABSENT; ABSENT]] = Ok v) as [v Hv].
  { eexists. vm_compute. reflexivity. }
  exists v. split; [exact Hv|].
  rewrite (proj1 (encode_state_letter_priority 3 [str "aax"]
                    [[CORRECT; ABSENT; ABSENT]] v Hv) 0 ltac:(lia)).
  reflexivity.
Defined.

(** ** [filter_words_by_length] *)

Lemma filter_words_by_length_uniform words n :
  uniform n (ComprehensiveWordlists.filter_words_by_length words n).
Proof.
  unfold uniform, ComprehensiveWordlists.filter_words_by_length.
  apply Forall_forall. by intros w [[Hlen _] _]%list_elem_of_filter.
Qed.

(** X19: [filter_words_by_length] returns no word for length 0; what it
    returns for the length of the secret is, unless empty, a dictionary on
    which [play_optimal_game] returns a trajectory and, for a secret of 3 to
    7 letters, [play_smart_game] returns too; an alphabetic secret among the
    words is kept. *)
Theorem filtered_dictionary_is_playable {FM : FloatOps} {FL : FloatLaws FM}
    (words : list Word) (secret : Word) (max_guesses : nat) :
  let all_words :=
    ComprehensiveWordlists.filter_words_by_length words (length secret) in
  ComprehensiveWordlists.filter_words_by_length words 0 = []
  ∧ (all_words ≠ [] →
     (∃ traj, play_optimal_game secret all_words max_guesses = Ok traj)
     ∧ (3 ≤ length secret ≤ 7 →
        ∃ gs fs ok,
          QuickTrajectories.play_smart_game secret all_words max_guesses
          = NoKeyError (Ok (gs, fs, ok))))
  ∧ (ComprehensiveWordlists.isalpha secret = true → secret ∈ words →
     secret ∈ all_words).
Proof.
  intros all_words. split_and!.
  - unfold ComprehensiveWordlists.filter_words_by_length.
    induction words as [|w words IH]; [done|].
    rewrite filter_cons, decide_False; [done|].
    intros [Hlen Halpha]. apply length_zero_iff_nil in Hlen. by subst w.
  - intros Hne.
    pose proof (filter_words_by_length_uniform words (length secret)) as Hu.
    fold all_words in Hu. split.
    + destruct (play_loop_finished secret all_words max_guesses Hne Hu)
        as (st & Hrun & _).
      unfold play_optimal_game. rewrite Hrun, bind_Ok_l. by eexists.
    + intros Hlen. unfold QuickTrajectories.play_smart_game.
      destruct (proj1 (first_guesses_lookup _) Hlen) as [starters ->].
      destruct (smart_loop_finished secret all_words starters max_guesses
                  Hne Hu) as (st & -> & _).
      rewrite bind_Ok_l. by do 3 eexists.
  - intros Halpha Hin. apply list_elem_of_filter. by split.
Qed.

Lemma filtered_dictionary_is_playable_witness :
  FloatLaws real_arithmetic
  ∧ ComprehensiveWordlists.filter_words_by_length
      [str "abc"; str "ab1"; str "abcd"; str "xbc"] (length (str "xbc")) ≠ []
  ∧ ∃ traj,
      play_optimal_game (FM := real_arithmetic) (str "xbc")
        (ComprehensiveWordlists.filter_words_by_length
           [str "abc"; str "ab1"; str "abcd"; str "xbc"] (length (str "xbc")))
        default_max_guesses = Ok traj.
Proof.
  assert (ComprehensiveWordlists.filter_words_by_length
            [str "abc"; str "ab1"; str "abcd"; str "xbc"]
            (length (str "xbc")) ≠ []) as Hne.
  { vm_compute. discriminate. }
  split; [exact real_arithmetic_laws|]. split; [exact Hne|].
  exact (proj1 (proj1 (proj2 (filtered_dictionary_is_playable
                                (FM := real_arithmetic)
                                (FL := real_arithmetic_laws)
                                [str "abc"; str "ab1"; str "abcd"; str "xbc"]
                                (str "xbc") default_max_guesses)) Hne)).
Defined.
